(** * Fragmentation of a periodic framework into SBUs and linkers

    A shallow embedding of
    [molSimplify/Informatics/MOF/fragment_MOFs_for_pormake.py]:
    [periodic_checker], [branch], [identify_main_chain],
    [get_molcif_cycles_no_metal], [breakdown_MOF], [prepare_initial_SBU],
    [identify_lc_atoms], [identify_short_linkers] and [make_MOF_fragments].

    Conventions of the embedding.
    - Atom indices are [nat]; a Python [set] of indices is a [gset nat], and
      [list(s)] / iteration over a set is [elements s] (Python leaves that
      order unspecified; no statement below depends on it).
    - The adjacency matrix is a dense [list (list nat)]; an entry different
      from 0 is a bond.
    - Coordinates are exact rationals.  The source computes with binary
      floating point; distances are compared through their squares, so no
      square root is taken.
    - The file system is an initial set of paths plus the trace of the
      writes performed so far.
    - Index lookups are total and return a default outside the range (Python
      raises [IndexError] there); [wf_mol] states the shape under which every
      index the code derives from the structure is in range. *)

From Stdlib Require Import QArith Qround.
From stdpp Require Import gmap strings list fin_maps pretty sorting.
Close Scope Q_scope.

(** ** Python values, exceptions and results *)

Inductive exn :=
| NameError | ValueError | KeyError | RecursionError | NetworkXNoPath.

Inductive res (A : Type) :=
| Ok (a : A)
| Raise (e : exn).
Arguments Ok {A} a.
Arguments Raise {A} e.

#[global] Instance res_ret : MRet res := fun A a => Ok a.
#[global] Instance res_bind : MBind res := fun A B k r =>
  match r with
  | Ok a => k a
  | Raise e => Raise e
  end.

(** What a Python function hands back: [None], an [int], or a pair. *)
Inductive pyval :=
| PyNone
| PyInt (z : Z)
| PyTuple2 (a b : pyval).

(** A path argument of the source: [False] by default, else a string.
    Python's truth value of a string is its non-emptiness. *)
Inductive pypath :=
| PFalse
| PStr (s : string).

Definition truthy (p : pypath) : bool :=
  match p with
  | PFalse => false
  | PStr s => negb (String.eqb s "")
  end.

Definition path_str (p : pypath) : string :=
  match p with
  | PFalse => ""
  | PStr s => s
  end.

(** ** Strings *)

Definition upper_ascii (c : Ascii.ascii) : Ascii.ascii :=
  let n := Ascii.nat_of_ascii c in
  if (97 <=? n) && (n <=? 122) then Ascii.ascii_of_nat (n - 32) else c.

Fixpoint upper (s : string) : string :=
  match s with
  | EmptyString => EmptyString
  | String c r => String (upper_ascii c) (upper r)
  end.

(** [sep.join(l)] *)
Fixpoint join (sep : string) (l : list string) : string :=
  match l with
  | [] => ""
  | [x] => x
  | x :: r => x +:+ sep +:+ join sep r
  end.

(** [needle in hay] for strings. *)
Fixpoint contains (needle hay : string) : bool :=
  String.prefix needle hay ||
  match hay with
  | EmptyString => false
  | String _ r => contains needle r
  end.

(** [str(s)] of a set of integers. *)
Definition str_set (s : gset nat) : string :=
  match elements s with
  | [] => "set()"
  | l => "{" +:+ join ", " (pretty <$> l) +:+ "}"
  end.

(** The line feed the source writes as a backslash escape. *)
Definition nl : string := String (Ascii.ascii_of_nat 10) EmptyString.

Definition slash : Ascii.ascii := Ascii.ascii_of_nat 47.

(** [s.endswith('/')] and [s[:-1]] *)
Fixpoint ends_with_slash (s : string) : bool :=
  match s with
  | EmptyString => false
  | String c EmptyString => Ascii.eqb c slash
  | String _ r => ends_with_slash r
  end.

Fixpoint drop_last (s : string) : string :=
  match s with
  | EmptyString => EmptyString
  | String c EmptyString => EmptyString
  | String c r => String c (drop_last r)
  end.

(** [os.path.basename]: what follows the last slash. *)
Fixpoint basename_from (acc s : string) : string :=
  match s with
  | EmptyString => acc
  | String c r =>
      if Ascii.eqb c slash then basename_from EmptyString r
      else basename_from (acc +:+ String c EmptyString) r
  end.

Definition basename (s : string) : string := basename_from EmptyString s.

(** [s.strip(chars)]: leading and trailing characters of [chars] go. *)
Fixpoint lstrip_list (chars : list Ascii.ascii) (l : list Ascii.ascii) : list Ascii.ascii :=
  match l with
  | [] => []
  | c :: r => if bool_decide (c ∈ chars) then lstrip_list chars r else c :: r
  end.

Definition strip (chars s : string) : string :=
  let cs := String.list_ascii_of_string chars in
  String.string_of_list_ascii
    (rev (lstrip_list cs (rev (lstrip_list cs (String.list_ascii_of_string s))))).

(** ** Atoms, molecules and the bond graph *)

Definition point : Type := Q * Q * Q.
Definition origin : point := (0%Q, 0%Q, 0%Q).

Record atom3D := mk_atom3D { sym : string; xyz : point }.

Definition matrix : Type := list (list nat).
Definition cell : Type := list point.

Record mol3D := mk_mol3D { atoms : list atom3D; graph : matrix }.

Definition no_atom : atom3D := mk_atom3D "" origin.

Definition natoms (m : mol3D) : nat := length (atoms m).
Definition getAtom (m : mol3D) (i : nat) : atom3D := nth i (atoms m) no_atom.
Definition addAtom (m : mol3D) (a : atom3D) : mol3D :=
  mk_mol3D (atoms m ++ [a]) (graph m).
Definition set_graph (m : mol3D) (g : matrix) : mol3D := mk_mol3D (atoms m) g.
Definition symbol (a : atom3D) : string := sym a.
Definition coords (a : atom3D) : point := xyz a.
Definition setcoords (a : atom3D) (p : point) : atom3D := mk_atom3D (sym a) p.

Definition entry (g : matrix) (i j : nat) : nat := nth j (nth i g []) 0.

(** Column indices of the non-zero entries of a row, ascending:
    [np.nonzero(row)]. *)
Fixpoint nonzero_from (j : nat) (row : list nat) : list nat :=
  match row with
  | [] => []
  | x :: r => if (x =? 0) then nonzero_from (S j) r else j :: nonzero_from (S j) r
  end.

Definition nonzero_row (row : list nat) : list nat := nonzero_from 0 row.

Definition bonded (g : matrix) (i : nat) : list nat := nonzero_row (nth i g []).

(** [g[np.ix_(idx, idx)]] *)
Definition ix_ (g : matrix) (idx : list nat) : matrix :=
  (fun i => (fun j => entry g i j) <$> idx) <$> idx.

(** The pairs [(row, col)] of the non-zero entries, row by row:
    the rows and columns of [csg.nonzero()] zipped. *)
Definition nonzero_pairs (g : matrix) : list (nat * nat) :=
  concat (imap (fun i row => (fun j => (i, j)) <$> nonzero_row row) g).

(** A structure is well formed when the graph is square over its atoms. *)
Definition wf_mol (m : mol3D) : Prop :=
  length (graph m) = natoms m /\
  Forall (fun row => length row = natoms m) (graph m).

(** [mol3D.getBondedAtoms] and [mol3D.getBondedAtomsSmart] are not in the
    files at hand.  Modelled from the spec: the bonded neighbours of an atom
    are the atoms its row of the adjacency matrix marks. *)
Definition getBondedAtoms (m : mol3D) (i : nat) : list nat := bonded (graph m) i.
Definition getBondedAtomsSmart (m : mol3D) (i : nat) : list nat := bonded (graph m) i.

(** ** The file system *)

Inductive event :=
| Mkdir (p : string)
| Append (p : string) (text : string)
| WriteXYZandGraph (p : pypath) (labels : list string) (c : cell)
    (fcoords : list point) (g : matrix)
| WriteGraph (xyzname : string) (labels : list string) (g : matrix)
| WriteXYZ (xyzname : string) (m : mol3D) (header : string).

Record FS := mk_FS {
  fs_dirs : gset string;
  fs_files : gset string;
  trace : list event }.

Definition emit (e : event) (fs : FS) : FS :=
  mk_FS (fs_dirs fs) (fs_files fs) (trace fs ++ [e]).

Definition makes_dir (p : string) (e : event) : bool :=
  match e with
  | Mkdir q => String.eqb p q
  | _ => false
  end.

Definition makes_file (p : string) (e : event) : bool :=
  match e with
  | Append q _ => String.eqb p q
  | WriteXYZ q _ _ => String.eqb p q
  | WriteXYZandGraph (PStr q) _ _ _ _ => String.eqb p q
  | _ => false
  end.

Definition isdir (p : string) (fs : FS) : bool :=
  bool_decide (p ∈ fs_dirs fs) || existsb (makes_dir p) (trace fs).

(** [os.path.exists] *)
Definition path_exists (p : string) (fs : FS) : bool :=
  bool_decide (p ∈ fs_dirs fs) || bool_decide (p ∈ fs_files fs) ||
  existsb (makes_dir p) (trace fs) || existsb (makes_file p) (trace fs).

(** [write2file(pt, fn, st)] of PBC_functions is not in the files at hand.
    Modelled from the spec: the text is appended to the file [pt + fn] (the
    logs and audit files are append-only). *)
Definition write2file (pt fn st : string) (fs : FS) : FS :=
  emit (Append (pt +:+ fn) st) fs.

(** How a function ends: it returns a value or raises. *)
Inductive outcome :=
| Returned (v : pyval)
| Raised (e : exn).

(** The state of a loop body that may [return] or raise out of its function;
    both carry the file system as it is at that point. *)
Inductive control (S : Type) :=
| Continue (s : S)
| Return (v : pyval) (fs : FS)
| Throw (e : exn) (fs : FS).
Arguments Continue {S} s.
Arguments Return {S} v fs.
Arguments Throw {S} e fs.

Fixpoint for_each {A S} (body : S -> A -> control S) (s : S) (l : list A)
    : control S :=
  match l with
  | [] => Continue s
  | x :: r =>
      match body s x with
      | Continue s' => for_each body s' r
      | c => c
      end
  end.

(** [enumerate(l)] *)
Definition enumerate {A} (l : list A) : list (nat * A) := imap (fun i x => (i, x)) l.

(** A fragment file is an [.xyz] of a fragment or its adjacency. *)
Definition is_fragment_write (e : event) : bool :=
  match e with
  | WriteGraph _ _ _ => true
  | WriteXYZ _ _ _ => true
  | _ => false
  end.

(** ** Code this file calls and does not define

    The functions below live in modules that are not among the files at hand
    (PBC_functions, the mol3D and atom3D classes) or in third-party
    libraries (networkx, scipy).  They are taken as parameters; nothing is
    assumed about them beyond their types. *)

(** Integer lattice offsets of periodic images. *)
Definition offset : Type := Z * Z * Z.

Class Mol3DLib := {
  (** is the element with this symbol a metal (atom3D.ismetal, the table
      behind mol3D.findMetal) *)
  metal_symbol : string -> bool;
  (** mol3D.BCM(idx1, idx2, d): move atom idx1 along its bond to idx2 *)
  BCM : mol3D -> nat -> nat -> Q -> mol3D
}.

Class PBCLib := {
  get_closed_subgraph : gset nat -> gset nat -> matrix -> list (list nat) * list matrix;
  include_extra_shells :
    list (list nat) -> list matrix -> mol3D -> matrix -> list (list nat) * list matrix;
  linker_length : matrix -> list nat -> Z * Z;
  ligand_detect : cell -> list point -> matrix -> list nat -> list offset;
  slice_mat : matrix -> list nat -> matrix;
  XYZ_connected : cell -> list point -> matrix -> list point;
  (** the coordinate list returnXYZandGraph hands back *)
  returnXYZandGraph : list string -> cell -> list point -> matrix -> list point;
  readcif : string -> list Q * list string * list point;
  mkcell : list Q -> cell;
  fractional2cart : list point -> cell -> list point;
  compute_distance_matrix2 : cell -> list point -> list (list Q);
  (** [None] stands for the NotImplementedError raised on atomic overlap *)
  compute_adj_matrix : list (list Q) -> list string -> option matrix;
  import_from_cif : string -> mol3D
}.

Class GraphLib := {
  (** nx.shortest_path; [None] when networkx raises *)
  shortest_path : matrix -> nat -> nat -> option (list nat);
  minimum_cycle_basis : matrix -> list (list nat);
  (** scipy's connected_components: the count and a label per node *)
  connected_components : matrix -> nat * list nat
}.

(** How many nested calls of [branch] the interpreter still allows. *)
Class Runtime := { recursion_limit : nat }.

(** ** Small helpers *)

Definition set_of (l : list nat) : gset nat := list_to_set l.

Definition inb (x : nat) (l : list nat) : bool := bool_decide (x ∈ l).

(** [itertools.combinations(l, 2)] *)
Fixpoint combinations2 {A} (l : list A) : list (A * A) :=
  match l with
  | [] => []
  | x :: r => ((fun y => (x, y)) <$> r) ++ combinations2 r
  end.

(** [list.remove(x)]: drops the first element equal to [x]. *)
Fixpoint remove_first (x : list nat) (l : list (list nat)) : list (list nat) :=
  match l with
  | [] => []
  | y :: r => if bool_decide (x = y) then r else y :: remove_first x r
  end.

(** [len(np.unique(a, axis=0))] *)
Definition n_unique (a : list offset) : nat := length (remove_dups a).

Definition list_min (l : list nat) : res nat :=
  match l with
  | [] => Raise ValueError
  | x :: r => Ok (foldl Nat.min x r)
  end.

Definition list_max (l : list nat) : res nat :=
  match l with
  | [] => Raise ValueError
  | x :: r => Ok (foldl Nat.max x r)
  end.

(** ** periodic_checker *)

Definition sqdist (a b : point) : Q :=
  let '(ax, ay, az) := a in
  let '(bx, by_, bz) := b in
  ((ax - bx) * (ax - bx) + (ay - by_) * (ay - by_) + (az - bz) * (az - bz))%Q.

Definition Qgtb (a b : Q) : bool := negb (Qle_bool a b).

(** The largest squared bonded distance: [maxdist] of the source, squared. *)
Definition maxdist2 (graph : matrix) (coords : list point) : Q :=
  foldl (fun maxd '(row1, row2) =>
           let d := sqdist (nth row1 coords origin) (nth row2 coords origin) in
           if Qgtb d maxd then d else maxd)
        0%Q (nonzero_pairs graph).

(** [dist > 4] is [dist^2 > 16] for the non-negative [dist]. *)
Definition periodic_checker (graph : matrix) (coords : list point)
    (atoms : list string) : bool :=
  Qgtb (maxdist2 graph coords) 16%Q.

Definition union_of (ls : list (list nat)) : gset nat := ⋃ (set_of <$> ls).

(** No atom lies in two of the sets. *)
Fixpoint pairwise_disjoint (sets : list (gset nat)) : Prop :=
  match sets with
  | [] => True
  | A :: r => Forall (fun B => A ## B) r /\ pairwise_disjoint r
  end.

(** The sets are pairwise disjoint and together make up [U]. *)
Definition partition_of (U : gset nat) (sets : list (gset nat)) : Prop :=
  pairwise_disjoint sets /\ ⋃ sets = U.

#[global] Instance pairwise_disjoint_dec (sets : list (gset nat)) :
  Decision (pairwise_disjoint sets).
Proof. induction sets as [|A r IH]; simpl; apply _. Defined.

#[global] Instance partition_of_dec (U : gset nat) (sets : list (gset nat)) :
  Decision (partition_of U sets).
Proof. unfold partition_of. apply _. Defined.

(** [fs'] is [fs] after some more writes, none of them a fragment file. *)
Definition quiet (fs fs' : FS) : Prop :=
  exists evs, trace fs' = trace fs ++ evs /\
              Forall (fun e => is_fragment_write e = false) evs.

Section Code.
Context {ML : Mol3DLib} {PL : PBCLib} {GL : GraphLib} {RT : Runtime}.

Definition ismetal (a : atom3D) : bool := metal_symbol (sym a).

(** Modelled from the spec: mol3D.findMetal is not in the files at hand; the
    metal set is the set of indices of the atoms that are metals. *)
Definition findMetal (m : mol3D) : list nat :=
  filter (fun i => ismetal (getAtom m i) = true) (seq 0 (natoms m)).

(** ** branch *)

Definition branch_hit (molcif : mol3D) (main_paths atoms_in_sbu : list nat)
    (atom : nat) : bool :=
  bool_decide (0 < size (set_of (getBondedAtoms molcif atom) ∖ set_of main_paths
                           ∖ set_of atoms_in_sbu)).

Definition branch_grow (molcif : mol3D) (main_paths : list nat) (atom : nat)
    : list nat :=
  elements (set_of (getBondedAtoms molcif atom) ∖ set_of main_paths).

(** The [for] loop of [branch] once [new_atoms] names a fresh list: the list
    being iterated no longer changes. *)
Fixpoint branch_rest (molcif : mol3D) (main_paths todo new_atoms atoms_in_sbu : list nat)
    : list nat * list nat :=
  match todo with
  | [] => (new_atoms, atoms_in_sbu)
  | atom :: todo' =>
      if branch_hit molcif main_paths atoms_in_sbu atom then
        let new_atoms' :=
          elements (set_of (new_atoms ++ branch_grow molcif main_paths atom)) in
        branch_rest molcif main_paths todo' new_atoms' (atoms_in_sbu ++ new_atoms')
      else branch_rest molcif main_paths todo' new_atoms atoms_in_sbu
  end.

(** The [for] loop of [branch] while [new_atoms] still names the list being
    iterated: the first [+=] grows that very list, so the loop also visits
    the atoms appended to it.  [None]: the condition never held.  Otherwise
    the final content of the iterated list, [new_atoms] and [atoms_in_sbu]. *)
Fixpoint branch_first (molcif : mol3D) (main_paths seen todo atoms_in_sbu : list nat)
    : option (list nat * list nat * list nat) :=
  match todo with
  | [] => None
  | atom :: todo' =>
      if branch_hit molcif main_paths atoms_in_sbu atom then
        let more := branch_grow molcif main_paths atom in
        let grown := seen ++ atom :: todo' ++ more in
        let new_atoms := elements (set_of grown) in
        let '(n, a) := branch_rest molcif main_paths (todo' ++ more) new_atoms
                                   (atoms_in_sbu ++ new_atoms) in
        Some (grown, n, a)
      else branch_first molcif main_paths (seen ++ [atom]) todo' atoms_in_sbu
  end.

(** [branch(molcif, main_paths, atoms_in_sbu, new_atoms)].  The result is the
    final content of the list passed as [new_atoms] (the callee grows it in
    place), and the two lists returned. *)
Fixpoint branch (depth : nat) (molcif : mol3D) (main_paths atoms_in_sbu new_atoms : list nat)
    : res (list nat * list nat * list nat) :=
  match depth with
  | 0 => Raise RecursionError
  | S d =>
      match branch_first molcif main_paths [] new_atoms atoms_in_sbu with
      | None => Ok (new_atoms, new_atoms, atoms_in_sbu)
      | Some (grown, n, a) =>
          if length atoms_in_sbu =? length a then Ok (grown, n, a)
          else
            '(n_final, branch_atoms, branch_atoms_in_sbu) ← branch d molcif main_paths a n;
            Ok (grown, n_final ++ branch_atoms,
                branch_atoms_in_sbu ++ branch_atoms_in_sbu)
      end
  end.

(** ** identify_main_chain *)

(** One pass of the [for] loop over [min_cycles]. *)
Fixpoint main_chain_pass (min_cycles : list (list nat))
    (paths paths_copy : list nat) (min_cycles_copy : list (list nat))
    : list nat * list nat * list (list nat) :=
  match min_cycles with
  | [] => (paths, paths_copy, min_cycles_copy)
  | i :: r =>
      let paths := paths_copy in
      if bool_decide (set_of paths ∩ set_of i ≠ ∅) &&
         negb (bool_decide (set_of i ⊆ set_of paths))
      then main_chain_pass r paths (paths_copy ++ elements (set_of i))
                           (remove_first i min_cycles_copy)
      else main_chain_pass r paths paths_copy min_cycles_copy
  end.

(** The [while] loop: it goes on as long as the last pass dropped a cycle
    from [min_cycles_copy]. *)
Fixpoint main_chain_loop (fuel : nat) (min_cycles : list (list nat))
    (paths paths_copy : list nat) (min_cycles_copy min_cycles_copy_2 : list (list nat))
    : list nat :=
  match fuel with
  | 0 => paths
  | S fuel' =>
      if length min_cycles_copy =? length min_cycles_copy_2 then paths
      else
        let '(paths', paths_copy', min_cycles_copy') :=
          main_chain_pass min_cycles paths paths_copy min_cycles_copy in
        main_chain_loop fuel' min_cycles paths' paths_copy' min_cycles_copy' min_cycles_copy
  end.

Definition identify_main_chain (temp_mol : mol3D) (link_list : list nat)
    : res (list nat * nat * nat) :=
  let G := graph temp_mol in
  if length link_list =? 1 then Ok (seq 0 (length G), 1, 1)
  else
    let pairs := combinations2 link_list in
    shorts ← mapM (fun '(a, b) =>
                     match shortest_path G a b with
                     | Some short => Ok short
                     | None => Raise NetworkXNoPath
                     end) pairs;
    shortest ← list_min (length <$> shorts);
    longest ← list_max (length <$> shorts);
    let paths := concat shorts in
    let min_cycles := minimum_cycle_basis G in
    let main := main_chain_loop (S (S (length min_cycles))) min_cycles
                                paths paths min_cycles [] in
    Ok (main, shortest, longest).

(** ** get_molcif_cycles_no_metal *)

Definition get_molcif_cycles_no_metal (molcif : mol3D)
    : list (list nat) * list nat :=
  let cycles := minimum_cycle_basis (graph molcif) in
  let subcycle_list :=
    filter (fun cycle => existsb (fun element => ismetal (getAtom molcif element)) cycle = false)
           cycles in
  (subcycle_list, concat subcycle_list).


(** ** breakdown_MOF: the pieces of one SBU *)

(** A molecule under construction with its bookkeeping: [SBU_mol],
    [SBU_dict] (local index to index in molcif) and [SBU_added]. *)
Record fragment := mk_fragment {
  f_mol : mol3D;
  f_dict : gmap nat nat;
  f_added : list nat }.

Definition empty_fragment : fragment := mk_fragment (mk_mol3D [] []) ∅ [].

(** [mol.addAtom(a); dict[mol.natoms-1] = v; added.append(v)] *)
Definition frag_add (f : fragment) (a : atom3D) (v : nat) : fragment :=
  let m := addAtom (f_mol f) a in
  mk_fragment m (<[natoms m - 1 := v]> (f_dict f)) (f_added f ++ [v]).

(** The same under the guard [if v not in added]. *)
Definition frag_add_new (molcif : mol3D) (f : fragment) (v : nat) : fragment :=
  if inb v (f_added f) then f else frag_add f (getAtom molcif v) v.

(** Lines 130-158: one linker seen from an SBU.  Gives the main chain in
    molcif indices and the longest anchor-to-anchor path.  (The call of
    linker_length there only fills a dictionary nobody reads.) *)
Definition scan_linker (molcif : mol3D) (anchoring_atoms : gset nat)
    (subgraph : matrix) (linker : list nat) : res (list nat * nat) :=
  let link_list :=
    (fst <$> filter (fun '(jj, val2) => val2 ∈ anchoring_atoms) (enumerate linker)) in
  let linker_mol := mk_mol3D (getAtom molcif <$> remove_dups linker) subgraph in
  '(main, shortest, longest) ← identify_main_chain linker_mol link_list;
  main ← mapM (fun val => match linker !! val with
                          | Some v => Ok v
                          | None => Raise KeyError
                          end) main;
  Ok (main, longest).

Fixpoint scan_linkers (molcif : mol3D) (anchoring_atoms : gset nat)
    (connections : list (nat * list nat)) (connections_subgraphlist : list matrix)
    (main_paths : list nat) (current_longest : nat) : res (list nat * nat) :=
  match connections with
  | [] => Ok (main_paths, current_longest)
  | (j, linker) :: r =>
      '(main, longest) ← scan_linker molcif anchoring_atoms
                           (nth j connections_subgraphlist []) linker;
      scan_linkers molcif anchoring_atoms r connections_subgraphlist
        (main_paths ++ main)
        (if current_longest <? longest then longest else current_longest)
  end.

(** Lines 193-206: a ring through [val] is pulled in whole; the atoms bonded
    to it from outside are remembered. *)
Definition cycle_step (molcif : mol3D) (val : nat)
    (st : fragment * list (list nat)) (cycle : list nat)
    : fragment * list (list nat) :=
  if inb val cycle then
    let '(f, temp_bonded_list) :=
      foldl (fun '(f, tbl) cycle_val =>
               let temp_bonded :=
                 elements (set_of (getBondedAtoms molcif cycle_val) ∖ set_of cycle) in
               (frag_add_new molcif f cycle_val, tbl ++ temp_bonded))
            (st.1, []) cycle in
    (f, st.2 ++ [temp_bonded_list])
  else st.

(** Lines 180-213: the body of [for val in SBU]. *)
Definition seed_step (molcif : mol3D) (main_paths : list nat)
    (subcycle_list : list (list nat))
    (st : fragment * list (list nat)) (val : nat)
    : res (fragment * list (list nat)) :=
  let f := frag_add_new molcif st.1 val in
  let in_cycles := existsb (inb val) subcycle_list in
  let st := if in_cycles then foldl (cycle_step molcif val) (f, st.2) subcycle_list
            else (f, st.2) in
  '(_, additional_branched_atoms, _) ←
     branch recursion_limit molcif main_paths (f_added st.1) [val];
  Ok (foldl (frag_add_new molcif) st.1 additional_branched_atoms, st.2).

Fixpoint seed_loop (molcif : mol3D) (main_paths : list nat)
    (subcycle_list : list (list nat))
    (st : fragment * list (list nat)) (SBU : list nat)
    : res (fragment * list (list nat)) :=
  match SBU with
  | [] => Ok st
  | val :: r =>
      st' ← seed_step molcif main_paths subcycle_list st val;
      seed_loop molcif main_paths subcycle_list st' r
  end.

(** [set.intersection] of the sets of several lists. *)
Definition intersect_all (ls : list (list nat)) : gset nat :=
  match ls with
  | [] => ∅
  | l :: r => foldl (fun acc l' => acc ∩ set_of l') (set_of l) r
  end.

(** Lines 214-235: atoms bonded to two rings at once are pulled in. *)
Definition merge_shared (molcif : mol3D) (flat_subcycle_list : list nat)
    (f : fragment) (bonded_atoms_to_cycle : list (list nat)) : fragment :=
  if 1 <? length bonded_atoms_to_cycle then
    let new_bonded_atoms_to_cycle :=
      (fun b => elements (set_of b ∖ set_of flat_subcycle_list))
        <$> bonded_atoms_to_cycle in
    let f1 :=
      foldl (fun f '(c0, c1) =>
               if bool_decide (c0 = c1) then f
               else foldl (frag_add_new molcif) f (elements (set_of c0 ∩ set_of c1)))
            f (combinations2 new_bonded_atoms_to_cycle) in
    foldl (frag_add_new molcif) f1 (elements (intersect_all bonded_atoms_to_cycle))
  else f.

(** A capping candidate: the placeholder atom, the atom of molcif it
    replaces, and the atom of the fragment it is bonded to. *)
Definition X_record : Type := atom3D * nat * nat.

(** Lines 238-249: hydrogens are pulled in; a neighbour on the main path
    that is not in the fragment becomes a placeholder "X" at its position. *)
Definition cap_step (molcif : mol3D) (main_paths : list nat) (SBU_added_atoms : nat)
    (st : fragment * list X_record * list nat) (bonded_atom : nat)
    : fragment * list X_record * list nat :=
  let '(f, X_atom3D_list, X_checked_list) := st in
  let f := if String.eqb (symbol (getAtom molcif bonded_atom)) "H"
           then frag_add_new molcif f bonded_atom else f in
  if inb bonded_atom main_paths &&
     negb (inb bonded_atom (f_added f) || inb bonded_atom X_checked_list)
  then
    let temp_atom := getAtom molcif bonded_atom in
    let new_atom := mk_atom3D "X" (coords temp_atom) in
    (f, X_atom3D_list ++ [(new_atom, bonded_atom, SBU_added_atoms)],
     X_checked_list ++ [bonded_atom])
  else (f, X_atom3D_list, X_checked_list).

(** Lines 236-249, over a copy of [SBU_added]. *)
Definition cap_scan (molcif : mol3D) (main_paths : list nat) (f : fragment)
    : fragment * list X_record * list nat :=
  foldl (fun st SBU_added_atoms =>
           foldl (cap_step molcif main_paths SBU_added_atoms) st
                 (getBondedAtoms molcif SBU_added_atoms))
        (f, [], []) (f_added f).

(** A fragment with its capping bookkeeping: [tuple_list_sbu],
    [final_X_indices] and [atoms_that_are_X]. *)
Record capped := mk_capped {
  c_frag : fragment;
  c_tuple_list : list (nat * nat);
  c_final_X_indices : list nat;
  c_atoms_that_are_X : list nat }.

(** Lines 252-261 (and 337-346): the body of the loop that appends the
    placeholders. *)
Definition place_X (st : capped) (X_atom : X_record) : capped :=
  let '(new_atom, replaced, anchor) := X_atom in
  if inb replaced (f_added (c_frag st)) then st
  else
    let f := frag_add (c_frag st) new_atom replaced in
    let k := natoms (f_mol f) - 1 in
    mk_capped f (c_tuple_list st ++ [(k, anchor)])
              (c_final_X_indices st ++ [k])
              (c_atoms_that_are_X st ++ [replaced]).

Definition place_all_X (f : fragment) (X_atom3D_list : list X_record) : capped :=
  foldl place_X (mk_capped f [] [] []) X_atom3D_list.

(** A capping record whose placeholder is an "X" at the position of the
    atom of molcif it replaces. *)
Definition good_record (molcif : mol3D) (x : X_record) : Prop :=
  x.1.1 = mk_atom3D "X" (coords (getAtom molcif x.1.2)).

(** What [place_X] keeps true: the placeholders are the atoms from index
    [n0] on, each an "X" at the position of the atom its dictionary entry
    names. *)
Definition placed (molcif : mol3D) (n0 : nat) (st : capped) : Prop :=
  n0 <= natoms (f_mol (c_frag st)) /\
  c_final_X_indices st = seq n0 (natoms (f_mol (c_frag st)) - n0) /\
  forall k, n0 <= k < natoms (f_mol (c_frag st)) ->
    exists replaced,
      f_dict (c_frag st) !! k = Some replaced /\
      atoms (f_mol (c_frag st)) !! k =
        Some (mk_atom3D "X" (coords (getAtom molcif replaced))).

(** Lines 163-261: the atoms of one SBU fragment. *)
Definition assemble_SBU (molcif : mol3D) (main_paths : list nat)
    (subcycle_list : list (list nat)) (flat_subcycle_list : list nat)
    (SBU : list nat) : res capped :=
  '(f, bonded_atoms_to_cycle) ←
     seed_loop molcif main_paths subcycle_list (empty_fragment, []) SBU;
  let f := merge_shared molcif flat_subcycle_list f bonded_atoms_to_cycle in
  let '(f, X_atom3D_list, _) := cap_scan molcif main_paths f in
  Ok (place_all_X f X_atom3D_list).

(** ** breakdown_MOF: regenerating coordinates and writing *)

(** [{v: k for k, v in d.items()}] for a dictionary filled at the keys
    0, 1, ... in that order. *)
Definition inv_dict (d : gmap nat nat) (n : nat) : gmap nat nat :=
  foldl (fun acc k => match d !! k with
                      | Some v => <[v := k]> acc
                      | None => acc
                      end) ∅ (seq 0 n).

(** What lines 264-278 (and 348-367) compute for a fragment. *)
Record rebuilt := mk_rebuilt {
  r_mol : mol3D;
  r_labels : list string;
  r_fcoords_connected : list point;
  r_adj_mat : matrix;
  r_coord_list : list point }.

(** [r_coord_list] holds the regenerated coordinates before the capping
    bonds are shortened; [r_mol] holds the atoms after [BCM] ran on every
    capping bond.  The anchor of a capping record is an atom of the
    fragment, so the lookup in the inverted dictionary finds it. *)
Definition regenerate (cell_v : cell) (c : capped) (tempgraph : matrix) : rebuilt :=
  let mol := set_graph (f_mol (c_frag c)) tempgraph in
  let cart_coords := coords <$> atoms mol in
  let atom_labels := sym <$> atoms mol in
  let adj_mat := graph mol in
  let fcoords_connected := XYZ_connected cell_v cart_coords adj_mat in
  let coord_list := returnXYZandGraph atom_labels cell_v fcoords_connected adj_mat in
  let mol := mk_mol3D (imap (fun r a => setcoords a (nth r coord_list origin)) (atoms mol))
                      (graph mol) in
  let inv := inv_dict (f_dict (c_frag c)) (natoms mol) in
  let mol := foldl (fun m '(k, anchor) => BCM m k (default 0 (inv !! anchor)) (3 # 4)%Q)
                   mol (c_tuple_list c) in
  mk_rebuilt mol atom_labels fcoords_connected adj_mat coord_list.

(** The coordinates read back from the molecule (line 277); the source goes
    through the text of [mol.coords()]. *)
Definition new_coords (r : rebuilt) : list point := coords <$> atoms (r_mol r).

Definition X_string (final_X_indices : list nat) : string :=
  if 0 <? length final_X_indices then join "   " (pretty <$> final_X_indices)
  else "   ".

(** The variables of [breakdown_MOF] that live across its loops: the file
    system, the local [xyzname] (unbound until first assigned) and
    [all_SBU_atoms]. *)
Record frame := mk_frame {
  st_fs : FS;
  st_xyzname : option string;
  st_all_SBU_atoms : list nat }.

(** The name under which SBU [i] is to be written, when line 282 lets the
    assignment run. *)
Definition sbu_xyzname (sbupath : pypath) (name : string) (i : nat)
    (is_periodic : bool) : string :=
  if is_periodic
  then path_str sbupath +:+ "/" +:+ name +:+ "_sbu1Drod_" +:+ pretty i +:+ ".xyz"
  else path_str sbupath +:+ "/" +:+ name +:+ "_sbu_" +:+ pretty i +:+ ".xyz".

Definition sbu_guard (sbupath : pypath) (name : string) (i : nat) (fs : FS) : bool :=
  truthy sbupath &&
  negb (path_exists (path_str sbupath +:+ "/" +:+ name +:+ pretty i +:+ ".xyz") fs).

(** Lines 281-297. *)
Definition write_SBU (sbupath : pypath) (name : string) (i : nat)
    (c : capped) (r : rebuilt) (is_periodic : bool) (st : frame) : control frame :=
  let xyzname :=
    if sbu_guard sbupath name i (st_fs st)
    then Some (sbu_xyzname sbupath name i is_periodic)
    else st_xyzname st in
  let X_string := X_string (c_final_X_indices c) in
  match xyzname with
  | None => Throw NameError (st_fs st)
  | Some xyzname =>
      let fs := emit (WriteGraph xyzname (r_labels r) (r_adj_mat r)) (st_fs st) in
      let fs := emit (WriteXYZ xyzname (r_mol r) ("   " +:+ X_string)) fs in
      if contains "1Drod" xyzname then Return (PyInt 4) fs
      else Continue (mk_frame fs (Some xyzname)
                              (st_all_SBU_atoms st ++ f_added (c_frag c)))
  end.

(** Lines 125-297: the body of [for i, SBU in enumerate(SBUlist)]. *)
Definition SBU_body (molcif : mol3D) (name : string) (cell_v : cell)
    (anchoring_atoms : gset nat) (sbupath : pypath)
    (connections_list : list (list nat)) (connections_subgraphlist : list matrix)
    (subcycle_list : list (list nat)) (flat_subcycle_list : list nat)
    (st : frame) (iSBU : nat * list nat) : control frame :=
  let '(i, SBU) := iSBU in
  match scan_linkers molcif anchoring_atoms (enumerate connections_list)
                     connections_subgraphlist [] 0 with
  | Raise e => Throw e (st_fs st)
  | Ok (main_paths, current_longest) =>
      if current_longest <=? 2 then Return (PyInt 2) (st_fs st)
      else
        let main_paths := elements (set_of main_paths) in
        match assemble_SBU molcif main_paths subcycle_list flat_subcycle_list SBU with
        | Raise e => Throw e (st_fs st)
        | Ok c =>
            let tempgraph := ix_ (graph molcif) (f_added (c_frag c)) in
            let r := regenerate cell_v c tempgraph in
            let is_periodic := periodic_checker tempgraph (new_coords r) (r_labels r) in
            write_SBU sbupath name i c r is_periodic st
        end
  end.

(** ** breakdown_MOF: the linkers *)

(** Lines 329-335.  [X_checked_list_linker] is never filled (line 335
    appends to the list of the SBU loop instead), so its test never fires. *)
Definition linker_sub_step (molcif : mol3D) (atoms_to_be_deleted_from_linker : list nat)
    (bonded_atom : nat) (st : fragment * list X_record) (subatom : nat)
    : fragment * list X_record :=
  let X_checked_list_linker : list nat := [] in
  if inb subatom atoms_to_be_deleted_from_linker &&
     negb (inb subatom (f_added st.1) || inb subatom X_checked_list_linker)
  then
    let temp_atom_linker := getAtom molcif subatom in
    let new_atom_linker := mk_atom3D "X" (coords temp_atom_linker) in
    (st.1, st.2 ++ [(new_atom_linker, subatom, bonded_atom)])
  else st.

(** Lines 322-335. *)
Definition linker_bond_step (molcif : mol3D)
    (all_SBU_atoms atoms_to_be_deleted_from_linker : list nat)
    (st : fragment * list X_record) (bonded_atom : nat)
    : fragment * list X_record :=
  if inb bonded_atom all_SBU_atoms && negb (inb bonded_atom (f_added st.1)) then
    let f := frag_add st.1 (getAtom molcif bonded_atom) bonded_atom in
    foldl (linker_sub_step molcif atoms_to_be_deleted_from_linker bonded_atom)
          (f, st.2) (getBondedAtoms molcif bonded_atom)
  else st.

(** Lines 312-335: the body of [for val in linker.copy()]. *)
Definition linker_atom_step (molcif : mol3D)
    (all_SBU_atoms atoms_to_be_deleted_from_linker : list nat)
    (st : fragment * list X_record) (val : nat)
    : fragment * list X_record :=
  if negb (inb val atoms_to_be_deleted_from_linker) then
    let f := frag_add st.1 (getAtom molcif val) val in
    foldl (linker_bond_step molcif all_SBU_atoms atoms_to_be_deleted_from_linker)
          (f, st.2) (getBondedAtoms molcif val)
  else st.

(** Lines 300-346: the atoms of one linker fragment. *)
Definition assemble_linker (molcif : mol3D)
    (all_SBU_atoms atoms_to_be_deleted_from_linker linker : list nat) : capped :=
  let '(f, X_atom3D_list_linker) :=
    foldl (linker_atom_step molcif all_SBU_atoms atoms_to_be_deleted_from_linker)
          (empty_fragment, []) linker in
  place_all_X f X_atom3D_list_linker.

(** Modelled from the spec: mol3D.count_atoms is not in the files at hand.
    The spec counts the atoms of the fragment that are not capping
    placeholders; a placeholder is an atom with the symbol "X". *)
Definition count_atoms (m : mol3D) : nat :=
  length (filter (fun a => sym a ≠ "X") (atoms m)).

(** Lines 349-354: the bond graph over the atoms that are not placeholders
    and the number of its connected components. *)
Definition no_X_components (molcif : mol3D) (c : capped) : nat :=
  let linker_added_no_X :=
    elements (set_of (f_added (c_frag c)) ∖ set_of (c_atoms_that_are_X c)) in
  let no_X_graph_linker := ix_ (graph molcif) linker_added_no_X in
  (connected_components no_X_graph_linker).1.

(** The test of line 360: the fragment is passed over by [continue]. *)
Definition linker_skipped (molcif : mol3D) (c : capped) : bool :=
  let linker_mol := f_mol (c_frag c) in
  let n_components := no_X_components molcif c in
  let heavy_atom_count := count_atoms linker_mol in
  (natoms linker_mol =? 0) || (1 <? n_components) || (heavy_atom_count <? 3).

Definition linker_guard (linkerpath : pypath) (name : string) (i : nat) (fs : FS) : bool :=
  truthy linkerpath &&
  negb (path_exists (path_str linkerpath +:+ "/" +:+ name +:+ pretty i +:+ ".xyz") fs).

Definition linker_xyzname (linkerpath : pypath) (name : string) (i : nat) : string :=
  path_str linkerpath +:+ "/" +:+ name +:+ "_linker_" +:+ pretty i +:+ ".xyz".

(** Lines 299-377: the body of [for i, linker in enumerate(connections_list)]. *)
Definition linker_body (molcif : mol3D) (name : string) (cell_v : cell)
    (linkerpath : pypath) (all_SBU_atoms atoms_to_be_deleted_from_linker : list nat)
    (st : frame) (ilinker : nat * list nat) : frame :=
  let '(i, linker) := ilinker in
  let c := assemble_linker molcif all_SBU_atoms atoms_to_be_deleted_from_linker linker in
  let tempgraph := ix_ (graph molcif) (f_added (c_frag c)) in
  if linker_skipped molcif c then st
  else
    let r := regenerate cell_v c tempgraph in
    if linker_guard linkerpath name i (st_fs st) then
      let xyzname := linker_xyzname linkerpath name i in
      let X_string := X_string (c_final_X_indices c) in
      let fs := emit (WriteGraph xyzname (r_labels r) (r_adj_mat r)) (st_fs st) in
      let fs := emit (WriteXYZ xyzname (r_mol r) ("   " +:+ X_string)) fs in
      mk_frame fs (Some xyzname) (st_all_SBU_atoms st)
    else st.

(** ** breakdown_MOF *)

Definition breakdown_MOF (SBUlist : list (list nat)) (SBU_subgraph : list matrix)
    (molcif : mol3D) (depth : nat) (name : string) (cell_v : cell)
    (anchoring_atoms : gset nat) (sbupath : pypath)
    (connections_list : list (list nat)) (connections_subgraphlist : list matrix)
    (linkerpath : pypath) (fs : FS) : outcome * FS :=
  let '(subcycle_list, flat_subcycle_list) := get_molcif_cycles_no_metal molcif in
  match for_each (SBU_body molcif name cell_v anchoring_atoms sbupath
                           connections_list connections_subgraphlist
                           subcycle_list flat_subcycle_list)
                 (mk_frame fs None []) (enumerate SBUlist) with
  | Return v fs' => (Returned v, fs')
  | Throw e fs' => (Raised e, fs')
  | Continue st =>
      let all_SBU_atoms := st_all_SBU_atoms st in
      let atoms_to_be_deleted_from_linker := elements (set_of all_SBU_atoms) in
      let st' := foldl (linker_body molcif name cell_v linkerpath all_SBU_atoms
                                    atoms_to_be_deleted_from_linker)
                       st (enumerate connections_list) in
      (Returned PyNone, st_fs st')
  end.


(** ** prepare_initial_SBU *)

(** The condition of line 394 on one atom: every bonded neighbour is a
    metal or a hydrogen. *)
Definition only_metal_or_H (molcif : mol3D) (atom : nat) : bool :=
  forallb (fun val => ismetal (getAtom molcif val) ||
                      String.eqb (upper (symbol (getAtom molcif val))) "H")
          (getBondedAtomsSmart molcif atom).

Definition is_H (molcif : mol3D) (val : nat) : bool :=
  String.eqb (upper (symbol (getAtom molcif val))) "H".

(** The line written to the log for one metal (lines 388-393). *)
Definition coordination_line (molcif : mol3D) (allatomtypes : list string)
    (metal : nat) : string :=
  let bonded_atoms : gset nat := set_of (getBondedAtomsSmart molcif metal) in
  let bonded_atoms_types : gset string :=
    list_to_set ((fun at_ => nth at_ allatomtypes "") <$> elements bonded_atoms) in
  let cn := size bonded_atoms in
  let cn_atom := join "," (elements bonded_atoms_types) in
  "atom " +:+ pretty metal +:+ " with type of " +:+ nth metal allatomtypes "" +:+
  " found to have " +:+ pretty cn +:+ " coordinates with atom types of " +:+
  cn_atom +:+ nl.

Definition prepare_initial_SBU (molcif : mol3D) (allatomtypes : list string)
    (metal_list : gset nat) (logpath name : string) (fs : FS)
    : (mol3D * gset nat * gset nat) * FS :=
  let metals := findMetal molcif in
  let SBUlist : gset nat := foldl (fun acc metal => acc ∪ {[metal]}) ∅ metals in
  let SBUlist :=
    foldl (fun acc metal => acc ∪ set_of (getBondedAtomsSmart molcif metal))
          SBUlist metals in
  let removelist : gset nat := foldl (fun acc metal => acc ∪ {[metal]}) ∅ metals in
  let fs :=
    foldl (fun fs metal =>
             write2file logpath ("/" +:+ name +:+ ".log")
                        (coordination_line molcif allatomtypes metal) fs)
          fs (elements removelist) in
  let removelist :=
    foldl (fun acc atom => if only_metal_or_H molcif atom then acc ∪ {[atom]} else acc)
          removelist (elements SBUlist) in
  let removelist :=
    foldl (fun acc atom =>
             foldl (fun acc val => if is_H molcif val then acc ∪ {[val]} else acc)
                   acc (getBondedAtomsSmart molcif atom))
          removelist (elements SBUlist) in
  ((molcif, removelist, SBUlist), fs).

(** ** identify_lc_atoms *)

Record lc_atoms := mk_lc_atoms {
  anc_atoms : gset nat;
  linkers : gset nat;
  linker_list : list (list nat);
  linker_subgraphlist : list matrix;
  allatoms : gset nat;
  connections_list : list (list nat);
  connections_subgraphlist : list matrix }.

Definition identify_lc_atoms (molcif : mol3D) (removelist metal_list : gset nat)
    : lc_atoms :=
  let allatoms : gset nat := set_of (seq 0 (length (graph molcif))) in
  let linkers := allatoms ∖ removelist in
  let '(linker_list, linker_subgraphlist) :=
    get_closed_subgraph linkers removelist (graph molcif) in
  let anc_atoms : gset nat :=
    foldl (fun acc linker =>
             foldl (fun acc atom_linker =>
                      let bonded2atom := bonded (graph molcif) atom_linker in
                      if bool_decide (set_of bonded2atom ∩ metal_list ≠ ∅)
                      then acc ∪ {[atom_linker]} else acc)
                   acc linker)
          ∅ linker_list in
  mk_lc_atoms anc_atoms linkers linker_list linker_subgraphlist allatoms
              linker_list linker_subgraphlist.

(** ** identify_short_linkers *)

(** The four sets lines 433-450 fill for one candidate fragment. *)
Record anchors := mk_anchors {
  linkeranchors_list : gset nat;
  linkeranchors_atoms : gset nat;
  sbuanchors_list : gset nat;
  sbu_connect_list : gset nat }.

Definition find_anchors (adj_matrix : matrix) (initial_SBU_list : list (list nat))
    (atoms_list : list nat) : anchors :=
  foldl (fun acc '(iii, atoms) =>
    let connected_atoms := bonded adj_matrix atoms in
    foldl (fun acc '(kk, sbu_atoms_list) =>
      foldl (fun acc sbu_atoms =>
               if inb sbu_atoms connected_atoms then
                 mk_anchors (linkeranchors_list acc ∪ {[iii]})
                            (linkeranchors_atoms acc ∪ {[atoms]})
                            (sbuanchors_list acc ∪ {[sbu_atoms]})
                            (sbu_connect_list acc ∪ {[kk]})
               else acc)
            acc sbu_atoms_list)
      acc (enumerate initial_SBU_list))
    (mk_anchors ∅ ∅ ∅ ∅) (enumerate atoms_list).

(** What the loop of [identify_short_linkers] changes: the two sets and the
    two lists it was handed (it updates them in place), the two running
    lengths, and the file system. *)
Record classifier := mk_classifier {
  cl_removelist : gset nat;
  cl_SBUlist : gset nat;
  cl_linker_list : list (list nat);
  cl_linker_subgraphlist : list matrix;
  max_min_linker_length : Z;
  min_max_linker_length : Z;
  cl_fs : FS }.

(** The verdict of lines 453-498 on one fragment. *)
Inductive verdict := Linker | AmbiguousLinker | AmbiguousLigand | DefiniteLigand.

(** The two periodic-image tests of lines 461-471. *)
Definition pr_images (molcif : mol3D) (initial_SBU_list : list (list nat))
    (adj_matrix : matrix) (cell_v : cell) (subgraph : matrix)
    (atoms_list : list nat) (a : anchors) : list offset * list offset :=
  let linker_cart_coords := (fun val => coords (getAtom molcif val)) <$> atoms_list in
  let linker_adjmat := subgraph in
  let pr_image_organic :=
    ligand_detect cell_v linker_cart_coords linker_adjmat
                  (elements (linkeranchors_list a)) in
  let sbu_temp :=
    elements (linkeranchors_atoms a ∪
              set_of (nth (default 0 (head (elements (sbu_connect_list a))))
                          initial_SBU_list [])) in
  let sbu_cart_coords := (fun val => coords (getAtom molcif val)) <$> sbu_temp in
  let sbu_adjmat := slice_mat adj_matrix sbu_temp in
  let pr_image_sbu :=
    ligand_detect cell_v sbu_cart_coords sbu_adjmat
                  (seq 0 (size (linkeranchors_list a))) in
  (pr_image_sbu, pr_image_organic).

Definition classify (molcif : mol3D) (initial_SBU_list : list (list nat))
    (adj_matrix : matrix) (cell_v : cell) (subgraph : matrix)
    (atoms_list : list nat) (a : anchors) : verdict :=
  if 2 <=? size (linkeranchors_list a) then
    if 2 <=? size (sbu_connect_list a) then Linker
    else
      let '(pr_image_sbu, pr_image_organic) :=
        pr_images molcif initial_SBU_list adj_matrix cell_v subgraph atoms_list a in
      if negb ((n_unique pr_image_sbu =? 1) && (n_unique pr_image_organic =? 1))
      then AmbiguousLinker
      else AmbiguousLigand
  else DefiniteLigand.

Definition anchors_text (name : string) (a : anchors) : string :=
  name +:+ "," +:+ " Anchors list: " +:+ str_set (sbuanchors_list a) +:+
  "," +:+ " SBU connectlist: " +:+ str_set (sbu_connect_list a).

(** Lines 432-498: the body of the loop over the candidate fragments.
    [templist] is the copy of [linker_list] taken on entry. *)
Definition classify_step (molcif : mol3D) (initial_SBU_list : list (list nat))
    (adj_matrix : matrix) (logpath linkerpath name : string) (cell_v : cell)
    (templist : list (list nat))
    (st : classifier) (it : nat * list nat) : classifier :=
  let '(ii, atoms_list) := it in
  let a := find_anchors adj_matrix initial_SBU_list atoms_list in
  let subgraph := nth ii (cl_linker_subgraphlist st) [] in
  let '(min_length, max_length) :=
    linker_length subgraph (elements (linkeranchors_list a)) in
  match classify molcif initial_SBU_list adj_matrix cell_v subgraph atoms_list a with
  | Linker =>
      mk_classifier (cl_removelist st) (cl_SBUlist st)
        (cl_linker_list st) (cl_linker_subgraphlist st)
        (Z.max min_length (max_min_linker_length st))
        (Z.min max_length (min_max_linker_length st))
        (cl_fs st)
  | AmbiguousLinker =>
      mk_classifier (cl_removelist st) (cl_SBUlist st)
        (cl_linker_list st) (cl_linker_subgraphlist st)
        (Z.max min_length (max_min_linker_length st))
        (Z.min max_length (min_max_linker_length st))
        (write2file linkerpath "/ambiguous.txt"
           (anchors_text name a +:+ " set to be linker" +:+ nl) (cl_fs st))
  | AmbiguousLigand =>
      mk_classifier (cl_removelist st ∪ set_of (nth ii templist []))
        (cl_SBUlist st ∪ set_of (nth ii templist []))
        (delete ii (cl_linker_list st)) (delete ii (cl_linker_subgraphlist st))
        (max_min_linker_length st) (min_max_linker_length st)
        (write2file linkerpath "/ligand.txt"
           (anchors_text (name +:+ pretty ii) a +:+ nl)
           (write2file linkerpath "/ambiguous.txt"
              (anchors_text name a +:+ " set to be ligand" +:+ nl) (cl_fs st)))
  | DefiniteLigand =>
      mk_classifier (cl_removelist st ∪ set_of (nth ii templist []))
        (cl_SBUlist st ∪ set_of (nth ii templist []))
        (delete ii (cl_linker_list st)) (delete ii (cl_linker_subgraphlist st))
        (max_min_linker_length st) (min_max_linker_length st)
        (write2file linkerpath "/ligand.txt"
           (anchors_text name a +:+ nl)
           (write2file logpath ("/" +:+ name +:+ ".log")
              ("found ligand" +:+ nl) (cl_fs st)))
  end.

(** The loop of lines 431-498, over the fragments last to first. *)
Definition classify_loop (molcif : mol3D) (initial_SBU_list : list (list nat))
    (adj_matrix : matrix) (logpath linkerpath name : string) (cell_v : cell)
    (removelist SBUlist : gset nat)
    (linker_list : list (list nat)) (linker_subgraphlist : list matrix)
    (fs : FS) : classifier :=
  foldl (classify_step molcif initial_SBU_list adj_matrix logpath linkerpath name
                       cell_v linker_list)
        (mk_classifier removelist SBUlist linker_list linker_subgraphlist 0 100 fs)
        (rev (enumerate linker_list)).

(** What [identify_short_linkers] returns, with the file system. *)
Record short_linkers := mk_short_linkers {
  sl_min_max_linker_length : Z;
  sl_long_ligands : bool;
  sl_SBUlist : gset nat;
  sl_removelist : gset nat;
  sl_linker_list : list (list nat);
  sl_linker_subgraphlist : list matrix;
  sl_fs : FS }.

Definition identify_short_linkers (molcif : mol3D)
    (initial_SBU_list : list (list nat)) (initial_SBU_subgraphlist : list matrix)
    (removelist linkers : gset nat)
    (linker_list : list (list nat)) (linker_subgraphlist : list matrix)
    (adj_matrix : matrix) (SBUlist : gset nat)
    (logpath linkerpath name : string) (cell_v : cell) (fs : FS) : short_linkers :=
  let st := classify_loop molcif initial_SBU_list adj_matrix logpath linkerpath name
                          cell_v removelist SBUlist linker_list linker_subgraphlist fs in
  let min_max := min_max_linker_length st in
  let max_min := max_min_linker_length st in
  let tmpstr := name +:+ ", (min_max_linker_length,max_min_linker_length): " +:+
                pretty min_max +:+ " , " +:+ pretty max_min +:+ nl in
  let fs := write2file logpath ("/" +:+ name +:+ ".log") tmpstr (cl_fs st) in
  let fs := if (min_max <? 3)%Z then write2file linkerpath "/short_ligands.txt" tmpstr fs
            else fs in
  let long_ligands :=
    if (2 <? min_max)%Z then
      if (max_min =? min_max)%Z then true
      else if (3 <? min_max)%Z then true else false
    else false in
  mk_short_linkers min_max long_ligands (cl_SBUlist st) (cl_removelist st)
                   (cl_linker_list st) (cl_linker_subgraphlist st) fs.


(** ** make_MOF_fragments *)

Definition none_pair : pyval := PyTuple2 PyNone PyNone.

(** What the first part of [make_MOF_fragments] (lines 513-581) leaves for
    the rest when no precondition fails. *)
Record prepared := mk_prepared {
  p_name : string;
  p_linkerpath : string;
  p_sbupath : string;
  p_logpath : string;
  p_allatomtypes : list string;
  p_cell_v : cell;
  p_adj_matrix : matrix;
  p_molcif : mol3D;
  p_metal_list : gset nat }.

(** Lines 518-527. *)
Definition make_dirs (path : string) (fs : FS) : FS :=
  foldl (fun fs d => if negb (isdir (path +:+ d) fs) then emit (Mkdir (path +:+ d)) fs
                     else fs)
        fs ["/linkers"; "/sbus"; "/xyz"; "/logs"].

Definition failed (path name why : string) (fs : FS) : FS :=
  write2file path "/FailedStructures.log"
             ("Failed to featurize " +:+ name +:+ ": " +:+ why +:+ nl) fs.

(** Line 572-573 for one component label. *)
Definition component_has_metal (labels_components : list nat)
    (metal_list : gset nat) (comp : nat) : bool :=
  let inds_in_comp :=
    filter (fun i => nth i labels_components 0 = comp)
           (seq 0 (length labels_components)) in
  bool_decide (set_of inds_in_comp ∩ metal_list ≠ ∅).

(** Lines 513-581: the directories, the structure, and the four reasons to
    give up before any decomposition. *)
Definition MOF_precheck (data : string) (path xyzpath : pypath) (fs : FS)
    : (outcome + prepared) * FS :=
  if negb (truthy path) then (inl (Raised ValueError), fs)
  else
    let path := if ends_with_slash (path_str path) then drop_last (path_str path)
                else path_str path in
    let fs := make_dirs path fs in
    let linkerpath := path +:+ "/linkers" in
    let sbupath := path +:+ "/sbus" in
    let logpath := path +:+ "/logs" in
    let '(cpar, allatomtypes, fcoords) := readcif data in
    let cell_v := mkcell cpar in
    let cart_coords := fractional2cart fcoords cell_v in
    let name := strip ".cif" (basename data) in
    if 2000 <? length cart_coords then
      (inl (Returned none_pair), failed path name "large primitive cell" fs)
    else
      let distance_mat := compute_distance_matrix2 cell_v cart_coords in
      match compute_adj_matrix distance_mat allatomtypes with
      | None => (inl (Returned none_pair), failed path name "atomic overlap" fs)
      | Some adj_matrix =>
          let fs := emit (WriteXYZandGraph xyzpath allatomtypes cell_v fcoords adj_matrix) fs in
          let molcif := set_graph (import_from_cif data) adj_matrix in
          let '(n_components, labels_components) := connected_components adj_matrix in
          let metal_list : gset nat := set_of (findMetal molcif) in
          if negb (0 <? size metal_list) then
            (inl (Returned none_pair), failed path name "no metal found" fs)
          else if existsb (fun comp => negb (component_has_metal labels_components
                                                                 metal_list comp))
                          (seq 0 n_components) then
            (inl (Returned none_pair), failed path name "solvent molecules" fs)
          else
            let fs := if 1 <? n_components
                      then write2file logpath ("/" +:+ name +:+ ".log")
                             (name +:+ " found to be an interpenetrated structure" +:+ nl) fs
                      else fs in
            (inr (mk_prepared name linkerpath sbupath logpath allatomtypes cell_v
                              adj_matrix molcif metal_list), fs)
      end.

(** What lines 590-613 hand to the rest: the anchors and copies taken by
    [identify_lc_atoms] and the result of [identify_short_linkers]. *)
Record classification := mk_classification {
  k_lc : lc_atoms;
  k_initial_removelist : gset nat;
  k_initial_SBUlist : gset nat;
  k_sl : short_linkers }.

(** Lines 590-613: the seed, the candidate fragments, their classification. *)
Definition MOF_classification (p : prepared) (fs : FS) : classification :=
  let '((molcif, removelist, SBUlist), fs) :=
    prepare_initial_SBU (p_molcif p) (p_allatomtypes p) (p_metal_list p)
                        (p_logpath p) (p_name p) fs in
  let lc := identify_lc_atoms molcif removelist (p_metal_list p) in
  let '(initial_SBU_list, initial_SBU_subgraphlist) :=
    get_closed_subgraph removelist (linkers lc) (p_adj_matrix p) in
  let sl := identify_short_linkers molcif initial_SBU_list initial_SBU_subgraphlist
              removelist (linkers lc) (linker_list lc) (linker_subgraphlist lc)
              (p_adj_matrix p) SBUlist (p_logpath p) (p_linkerpath p) (p_name p)
              (p_cell_v p) fs in
  mk_classification lc removelist SBUlist sl.

(** Line 626: every atom bonded to an atom of [SBUlist] joins it. *)
Definition add_shell (molcif : mol3D) (SBUlist : gset nat) : gset nat :=
  foldl (fun acc zero_first_shell =>
           acc ∪ set_of (getBondedAtomsSmart molcif zero_first_shell))
        SBUlist (elements SBUlist).

(** Lines 619-648: the choice of regime and, for long linkers, the
    assembly. *)
Definition MOF_regime (p : prepared) (depth : nat) (k : classification)
    : outcome * FS :=
  let molcif := p_molcif p in
  let sl := k_sl k in
  let fs := sl_fs sl in
  let linker_length_list := length <$> sl_linker_list sl in
  let fs := if negb (size (set_of linker_length_list) =? 1)
            then write2file (p_linkerpath p) "/uneven.txt" (p_name p +:+ nl) fs
            else fs in
  if (2 <? sl_min_max_linker_length sl)%Z then
    let fs := if sl_long_ligands sl
              then write2file (p_logpath p) ("/" +:+ p_name p +:+ ".log")
                     (nl +:+ "Structure has LONG LINKER" +:+ nl +:+ nl) fs
              else fs in
    let SBUlist := if sl_long_ligands sl then add_shell molcif (sl_SBUlist sl)
                   else sl_SBUlist sl in
    let truncated_linkers := allatoms (k_lc k) ∖ SBUlist in
    let '(SBU_list, SBU_subgraphlist) :=
      get_closed_subgraph SBUlist truncated_linkers (p_adj_matrix p) in
    if negb (sl_long_ligands sl) then
      let fs := write2file (p_logpath p) ("/" +:+ p_name p +:+ ".log")
                  (nl +:+ "Structure has SHORT LINKER" +:+ nl +:+ nl) fs in
      let '(SBU_list, SBU_subgraphlist) :=
        include_extra_shells SBU_list SBU_subgraphlist molcif (p_adj_matrix p) in
      (Returned (PyInt 2), fs)
    else
      breakdown_MOF SBU_list SBU_subgraphlist molcif depth (p_name p) (p_cell_v p)
                    (anc_atoms (k_lc k)) (PStr (p_sbupath p))
                    (connections_list (k_lc k)) (connections_subgraphlist (k_lc k))
                    (PStr (p_linkerpath p)) fs
  else
    let fs := write2file (p_linkerpath p) "/short.txt"
                ("Structure " +:+ p_name p +:+
                 " has extremely short linkers, check the outputs" +:+ nl) fs in
    let fs := write2file (p_logpath p) ("/" +:+ p_name p +:+ ".log")
                ("Structure has extremely short linkers" +:+ nl) fs in
    let truncated_linkers := allatoms (k_lc k) ∖ sl_removelist sl in
    let '(SBU_list, SBU_subgraphlist) :=
      get_closed_subgraph (sl_removelist sl) truncated_linkers (p_adj_matrix p) in
    let '(SBU_list, SBU_subgraphlist) :=
      include_extra_shells SBU_list SBU_subgraphlist molcif (p_adj_matrix p) in
    let '(SBU_list, SBU_subgraphlist) :=
      include_extra_shells SBU_list SBU_subgraphlist molcif (p_adj_matrix p) in
    (Returned (PyInt 3), fs).

Definition make_MOF_fragments (data : string) (depth : nat)
    (path xyzpath : pypath) (fs : FS) : outcome * FS :=
  match MOF_precheck data path xyzpath fs with
  | (inl out, fs) => (out, fs)
  | (inr p, fs) => MOF_regime p depth (MOF_classification p fs)
  end.

(** ** Reading the classification loop

    The loop looks at a candidate fragment through its atoms and its
    subgraph only; the definitions below name what it reads of one. *)

Definition candidate : Type := list nat * matrix.

Definition verdict_of (molcif : mol3D) (initial_SBU_list : list (list nat))
    (adj_matrix : matrix) (cell_v : cell) (c : candidate) : verdict :=
  classify molcif initial_SBU_list adj_matrix cell_v c.2 c.1
           (find_anchors adj_matrix initial_SBU_list c.1).

Definition lengths_of (initial_SBU_list : list (list nat)) (adj_matrix : matrix)
    (c : candidate) : Z * Z :=
  linker_length c.2
    (elements (linkeranchors_list (find_anchors adj_matrix initial_SBU_list c.1))).

(** A candidate stays a linker; otherwise it is dropped as a ligand. *)
Definition is_kept (molcif : mol3D) (initial_SBU_list : list (list nat))
    (adj_matrix : matrix) (cell_v : cell) (c : candidate) : bool :=
  match verdict_of molcif initial_SBU_list adj_matrix cell_v c with
  | Linker | AmbiguousLinker => true
  | _ => false
  end.

(** What one candidate does to the pair
    (max_min_linker_length, min_max_linker_length). *)
Definition tally (molcif : mol3D) (initial_SBU_list : list (list nat))
    (adj_matrix : matrix) (cell_v : cell) (c : candidate) (acc : Z * Z) : Z * Z :=
  if is_kept molcif initial_SBU_list adj_matrix cell_v c
  then (Z.max (lengths_of initial_SBU_list adj_matrix c).1 acc.1,
        Z.min (lengths_of initial_SBU_list adj_matrix c).2 acc.2)
  else acc.

Definition kept (molcif : mol3D) (initial_SBU_list : list (list nat))
    (adj_matrix : matrix) (cell_v : cell) (cs : list candidate) : list candidate :=
  filter (fun c => is_kept molcif initial_SBU_list adj_matrix cell_v c = true) cs.

Definition dropped (molcif : mol3D) (initial_SBU_list : list (list nat))
    (adj_matrix : matrix) (cell_v : cell) (cs : list candidate) : list candidate :=
  filter (fun c => is_kept molcif initial_SBU_list adj_matrix cell_v c = false) cs.

(** ** The spec's wording, for comparison with the code *)

(** The removelist as the spec words it: the metals, the atoms whose every
    bonded neighbour is a metal or a hydrogen, and the hydrogens bonded to
    any atom of that union. *)
Definition spec_removelist (molcif : mol3D) : gset nat :=
  let everyone := seq 0 (natoms molcif) in
  let metals : gset nat := set_of (findMetal molcif) in
  let only : gset nat :=
    set_of (filter (fun a => only_metal_or_H molcif a = true) everyone) in
  let core := metals ∪ only in
  core ∪ set_of (filter (fun h => is_H molcif h = true /\
                                  Exists (fun a => h ∈ getBondedAtomsSmart molcif a)
                                         (elements core))
                        everyone).

(** The candidate fragments of a classification, and the ones it dropped as
    ligands. *)
Definition candidates_of (lc : lc_atoms) : list candidate :=
  zip (linker_list lc) (linker_subgraphlist lc).

Definition dropped_ligands (p : prepared) (k : classification) : list (list nat) :=
  let initial_SBU_list :=
    (get_closed_subgraph (k_initial_removelist k) (linkers (k_lc k))
                         (p_adj_matrix p)).1 in
  (dropped (p_molcif p) initial_SBU_list (p_adj_matrix p) (p_cell_v p)
           (candidates_of (k_lc k))).*1.

(** The partition the spec states after classification: SBUlist, every
    kept linker fragment and every dropped ligand. *)
Definition spec_partition (p : prepared) (k : classification) : Prop :=
  partition_of (allatoms (k_lc k))
    (sl_SBUlist (k_sl k) ::
     (set_of <$> sl_linker_list (k_sl k)) ++ (set_of <$> dropped_ligands p k)).

End Code.

(** ** Stand-ins for the missing code, used by the examples only

    The statements about the code quantify over every implementation of
    [Mol3DLib], [PBCLib], [GraphLib] and [Runtime].  To run the code on a
    concrete structure the examples need some implementation; this module
    gives a plain one over a structure held in memory.  The example
    structures have no rings. *)
Module Ref.

Record structure := mk_structure {
  s_symbols : list string;
  s_coords : list point;
  s_graph : matrix }.

(** The adjacency matrix of a list of bonds over [n] atoms. *)
Definition graph_of_bonds (n : nat) (bonds : list (nat * nat)) : matrix :=
  (fun i => (fun j => if bool_decide ((i, j) ∈ bonds \/ (j, i) ∈ bonds) then 1 else 0)
              <$> seq 0 n) <$> seq 0 n.

Definition Qpoint (x y z : Z) : point := (inject_Z x, inject_Z y, inject_Z z).

Definition sorted (s : gset nat) : list nat := merge_sort Nat.le (elements s).

(** The atoms reachable from [comp] without entering [barrier]. *)
Fixpoint grow (fuel : nat) (g : matrix) (barrier comp : gset nat) : gset nat :=
  match fuel with
  | 0 => comp
  | S n =>
      let next :=
        comp ∪ (foldl (fun acc i => acc ∪ set_of (bonded g i)) ∅ (elements comp)
                  ∖ barrier) in
      if bool_decide (next = comp) then comp else grow n g barrier next
  end.

Fixpoint components (fuel : nat) (g : matrix) (barrier todo : gset nat)
    : list (list nat) :=
  match fuel with
  | 0 => []
  | S n =>
      match sorted todo with
      | [] => []
      | start :: _ =>
          let comp := grow (length g) g barrier {[start]} in
          sorted comp :: components n g barrier (todo ∖ comp)
      end
  end.

(** Modelled from the spec: the connected components reachable from the
    seed atoms without crossing barrier atoms, each with its induced
    subgraph. *)
Definition closed_subgraph (seed barrier : gset nat) (g : matrix)
    : list (list nat) * list matrix :=
  let comps := components (size seed) g barrier seed in
  (comps, ix_ g <$> comps).

(** Breadth-first search for a shortest path, as the list of its nodes. *)
Fixpoint search (fuel : nat) (g : matrix) (target : nat) (paths : list (list nat))
    : option (list nat) :=
  match fuel with
  | 0 => None
  | S n =>
      match filter (fun p => head p = Some target) paths with
      | p :: _ => Some (rev p)
      | [] =>
          search n g target
            (concat ((fun p => match p with
                               | [] => []
                               | x :: _ => (fun y => y :: p) <$>
                                             filter (fun y => y ∉ p) (bonded g x)
                               end) <$> paths))
      end
  end.

Definition bfs_path (g : matrix) (a b : nat) : option (list nat) :=
  search (S (length g)) g b [[a]].

(** The number of bonds on the shortest path, over all pairs of anchors. *)
Definition path_lengths (g : matrix) (anchors_ : list nat) : Z * Z :=
  foldl (fun '(mn, mx) '(a, b) =>
           match bfs_path g a b with
           | Some p => let d := Z.of_nat (length p - 1) in (Z.min mn d, Z.max mx d)
           | None => (mn, mx)
           end)
        (1000%Z, 0%Z) (combinations2 anchors_).

(** The unit cell an atom lies in, for the unit cube. *)
Definition image_of (p : point) : offset :=
  let '(x, y, z) := p in (Qfloor x, Qfloor y, Qfloor z).

Definition images (c : cell) (coords : list point) (adj : matrix) (starts : list nat)
    : list offset :=
  (fun i => image_of (nth i coords origin)) <$> starts.

Definition component_labels (g : matrix) : nat * list nat :=
  let comps := components (length g) g ∅ (set_of (seq 0 (length g))) in
  (length comps,
   (fun i => default 0 (head (fst <$> filter (fun '(k, comp) => i ∈ comp)
                                             (enumerate comps))))
     <$> seq 0 (length g)).

Definition Qadd3 (a b : point) : point :=
  let '(ax, ay, az) := a in
  let '(bx, by_, bz) := b in ((ax + bx)%Q, (ay + by_)%Q, (az + bz)%Q).
Definition Qsub3 (a b : point) : point :=
  let '(ax, ay, az) := a in
  let '(bx, by_, bz) := b in ((ax - bx)%Q, (ay - by_)%Q, (az - bz)%Q).
Definition Qscale3 (d : Q) (a : point) : point :=
  let '(ax, ay, az) := a in (Qred (d * ax), Qred (d * ay), Qred (d * az)).

(** Modelled from the spec: the capping bond is shortened to [d] times the
    original bond vector; atom [idx1] moves, atom [idx2] stays. *)
Definition shorten (m : mol3D) (idx1 idx2 : nat) (d : Q) : mol3D :=
  let p1 := coords (getAtom m idx1) in
  let p2 := coords (getAtom m idx2) in
  let p := Qadd3 p2 (Qscale3 d (Qsub3 p1 p2)) in
  mk_mol3D (imap (fun i a => if i =? idx1 then setcoords a p else a) (atoms m))
           (graph m).

Definition metals : list string := ["Zn"; "Cu"; "Zr"; "Fe"].

#[export] Instance mol3DLib : Mol3DLib := {|
  metal_symbol := fun s => bool_decide (s ∈ metals);
  BCM := shorten |}.

#[export] Instance graphLib : GraphLib := {|
  shortest_path := bfs_path;
  minimum_cycle_basis := fun _ => [];
  connected_components := component_labels |}.

#[export] Instance runtime : Runtime := {| recursion_limit := 1000 |}.

(** The structure [s] is what every file name reads as. *)
Definition pbcLib (s : structure) : PBCLib := {|
  get_closed_subgraph := closed_subgraph;
  include_extra_shells := fun l g _ _ => (l, g);
  linker_length := path_lengths;
  ligand_detect := images;
  slice_mat := ix_;
  XYZ_connected := fun _ coords _ => coords;
  returnXYZandGraph := fun _ _ fcoords _ => fcoords;
  readcif := fun _ => ([], s_symbols s, s_coords s);
  mkcell := fun _ => [Qpoint 1 0 0; Qpoint 0 1 0; Qpoint 0 0 1];
  fractional2cart := fun fcoords _ => fcoords;
  compute_distance_matrix2 := fun _ _ => [];
  compute_adj_matrix := fun _ _ => Some (s_graph s);
  import_from_cif := fun _ =>
    mk_mol3D (zip_with mk_atom3D (s_symbols s) (s_coords s)) [] |}.

Definition mol_of (s : structure) : mol3D :=
  mk_mol3D (zip_with mk_atom3D (s_symbols s) (s_coords s)) (s_graph s).

Definition fs0 : FS := mk_FS {["out"]} ∅ [].

(** Zn - O - C - C - C - C - C - O - Zn along the x axis, 1 apart. *)
Definition chain9 : structure :=
  mk_structure ["Zn"; "O"; "C"; "C"; "C"; "C"; "C"; "O"; "Zn"]
               ((fun i => Qpoint (Z.of_nat i) 0 0) <$> seq 0 9)
               (graph_of_bonds 9 [(0,1);(1,2);(2,3);(3,4);(4,5);(5,6);(6,7);(7,8)]).

(** The same chain with the bonds C2-C3 and C5-C6 5 long. *)
Definition stretched9 : structure :=
  mk_structure ["Zn"; "O"; "C"; "C"; "C"; "C"; "C"; "O"; "Zn"]
               ((fun x => Qpoint x 0 0) <$> [0; 1; 2; 7; 8; 9; 14; 15; 16]%Z)
               (graph_of_bonds 9 [(0,1);(1,2);(2,3);(3,4);(4,5);(5,6);(6,7);(7,8)]).

(** The same chain with the bond Zn0-O1 5 long. *)
Definition rod9 : structure :=
  mk_structure ["Zn"; "O"; "C"; "C"; "C"; "C"; "C"; "O"; "Zn"]
               ((fun x => Qpoint x 0 0) <$> [0; 5; 6; 7; 8; 9; 10; 11; 12]%Z)
               (graph_of_bonds 9 [(0,1);(1,2);(2,3);(3,4);(4,5);(5,6);(6,7);(7,8)]).

(** Zn - O(-H) ... H is also bonded to the O of a water molecule. *)
Definition hydrate : structure :=
  mk_structure ["Zn"; "O"; "H"; "O"; "H"; "H"]
               ((fun i => Qpoint (Z.of_nat i) 0 0) <$> seq 0 6)
               (graph_of_bonds 6 [(0,1);(1,2);(2,3);(3,4);(3,5)]).

(** Zn - O(-H) - C: a coordinated hydroxyl on a carbon. *)
Definition alcohol : structure :=
  mk_structure ["Zn"; "O"; "H"; "C"]
               ((fun i => Qpoint (Z.of_nat i) 0 0) <$> seq 0 4)
               (graph_of_bonds 4 [(0,1);(1,2);(1,3)]).

(** Zn - O - C: one terminal ligand. *)
Definition methoxide : structure :=
  mk_structure ["Zn"; "O"; "C"]
               ((fun i => Qpoint (Z.of_nat i) 0 0) <$> seq 0 3)
               (graph_of_bonds 3 [(0,1);(1,2)]).

(** Zn - N - C - N - Zn: a three-atom bridge. *)
Definition carbodiimide : structure :=
  mk_structure ["Zn"; "N"; "C"; "N"; "Zn"]
               ((fun i => Qpoint (Z.of_nat i) 0 0) <$> seq 0 5)
               (graph_of_bonds 5 [(0,1);(1,2);(2,3);(3,4)]).

(** Zn chelated by O - C - O, all in one unit cell ... *)
Definition chelate : structure :=
  mk_structure ["Zn"; "O"; "C"; "O"]
               [(0, 0, 0); (1 # 4, 1 # 4, 0); (1 # 2, 1 # 2, 0); (1 # 4, 3 # 4, 0)]%Q
               (graph_of_bonds 4 [(0,1);(1,2);(2,3);(3,0)]).

(** ... and with the second O in the next cell along x. *)
Definition bridge : structure :=
  mk_structure ["Zn"; "O"; "C"; "O"]
               [(0, 0, 0); (1 # 4, 1 # 4, 0); (1 # 2, 1 # 2, 0); (5 # 4, 3 # 4, 0)]%Q
               (graph_of_bonds 4 [(0,1);(1,2);(2,3);(3,0)]).

(** Zn - O and a lone O not bonded to anything. *)
Definition wet : structure :=
  mk_structure ["Zn"; "O"; "O"]
               ((fun i => Qpoint (Z.of_nat i) 0 0) <$> seq 0 3)
               (graph_of_bonds 3 [(0,1)]).

(** The chain Zn ... Zn with a terminal O - C on the last Zn. *)
Definition mixed11 : structure :=
  mk_structure ["Zn"; "O"; "C"; "C"; "C"; "C"; "C"; "O"; "Zn"; "O"; "C"]
               ((fun i => Qpoint (Z.of_nat i) 0 0) <$> seq 0 11)
               (graph_of_bonds 11 [(0,1);(1,2);(2,3);(3,4);(4,5);(5,6);(6,7);(7,8);
                                   (8,9);(9,10)]).

Definition no_prepared : prepared :=
  mk_prepared "" "" "" "" [] [] [] (mk_mol3D [] []) ∅.

(** The run of [make_MOF_fragments] on a structure, and its stages. *)
Definition run (s : structure) : outcome * FS :=
  make_MOF_fragments (PL := pbcLib s) "dir/mof.cif" 1 (PStr "out")
                     (PStr "out/xyz/mof.xyz") fs0.

Definition precheck (s : structure) : (outcome + prepared) * FS :=
  MOF_precheck (PL := pbcLib s) "dir/mof.cif" (PStr "out") (PStr "out/xyz/mof.xyz") fs0.

(** The classifier's state when it comes to the one candidate fragment
    O-C-O of [chelate]. *)
Definition chelate_state : classifier :=
  mk_classifier {[0]} {[0; 1; 3]} [[1; 2; 3]]
                [ix_ (s_graph chelate) [1; 2; 3]] 0 100 fs0.

Definition prepared_of (s : structure) : prepared :=
  match (precheck s).1 with
  | inr p => p
  | inl _ => no_prepared
  end.

Definition classification_of (s : structure) : classification :=
  MOF_classification (PL := pbcLib s) (prepared_of s) (precheck s).2.

(** The arguments [make_MOF_fragments] hands to [breakdown_MOF] for the
    nine-atom chains: the two SBUs Zn-O-C, the one linker, its anchors. *)
Definition chain_SBUs : list (list nat) := [[0; 1; 2]; [6; 7; 8]].
Definition chain_linkers : list (list nat) := [[1; 2; 3; 4; 5; 6; 7]].
Definition chain_anchors : gset nat := {[1; 7]}.

Definition breakdown (s : structure) (sbupath : pypath) : outcome * FS :=
  breakdown_MOF (PL := pbcLib s) chain_SBUs (ix_ (s_graph s) <$> chain_SBUs)
    (mol_of s) 1 "mo" (mkcell (PBCLib := pbcLib s) []) chain_anchors sbupath
    chain_linkers (ix_ (s_graph s) <$> chain_linkers) (PStr "out/linkers") fs0.

End Ref.

(** ** What the loops keep true *)

(** The bookkeeping of a fragment is in step: one atom of the molecule per
    entry of [added], the dictionary maps a local index to the entry of
    [added] at that index, and nothing was added twice. *)
Definition in_step (f : fragment) : Prop :=
  length (atoms (f_mol f)) = length (f_added f) /\
  (forall k, f_dict f !! k = f_added f !! k) /\
  NoDup (f_added f).

(** [f'] is [f] after some more atoms were added: what was in step stays
    in step, and [added] has grown at its end. *)
Definition extends (f f' : fragment) : Prop :=
  (in_step f -> in_step f') /\ exists more, f_added f' = f_added f ++ more.

(** A capping record made for a fragment: the placeholder is an "X" at the
    position of the atom it replaces, the anchor is an atom of [base], and
    the atom replaced is an atom of [allowed] bonded to the anchor. *)
Definition cap_record (molcif : mol3D) (allowed base : list nat) (x : X_record) : Prop :=
  good_record molcif x /\ x.2 ∈ base /\ x.1.2 ∈ allowed /\
  x.1.2 ∈ getBondedAtoms molcif x.2.

(** What the loops of lines 312-335 keep true of a linker fragment and its
    capping records, once the atoms of [own] (linker atoms outside the SBUs)
    and of [shell] (SBU atoms bonded to them) have been added: the fragment
    holds these atoms and no other; every record replaces an SBU atom bonded
    to its anchor, an atom of [shell]; and every SBU atom bonded to an atom
    of [shell] is in the fragment or has a record. *)
Definition linker_inv (molcif : mol3D) (all_SBU_atoms : list nat)
    (own shell : nat -> Prop) (st : fragment * list X_record) : Prop :=
  (forall x, x ∈ f_added st.1 <-> own x \/ shell x) /\
  (forall x, x ∈ st.2 ->
     good_record molcif x /\ shell x.2 /\ x.1.2 ∈ all_SBU_atoms /\
     x.1.2 ∈ getBondedAtoms molcif x.2) /\
  (forall b s, shell b -> s ∈ getBondedAtoms molcif b -> s ∈ all_SBU_atoms ->
     s ∈ f_added st.1 \/ exists new_atom anchor, (new_atom, s, anchor) ∈ st.2).

(** The test of lines 84-85 of [identify_main_chain] on one cycle. *)
Definition ring_fires (paths_copy i : list nat) : bool :=
  bool_decide (set_of paths_copy ∩ set_of i ≠ ∅) &&
  negb (bool_decide (set_of i ⊆ set_of paths_copy)).

(** Every cycle whose atoms are not all in [paths_copy] is still in
    [min_cycles_copy]: the [remove] of line 87 finds its cycle. *)
Definition cycles_pending (min_cycles : list (list nat)) (paths_copy : list nat)
    (min_cycles_copy : list (list nat)) : Prop :=
  forall i, i ∈ min_cycles -> ~ set_of i ⊆ set_of paths_copy -> i ∈ min_cycles_copy.

(** What lines 442-450 record: atom [a] at position [iii] of the fragment
    is bonded to atom [s] of the SBU component number [kk]. *)
Definition touches (adj_matrix : matrix) (initial_SBU_list : list (list nat))
    (atoms_list : list nat) (iii a kk s : nat) : Prop :=
  atoms_list !! iii = Some a /\
  exists S, initial_SBU_list !! kk = Some S /\ s ∈ S /\ s ∈ bonded adj_matrix a.

(** The four sets of an [anchors] record are the four projections of a
    relation. *)
Definition records (acc : anchors) (W : nat -> nat -> nat -> nat -> Prop) : Prop :=
  (forall i, i ∈ linkeranchors_list acc <-> exists a kk s, W i a kk s) /\
  (forall a, a ∈ linkeranchors_atoms acc <-> exists i kk s, W i a kk s) /\
  (forall s, s ∈ sbuanchors_list acc <-> exists i a kk, W i a kk s) /\
  (forall kk, kk ∈ sbu_connect_list acc <-> exists i a s, W i a kk s).

(** An atom [branch] can climb to from [start]: an atom of [start], or an
    atom off the main paths that is bonded to an atom it can climb to. *)
Inductive climbs (molcif : mol3D) (main_paths start : list nat) : nat -> Prop :=
| climbs_start x :
    x ∈ start -> climbs molcif main_paths start x
| climbs_step y x :
    climbs molcif main_paths start y ->
    x ∈ getBondedAtoms molcif y -> x ∉ main_paths ->
    climbs molcif main_paths start x.

(** The atoms of the structure that are neither on the main paths nor in
    [atoms_in_sbu]: what [branch] can still take in. *)
Definition untouched (molcif : mol3D) (main_paths atoms_in_sbu : list nat) : gset nat :=
  set_of (seq 0 (natoms molcif)) ∖ set_of main_paths ∖ set_of atoms_in_sbu.

(** The file a fragment write goes to. *)
Definition written_name (e : event) : option string :=
  match e with
  | WriteGraph xyzname _ _ => Some xyzname
  | WriteXYZ xyzname _ _ => Some xyzname
  | _ => None
  end.

(** A name [breakdown_MOF] writes under: that of one of the SBUs (lines
    283-286) or of one of the linkers (line 369). *)
Definition fragment_name (sbupath linkerpath : pypath) (name : string)
    (n_SBUs n_linkers : nat) (xyzname : string) : Prop :=
  (exists i is_periodic,
     i < n_SBUs /\ xyzname = sbu_xyzname sbupath name i is_periodic) \/
  (exists i, i < n_linkers /\ xyzname = linker_xyzname linkerpath name i).

Definition written_by (sbupath linkerpath : pypath) (name : string)
    (n_SBUs n_linkers : nat) (e : event) : Prop :=
  exists xyzname,
    written_name e = Some xyzname /\
    fragment_name sbupath linkerpath name n_SBUs n_linkers xyzname.

(** [fs'] is [fs] after the writes [evs]. *)
Definition wrote (fs fs' : FS) (evs : list event) : Prop :=
  fs_dirs fs' = fs_dirs fs /\ fs_files fs' = fs_files fs /\
  trace fs' = trace fs ++ evs.

(** What the loop over the SBUs keeps true after [k] rounds: two writes per
    round, all under names of SBUs, and [xyzname] is bound to such a name as
    soon as one round is through. *)
Definition SBU_loop_inv (sbupath linkerpath : pypath) (name : string)
    (n_SBUs n_linkers : nat) (fs : FS) (k : nat) (st : frame) : Prop :=
  exists evs,
    wrote fs (st_fs st) evs /\
    Forall (written_by sbupath linkerpath name n_SBUs n_linkers) evs /\
    length evs = 2 * k /\
    (st_xyzname st = None -> k = 0) /\
    (forall x, st_xyzname st = Some x ->
       exists i is_periodic,
         i < n_SBUs /\ x = sbu_xyzname sbupath name i is_periodic).

(** ** MOF_functionalizer.py

    [linker_identification], [get_linkers] and [atom_deletion] of
    [molSimplify/Informatics/MOF/MOF_functionalizer.py]. *)

Module Functionalizer.

Inductive error := Exception | AttributeError | IndexError.

Inductive fres (A : Type) :=
| Done (a : A)
| Failed (e : error).
Arguments Done {A} a.
Arguments Failed {A} e.

(** *** linker_identification *)

(** The loop of lines 650-656: the first linker that holds atom [i]. *)
Fixpoint first_linker_with (i : nat) (linkers : list (nat * list nat))
    : option (nat * list nat) :=
  match linkers with
  | [] => None
  | (linker_num, linker) :: r =>
      if inb i linker then Some (linker_num, linker) else first_linker_with i r
  end.

Definition linker_identification (linker_list : list (list nat)) (i : nat)
    (checkedlist : gset nat) : fres (list nat * nat * gset nat) :=
  match first_linker_with i (enumerate linker_list) with
  | Some (linker_to_analyze_index, linker_to_analyze) =>
      Done (linker_to_analyze, linker_to_analyze_index,
            checkedlist ∪ set_of linker_to_analyze)
  | None => Failed Exception
  end.

(** *** atom_deletion *)

(** The rows of an indexed list whose index is not in [delete_list]. *)
Definition rows_kept {A} (delete_list : list nat) (rows : list (nat * A))
    : list (nat * A) :=
  filter (fun '(cart_row, _) => cart_row ∉ delete_list) rows.


(** The loop of lines 1180-1189.  [new_coord_list] is None until the first
    row is kept. *)
Fixpoint atom_deletion_loop (rows : list (nat * point)) (allatomtypes : list string)
    (delete_list : list nat) (new_coord_list : option (list point))
    (final_atom_types : list string)
    : fres (option (list point) * list string) :=
  match rows with
  | [] => Done (new_coord_list, final_atom_types)
  | (cart_row, xyz_) :: r =>
      match allatomtypes !! cart_row with
      | None => Failed IndexError
      | Some t =>
          if inb cart_row delete_list then
            if negb (String.eqb t "H") then Failed Exception
            else atom_deletion_loop r allatomtypes delete_list new_coord_list
                                    final_atom_types
          else
            atom_deletion_loop r allatomtypes delete_list
              (Some (match new_coord_list with
                     | None => [xyz_]
                     | Some l => l ++ [xyz_]
                     end))
              (final_atom_types ++ [t])
      end
  end.

(** The print of line 1191 reads [new_coord_list.shape]: with no row kept
    the list is still None and the attribute lookup fails. *)
Definition atom_deletion (cart_coords : list point) (allatomtypes : list string)
    (delete_list : list nat) : fres (list point * list string) :=
  match atom_deletion_loop (enumerate cart_coords) allatomtypes delete_list None [] with
  | Failed e => Failed e
  | Done (None, _) => Failed AttributeError
  | Done (Some new_coord_list, final_atom_types) =>
      Done (new_coord_list, final_atom_types)
  end.

Section WithLibs.
Context {ML : Mol3DLib} {PL : PBCLib}.

(** *** get_linkers *)

(** Lines 954-966: the sets [SBUlist] and [removelist] of [get_linkers]. *)
Definition get_linkers_sets (molcif : mol3D) : gset nat * gset nat :=
  let metals := findMetal molcif in
  let SBUlist : gset nat := foldl (fun acc metal => acc ∪ {[metal]}) ∅ metals in
  let SBUlist :=
    foldl (fun acc metal => acc ∪ set_of (getBondedAtomsSmart molcif metal))
          SBUlist metals in
  let removelist : gset nat := foldl (fun acc metal => acc ∪ {[metal]}) ∅ metals in
  let removelist :=
    foldl (fun acc atom => if only_metal_or_H molcif atom then acc ∪ {[atom]} else acc)
          removelist (elements SBUlist) in
  (SBUlist, removelist).

Definition get_linkers (molcif : mol3D) (adj_matrix : matrix)
    (allatomtypes : list string) : list (list nat) * list matrix :=
  let '(SBUlist, removelist) := get_linkers_sets molcif in
  let allatoms : gset nat := set_of (seq 0 (length adj_matrix)) in
  let linkers := allatoms ∖ removelist in
  get_closed_subgraph linkers removelist adj_matrix.

End WithLibs.
End Functionalizer.

(** ** More stand-ins for the examples *)

Module Ref2.
Import Ref.

(** A cycle basis given by hand: [cycles] for the graph [G], none for any
    other graph. *)
Definition cyclesLib (G : matrix) (cycles : list (list nat)) : GraphLib := {|
  shortest_path := bfs_path;
  minimum_cycle_basis := fun g => if bool_decide (g = G) then cycles else [];
  connected_components := component_labels |}.

(** A six-ring 1-2-3-4-5-6 with the tails 0 (on 1) and 7 (on 4) and the
    side group 8 (on 2). *)
Definition paddle : matrix :=
  graph_of_bonds 9 [(0,1);(1,2);(2,3);(3,4);(4,5);(5,6);(6,1);(4,7);(2,8)].

Definition paddle_ring : list (list nat) := [[1; 2; 3; 4; 5; 6]].

Definition paddle_mol : mol3D := mk_mol3D (replicate 9 (mk_atom3D "C" origin)) paddle.

End Ref2.

(** * Properties *)

#[local] Set Warnings "-clear-no-such-hyp".

(** A decidable statement that computes to false does not hold. *)
Ltac refute_by_computation :=
  match goal with
  | |- ~ ?P =>
      let Hb := fresh in
      assert (Hb : bool_decide P = false) by (vm_compute; reflexivity);
      apply bool_decide_eq_false in Hb; exact Hb
  | |- ?x <> ?y =>
      let Hb := fresh in
      assert (Hb : bool_decide (x = y) = false) by (vm_compute; reflexivity);
      apply bool_decide_eq_false in Hb; exact Hb
  end.

(** ** Lists *)

Lemma enumerate_snoc {A} (l : list A) x :
  enumerate (l ++ [x]) = enumerate l ++ [(length l, x)].
Proof.
  unfold enumerate. rewrite imap_app. simpl. by rewrite Nat.add_0_r.
Qed.

Lemma nth_middle_app {A} (l r : list A) x d n :
  n = length l -> nth n (l ++ x :: r) d = x.
Proof. intros ->. induction l; simpl; auto. Qed.

Lemma delete_middle_app {A} (l r : list A) x n :
  n = length l -> delete n (l ++ x :: r) = l ++ r.
Proof. intros ->. induction l; simpl; [done|]. by f_equal. Qed.

Lemma union_of_snoc ls l : union_of (ls ++ [l]) = union_of ls ∪ set_of l.
Proof.
  unfold union_of. rewrite fmap_app. apply leibniz_equiv.
  rewrite union_list_app. simpl. set_solver.
Qed.

(** ** The classification loop *)

Section Classifier.
Context {ML : Mol3DLib} {PL : PBCLib} {GL : GraphLib} {RT : Runtime}.
Variables (molcif : mol3D) (initial_SBU_list : list (list nat))
  (adj_matrix : matrix) (logpath linkerpath name : string) (cell_v : cell).

#[local] Abbreviation step := (classify_step molcif initial_SBU_list adj_matrix logpath
                                linkerpath name cell_v).
#[local] Abbreviation keptb := (is_kept molcif initial_SBU_list adj_matrix cell_v).
#[local] Abbreviation tally_ := (tally molcif initial_SBU_list adj_matrix cell_v).
#[local] Abbreviation kept_ := (kept molcif initial_SBU_list adj_matrix cell_v).
#[local] Abbreviation dropped_ := (dropped molcif initial_SBU_list adj_matrix cell_v).

Arguments classify_step : simpl never.

Lemma classify_step_kept T st ii (c : candidate) :
  nth ii (cl_linker_subgraphlist st) [] = c.2 ->
  keptb c = true ->
  let st' := step T st (ii, c.1) in
  cl_removelist st' = cl_removelist st /\ cl_SBUlist st' = cl_SBUlist st /\
  cl_linker_list st' = cl_linker_list st /\
  cl_linker_subgraphlist st' = cl_linker_subgraphlist st /\
  (max_min_linker_length st', min_max_linker_length st') =
    tally_ c (max_min_linker_length st, min_max_linker_length st).
Proof.
  intros Hsg Hk. unfold classify_step, tally. rewrite Hsg, Hk.
  unfold is_kept, verdict_of in Hk.
  fold (lengths_of initial_SBU_list adj_matrix c).
  destruct (lengths_of _ _ c) as [mn mx].
  destruct (classify _ _ _ _ _ _ _); try discriminate; simpl; auto.
Qed.

Lemma classify_step_dropped T st ii (c : candidate) :
  nth ii (cl_linker_subgraphlist st) [] = c.2 ->
  keptb c = false ->
  let st' := step T st (ii, c.1) in
  cl_removelist st' = cl_removelist st ∪ set_of (nth ii T []) /\
  cl_SBUlist st' = cl_SBUlist st ∪ set_of (nth ii T []) /\
  cl_linker_list st' = delete ii (cl_linker_list st) /\
  cl_linker_subgraphlist st' = delete ii (cl_linker_subgraphlist st) /\
  (max_min_linker_length st', min_max_linker_length st') =
    tally_ c (max_min_linker_length st, min_max_linker_length st).
Proof.
  intros Hsg Hk. unfold classify_step, tally. rewrite Hsg, Hk.
  unfold is_kept, verdict_of in Hk.
  fold (lengths_of initial_SBU_list adj_matrix c).
  destruct (lengths_of _ _ c) as [mn mx].
  destruct (classify _ _ _ _ _ _ _); try discriminate; simpl; auto.
Qed.

(** Popping by index while walking the list backwards is a filter: when the
    loop is over, the lists hold the kept candidates in their order, both
    sets have grown by the atoms of the dropped ones, and the two running
    lengths are a fold over the candidates. *)
Lemma classify_loop_gen (cs : list candidate) :
  forall T' K KG st,
  cl_linker_list st = cs.*1 ++ K ->
  cl_linker_subgraphlist st = cs.*2 ++ KG ->
  let st' := foldl (step (cs.*1 ++ T')) st (rev (enumerate cs.*1)) in
  cl_linker_list st' = (kept_ cs).*1 ++ K /\
  cl_linker_subgraphlist st' = (kept_ cs).*2 ++ KG /\
  cl_removelist st' = cl_removelist st ∪ union_of (dropped_ cs).*1 /\
  cl_SBUlist st' = cl_SBUlist st ∪ union_of (dropped_ cs).*1 /\
  (max_min_linker_length st', min_max_linker_length st') =
    foldr tally_ (max_min_linker_length st, min_max_linker_length st) cs.
Proof.
  induction cs as [|c cs IH] using rev_ind; intros T' K KG st HL HG.
  - simpl. unfold union_of. simpl. repeat split; auto; set_solver.
  - rewrite !fmap_app in *. simpl in *.
    rewrite enumerate_snoc, rev_unit. simpl.
    rewrite length_fmap.
    assert (HTe : (cs.*1 ++ [c.1]) ++ T' = cs.*1 ++ c.1 :: T') by (by rewrite <- app_assoc).
    rewrite HTe. clear HTe.
    assert (Hsg : nth (length cs) (cl_linker_subgraphlist st) [] = c.2).
    { rewrite HG, <- app_assoc. simpl. apply nth_middle_app. by rewrite length_fmap. }
    assert (HT : nth (length cs) (cs.*1 ++ c.1 :: T') [] = c.1).
    { simpl. apply nth_middle_app. by rewrite length_fmap. }
    rewrite foldr_app. simpl.
    unfold kept, dropped. rewrite !filter_app, !filter_cons, !filter_nil.
    fold (kept_ cs) (dropped_ cs).
    destruct (keptb c) eqn:Hk.
    + destruct (classify_step_kept (cs.*1 ++ c.1 :: T') st (length cs) c Hsg Hk)
        as (Hr & Hs & Hl & Hg & Hp).
      set (st1 := classify_step _ _ _ _ _ _ _ _ st _) in *.
      destruct (IH (c.1 :: T') (c.1 :: K) (c.2 :: KG) st1) as (IL & IG & IR & IS & IP).
      { rewrite Hl, HL, <- app_assoc. done. }
      { rewrite Hg, HG, <- app_assoc. done. }
      rewrite decide_True by done. rewrite decide_False by done.
      rewrite !fmap_app, !app_nil_r. simpl. rewrite <- !app_assoc. simpl.
      rewrite IL, IG, IR, IS, IP, Hr, Hs, Hp. done.
    + destruct (classify_step_dropped (cs.*1 ++ c.1 :: T') st (length cs) c Hsg Hk)
        as (Hr & Hs & Hl & Hg & Hp).
      set (st1 := classify_step _ _ _ _ _ _ _ _ st _) in *.
      destruct (IH (c.1 :: T') K KG st1) as (IL & IG & IR & IS & IP).
      { rewrite Hl, HL, <- app_assoc. simpl.
        apply delete_middle_app. by rewrite length_fmap. }
      { rewrite Hg, HG, <- app_assoc. simpl.
        apply delete_middle_app. by rewrite length_fmap. }
      rewrite decide_False by done. rewrite decide_True by done.
      rewrite !fmap_app, !app_nil_r. simpl.
      rewrite IL, IG, IR, IS, IP, Hr, Hs, Hp, HT.
      rewrite union_of_snoc.
      repeat split; auto; set_solver.
Qed.

Lemma classify_loop_spec (cs : list candidate) removelist SBUlist fs :
  let st := classify_loop molcif initial_SBU_list adj_matrix logpath linkerpath
                          name cell_v removelist SBUlist cs.*1 cs.*2 fs in
  cl_linker_list st = (kept_ cs).*1 /\
  cl_linker_subgraphlist st = (kept_ cs).*2 /\
  cl_removelist st = removelist ∪ union_of (dropped_ cs).*1 /\
  cl_SBUlist st = SBUlist ∪ union_of (dropped_ cs).*1 /\
  (max_min_linker_length st, min_max_linker_length st) = foldr tally_ (0%Z, 100%Z) cs.
Proof.
  unfold classify_loop.
  pose proof (classify_loop_gen cs [] [] []
    (mk_classifier removelist SBUlist cs.*1 cs.*2 0 100 fs)) as Hgen.
  rewrite !app_nil_r in Hgen. apply Hgen; done.
Qed.

Lemma tally_comm (c1 c2 : candidate) acc :
  tally_ c1 (tally_ c2 acc) = tally_ c2 (tally_ c1 acc).
Proof.
  unfold tally. destruct (keptb c1), (keptb c2); simpl; auto.
  f_equal; lia.
Qed.

(** C8.  Each step of the scan leaves max_min_linker_length where it was or
    raises it and leaves min_max_linker_length where it was or lowers it;
    and scanning the candidate fragments in any other order ends with the
    same pair. *)
Theorem anchor_monotonicity :
  (forall T st it,
     (max_min_linker_length st <= max_min_linker_length (step T st it))%Z /\
     (min_max_linker_length (step T st it) <= min_max_linker_length st)%Z) /\
  (forall (cs cs' : list candidate) removelist SBUlist fs,
     cs ≡ₚ cs' ->
     let st := classify_loop molcif initial_SBU_list adj_matrix logpath linkerpath
                 name cell_v removelist SBUlist cs.*1 cs.*2 fs in
     let st' := classify_loop molcif initial_SBU_list adj_matrix logpath linkerpath
                  name cell_v removelist SBUlist cs'.*1 cs'.*2 fs in
     (max_min_linker_length st, min_max_linker_length st) =
     (max_min_linker_length st', min_max_linker_length st')).
Proof.
  split.
  - intros T st [ii atoms_list]. unfold classify_step.
    destruct (linker_length _ _) as [mn mx].
    destruct (classify _ _ _ _ _ _ _); simpl; lia.
  - intros cs cs' removelist SBUlist fs Hperm. simpl.
    destruct (classify_loop_spec cs removelist SBUlist fs) as (_ & _ & _ & _ & ->).
    destruct (classify_loop_spec cs' removelist SBUlist fs) as (_ & _ & _ & _ & ->).
    apply (foldr_permutation (=) tally_ (0%Z, 100%Z)); [|done].
    intros. apply tally_comm.
Qed.

End Classifier.

(** ** The SBU seeder *)

Lemma elem_of_foldl_add_if (P : nat -> bool) (l : list nat) (S : gset nat) x :
  x ∈ foldl (fun acc a => if P a then acc ∪ {[a]} else acc) S l <->
  x ∈ S \/ (x ∈ l /\ P x = true).
Proof.
  revert S. induction l as [|a l IH]; intros S; simpl.
  - set_solver.
  - rewrite IH, elem_of_cons. destruct (P a) eqn:HP.
    + rewrite elem_of_union, elem_of_singleton. split.
      * intros [[Hx | ->] | [Hx HPx]]; auto.
      * intros [Hx | [[-> | Hx] HPx]]; auto.
    + split.
      * intros [Hx | [Hx HPx]]; auto.
      * intros [Hx | [[-> | Hx] HPx]]; [auto | congruence | auto].
Qed.

Lemma elem_of_foldl_add (l : list nat) (S : gset nat) x :
  x ∈ foldl (fun acc a => acc ∪ {[a]}) S l <-> x ∈ S \/ x ∈ l.
Proof.
  revert S. induction l as [|a l IH]; intros S; simpl; [set_solver|].
  rewrite IH. set_solver.
Qed.

Lemma elem_of_foldl_union {A} (f : A -> gset nat) (l : list A) (S : gset nat) x :
  x ∈ foldl (fun acc a => acc ∪ f a) S l <-> x ∈ S \/ exists a, a ∈ l /\ x ∈ f a.
Proof.
  revert S. induction l as [|a l IH]; intros S; simpl.
  - split; [auto | intros [Hx | (a & Ha & _)]; [done | inversion Ha]].
  - rewrite IH. split.
    + intros [Hx | (b & Hb & Hx)].
      * apply elem_of_union in Hx as [Hx | Hx]; [auto | right; exists a; set_solver].
      * right. exists b. set_solver.
    + intros [Hx | (b & Hb & Hx)]; [set_solver|].
      apply elem_of_cons in Hb as [-> | Hb]; [set_solver | right; eauto].
Qed.

Lemma elem_of_foldl_nested (P : nat -> bool) (g : nat -> list nat)
    (l : list nat) (S : gset nat) x :
  x ∈ foldl (fun acc a => foldl (fun acc v => if P v then acc ∪ {[v]} else acc) acc (g a)) S l <->
  x ∈ S \/ exists a, a ∈ l /\ x ∈ g a /\ P x = true.
Proof.
  revert S. induction l as [|a l IH]; intros S; simpl.
  - split; [auto | intros [Hx | (a & Ha & _)]; [done | inversion Ha]].
  - rewrite IH, elem_of_foldl_add_if. split.
    + intros [[Hx | [Hx HP]] | (b & Hb & Hx)]; [auto | right; exists a; set_solver |].
      right. exists b. set_solver.
    + intros [Hx | (b & Hb & Hx & HP)]; [auto|].
      apply elem_of_cons in Hb as [-> | Hb]; [auto | right; eauto].
Qed.

Section Seeder.
Context {ML : Mol3DLib} {PL : PBCLib} {GL : GraphLib} {RT : Runtime}.

Lemma prepare_initial_SBU_sets molcif allatomtypes metal_list logpath name fs :
  let r := (prepare_initial_SBU molcif allatomtypes metal_list logpath name fs).1 in
  let removelist := r.1.2 in
  let SBUlist := r.2 in
  (forall x, x ∈ SBUlist <->
     x ∈ findMetal molcif \/
     exists m, m ∈ findMetal molcif /\ x ∈ getBondedAtomsSmart molcif m) /\
  (forall x, x ∈ removelist <->
     x ∈ findMetal molcif \/
     (x ∈ SBUlist /\ only_metal_or_H molcif x = true) \/
     (exists a, a ∈ SBUlist /\ x ∈ getBondedAtomsSmart molcif a /\ is_H molcif x = true)).
Proof.
  simpl.
  set (SBUlist := foldl (fun acc metal => acc ∪ set_of (getBondedAtomsSmart molcif metal)) _ _).
  assert (HS : forall x, x ∈ SBUlist <->
     x ∈ findMetal molcif \/
     exists m, m ∈ findMetal molcif /\ x ∈ getBondedAtomsSmart molcif m).
  { intros x. unfold SBUlist. rewrite elem_of_foldl_union, elem_of_foldl_add.
    unfold set_of. setoid_rewrite elem_of_list_to_set. set_solver. }
  split; [exact HS|].
  intros x. rewrite elem_of_foldl_nested, elem_of_foldl_add_if, elem_of_foldl_add.
  setoid_rewrite elem_of_elements. set_solver.
Qed.

(** C4, as the code has it.  The removelist holds the metals, the atoms of
    the metals' first coordination shell (and the metals) whose every bonded
    neighbour is a metal or a hydrogen, and the hydrogens bonded to any of
    these; and every atom of the removelist that is not a hydrogen is a
    metal or such a first-shell atom. *)
Theorem seeder_removelist molcif allatomtypes metal_list logpath name fs :
  let r := (prepare_initial_SBU molcif allatomtypes metal_list logpath name fs).1 in
  let removelist := r.1.2 in
  let SBUlist := r.2 in
  let core x := x ∈ findMetal molcif \/
                (x ∈ SBUlist /\ only_metal_or_H molcif x = true) in
  (forall x, x ∈ SBUlist <->
     x ∈ findMetal molcif \/
     exists m, m ∈ findMetal molcif /\ x ∈ getBondedAtomsSmart molcif m) /\
  (forall x, core x -> x ∈ removelist) /\
  (forall h a, core a -> h ∈ getBondedAtomsSmart molcif a -> is_H molcif h = true ->
     h ∈ removelist) /\
  (forall x, x ∈ removelist -> is_H molcif x = false -> core x).
Proof.
  intros r removelist SBUlist core.
  destruct (prepare_initial_SBU_sets molcif allatomtypes metal_list logpath name fs)
    as [HS HR].
  fold r in HS, HR. fold SBUlist in HS, HR. fold removelist in HR.
  split; [exact HS|]. split; [|split].
  - intros x [Hx | Hx]; apply HR; auto.
  - intros h a Ha Hh HH. apply HR. right. right. exists a. split; [|auto].
    destruct Ha as [Ha | [Ha _]]; [apply HS; auto | done].
  - intros x Hx HH. apply HR in Hx as [Hx | [Hx | (a & _ & _ & Hx)]].
    + left; done.
    + right; done.
    + congruence.
Qed.

End Seeder.

(** ** Partitions *)

Lemma pairwise_disjoint_perm (l l' : list (gset nat)) :
  l ≡ₚ l' -> pairwise_disjoint l -> pairwise_disjoint l'.
Proof.
  induction 1 as [|A l l' Hp IH|A B l|l l' l'' Hp1 IH1 Hp2 IH2]; simpl.
  - done.
  - intros [HA Hl]. split; [by rewrite <- Hp | auto].
  - intros [HB [HA Hl]]. apply Forall_cons in HB as [HBA HB].
    split; [apply Forall_cons; split; [by symmetry | done] | split; done].
  - auto.
Qed.

Lemma partition_of_perm U (l l' : list (gset nat)) :
  l ≡ₚ l' -> partition_of U l -> partition_of U l'.
Proof.
  intros Hp [Hd HU]. split; [by eapply pairwise_disjoint_perm|].
  rewrite <- HU. apply leibniz_equiv. by rewrite Hp.
Qed.

Lemma partition_of_cons U R (l : list (gset nat)) :
  R ⊆ U -> partition_of (U ∖ R) l -> partition_of U (R :: l).
Proof.
  intros HR [Hd HU]. split; simpl.
  - split; [|done]. apply Forall_forall. intros B HB.
    assert (B ⊆ U ∖ R).
    { rewrite <- HU. intros x Hx. apply elem_of_union_list. eauto. }
    set_solver.
  - rewrite HU. apply leibniz_equiv. intros x.
    rewrite elem_of_union, elem_of_difference.
    destruct (decide (x ∈ R)); set_solver.
Qed.

(** ** Index bounds in a well-formed structure *)

Lemma nonzero_from_bound j row x :
  x ∈ nonzero_from j row -> j <= x < j + length row.
Proof.
  revert j. induction row as [|y row IH]; intros j; simpl.
  - intros Hx. inversion Hx.
  - destruct (y =? 0).
    + intros Hx. apply IH in Hx. lia.
    + intros Hx. apply elem_of_cons in Hx as [-> | Hx]; [lia|].
      apply IH in Hx. lia.
Qed.

Lemma bonded_bound (m : mol3D) i x :
  wf_mol m -> x ∈ bonded (graph m) i -> x < natoms m.
Proof.
  intros [Hlen Hrows] Hx. unfold bonded, nonzero_row in Hx.
  apply nonzero_from_bound in Hx.
  destruct (decide (i < length (graph m))) as [Hi | Hi].
  - assert (length (nth i (graph m) []) = natoms m).
    { rewrite Forall_forall in Hrows. apply Hrows.
      apply list_elem_of_In, nth_In, Hi. }
    lia.
  - rewrite nth_overflow in Hx by lia. simpl in Hx. lia.
Qed.

Section Partition.
Context {ML : Mol3DLib} {PL : PBCLib} {GL : GraphLib} {RT : Runtime}.

Lemma findMetal_bound (m : mol3D) x : x ∈ findMetal m -> x < natoms m.
Proof.
  unfold findMetal. rewrite list_elem_of_filter, elem_of_seq. lia.
Qed.

Lemma removelist_bound molcif allatomtypes metal_list logpath name fs x :
  wf_mol molcif ->
  x ∈ (prepare_initial_SBU molcif allatomtypes metal_list logpath name fs).1.1.2 ->
  x < natoms molcif.
Proof.
  intros Hwf Hx.
  destruct (prepare_initial_SBU_sets molcif allatomtypes metal_list logpath name fs)
    as [HS HR].
  apply HR in Hx as [Hx | [[Hx _] | (a & _ & Hx & _)]].
  - by apply findMetal_bound.
  - apply HS in Hx as [Hx | (m & _ & Hx)];
      [by apply findMetal_bound | by eapply bonded_bound].
  - by eapply bonded_bound.
Qed.

Lemma identify_lc_atoms_allatoms molcif removelist metal_list :
  allatoms (identify_lc_atoms molcif removelist metal_list) =
  set_of (seq 0 (length (graph molcif))).
Proof. unfold identify_lc_atoms. by destruct (get_closed_subgraph _ _ _). Qed.

Lemma identify_lc_atoms_linkers molcif removelist metal_list :
  linkers (identify_lc_atoms molcif removelist metal_list) =
  set_of (seq 0 (length (graph molcif))) ∖ removelist.
Proof. unfold identify_lc_atoms. by destruct (get_closed_subgraph _ _ _). Qed.

Lemma kept_dropped_perm molcif initial_SBU_list adj_matrix cell_v (cs : list candidate) :
  (kept molcif initial_SBU_list adj_matrix cell_v cs).*1 ++
  (dropped molcif initial_SBU_list adj_matrix cell_v cs).*1 ≡ₚ cs.*1.
Proof.
  rewrite <- fmap_app. apply fmap_Permutation.
  unfold kept, dropped.
  rewrite <- (filter_app_complement
                (fun c => is_kept molcif initial_SBU_list adj_matrix cell_v c = true) cs) at 3.
  apply Permutation_app; [done|].
  erewrite list_filter_iff; [done|].
  intros c. simpl. destruct (is_kept _ _ _ _ c); split; congruence.
Qed.

(** C2, as the code has it.  After classification the removelist the
    seeder returned, every kept linker fragment and every dropped ligand are
    pairwise disjoint and together make up all the atom indices, provided
    the closed-subgraph extractor splits its seed set into components, one
    subgraph each.  The final removelist is the seeder's plus the dropped
    ligands, and so is the final SBUlist: the dropped ligands lie inside
    SBUlist, they are not disjoint from it. *)
Theorem classification_partition (p : prepared) (fs : FS) :
  let k := MOF_classification p fs in
  wf_mol (p_molcif p) ->
  length (linker_list (k_lc k)) = length (linker_subgraphlist (k_lc k)) ->
  partition_of (linkers (k_lc k)) (set_of <$> linker_list (k_lc k)) ->
  partition_of (allatoms (k_lc k))
    (k_initial_removelist k ::
     (set_of <$> sl_linker_list (k_sl k)) ++ (set_of <$> dropped_ligands p k)) /\
  sl_removelist (k_sl k) = k_initial_removelist k ∪ union_of (dropped_ligands p k) /\
  sl_SBUlist (k_sl k) = k_initial_SBUlist k ∪ union_of (dropped_ligands p k).
Proof.
  unfold MOF_classification, dropped_ligands, candidates_of.
  destruct (prepare_initial_SBU _ _ _ _ _ fs) as [[[molcif removelist] SBUlist] fs1] eqn:Hprep.
  assert (Hmol : molcif = p_molcif p).
  { unfold prepare_initial_SBU in Hprep. by inversion Hprep. }
  subst molcif.
  set (lc := identify_lc_atoms (p_molcif p) removelist (p_metal_list p)).
  destruct (get_closed_subgraph removelist (linkers lc) (p_adj_matrix p))
    as [initial_SBU_list initial_SBU_subgraphlist] eqn:Hinit.
  simpl. rewrite Hinit. simpl.
  intros Hwf Hlen Hpart.
  set (cs := zip (linker_list lc) (linker_subgraphlist lc)).
  assert (H1 : cs.*1 = linker_list lc) by (apply fst_zip; lia).
  assert (H2 : cs.*2 = linker_subgraphlist lc) by (apply snd_zip; lia).
  unfold identify_short_linkers. simpl.
  rewrite <- H1, <- H2.
  destruct (classify_loop_spec (p_molcif p) initial_SBU_list (p_adj_matrix p)
              (p_logpath p) (p_linkerpath p) (p_name p) (p_cell_v p)
              cs removelist SBUlist fs1) as (HL & _ & HR & HS & _).
  split; [|split; [exact HR | exact HS]]. rewrite HL.
  assert (Hall : allatoms lc = set_of (seq 0 (natoms (p_molcif p)))).
  { unfold lc. rewrite identify_lc_atoms_allatoms. destruct Hwf as [Hl _]. by rewrite Hl. }
  assert (Hlinkers : linkers lc = allatoms lc ∖ removelist).
  { unfold lc. by rewrite identify_lc_atoms_linkers, identify_lc_atoms_allatoms. }
  apply partition_of_cons.
  - intros x Hx. rewrite Hall. apply elem_of_list_to_set, elem_of_seq.
    assert (x < natoms (p_molcif p)); [|lia].
    eapply removelist_bound; [done|]. rewrite Hprep. exact Hx.
  - rewrite <- Hlinkers. eapply partition_of_perm; [|exact Hpart].
    rewrite <- fmap_app. apply fmap_Permutation. rewrite <- H1 at 1.
    symmetry. apply kept_dropped_perm.
Qed.

End Partition.

(** ** The ambiguous case of the classifier *)

Section Ambiguous.
Context {ML : Mol3DLib} {PL : PBCLib} {GL : GraphLib} {RT : Runtime}.
Variables (molcif : mol3D) (initial_SBU_list : list (list nat))
  (adj_matrix : matrix) (logpath linkerpath name : string) (cell_v : cell).

(** C5.  A candidate fragment with at least two anchors that all touch one
    SBU component is a ligand exactly when both periodic-image offset sets
    hold one distinct offset: its atoms join removelist and SBUlist, it
    leaves the linker list, and a record goes to ligand.txt.  Otherwise it
    is a linker: the two sets and the linker list stay as they are. *)
Theorem single_SBU_fragment T st ii atoms_list :
  let a := find_anchors adj_matrix initial_SBU_list atoms_list in
  let subgraph := nth ii (cl_linker_subgraphlist st) [] in
  let images := pr_images molcif initial_SBU_list adj_matrix cell_v subgraph
                          atoms_list a in
  let st' := classify_step molcif initial_SBU_list adj_matrix logpath linkerpath
                           name cell_v T st (ii, atoms_list) in
  2 <= size (linkeranchors_list a) ->
  size (sbu_connect_list a) = 1 ->
  T !! ii = Some atoms_list ->
  (n_unique images.1 = 1 /\ n_unique images.2 = 1 ->
     cl_removelist st' = cl_removelist st ∪ set_of atoms_list /\
     cl_SBUlist st' = cl_SBUlist st ∪ set_of atoms_list /\
     cl_linker_list st' = delete ii (cl_linker_list st) /\
     cl_linker_subgraphlist st' = delete ii (cl_linker_subgraphlist st) /\
     trace (cl_fs st') =
       trace (cl_fs st) ++
       [Append (linkerpath +:+ "/ambiguous.txt")
               (anchors_text name a +:+ " set to be ligand" +:+ nl);
        Append (linkerpath +:+ "/ligand.txt")
               (anchors_text (name +:+ pretty ii) a +:+ nl)]) /\
  (~ (n_unique images.1 = 1 /\ n_unique images.2 = 1) ->
     cl_removelist st' = cl_removelist st /\
     cl_SBUlist st' = cl_SBUlist st /\
     cl_linker_list st' = cl_linker_list st /\
     cl_linker_subgraphlist st' = cl_linker_subgraphlist st /\
     trace (cl_fs st') =
       trace (cl_fs st) ++
       [Append (linkerpath +:+ "/ambiguous.txt")
               (anchors_text name a +:+ " set to be linker" +:+ nl)]).
Proof.
  intros a subgraph images st' Hanc Hsbu HT.
  assert (HnT : nth ii T [] = atoms_list) by (by apply nth_lookup_Some with (d := []) in HT).
  subst st'. unfold classify_step, classify.
  fold a. fold subgraph. fold images.
  destruct (linker_length subgraph _) as [mn mx].
  destruct (Nat.leb_spec 2 (size (linkeranchors_list a))) as [_|]; [|lia].
  rewrite Hsbu. simpl (2 <=? 1).
  destruct images as [sbu organic]. simpl.
  destruct (Nat.eqb_spec (n_unique sbu) 1) as [Hs | Hs];
    destruct (Nat.eqb_spec (n_unique organic) 1) as [Ho | Ho]; simpl;
    (split; [intros [? ?] | intros Hno]); try lia; try tauto;
    rewrite ?HnT; repeat split; rewrite <- ?app_assoc; done.
Qed.

End Ambiguous.

(** ** Capping placeholders *)

Lemma foldl_preserves {A B} (P : A -> Prop) (f : A -> B -> A) (l : list B) (a : A) :
  P a -> (forall a b, P a -> P (f a b)) -> P (foldl f a l).
Proof. revert a. induction l; simpl; auto. Qed.

Lemma place_X_placed molcif n0 st x :
  good_record molcif x -> placed molcif n0 st -> placed molcif n0 (place_X st x).
Proof.
  destruct x as [[new_atom replaced] anchor]. unfold good_record. simpl.
  intros -> (Hn & Hidx & Hat). unfold place_X.
  destruct (inb replaced _); [by repeat split|].
  unfold placed, frag_add, addAtom, natoms in *. simpl.
  rewrite length_app. simpl.
  set (m := length (atoms (f_mol (c_frag st)))) in *.
  replace (m + 1 - 1) with m by lia.
  split; [lia|]. split.
  - rewrite Hidx. replace (m + 1 - n0) with (S (m - n0)) by lia.
    rewrite seq_S. do 2 f_equal. lia.
  - intros k Hk. destruct (decide (k = m)) as [-> | Hne].
    + exists replaced. rewrite lookup_insert_eq. split; [done|].
      rewrite lookup_app_r by (unfold m; lia).
      unfold m. rewrite Nat.sub_diag. done.
    + destruct (Hat k) as (rep & Hd & Ha); [lia|].
      exists rep. rewrite lookup_insert_ne by done. split; [done|].
      rewrite lookup_app_l by (unfold m in *; lia). done.
Qed.

Lemma place_all_X_placed molcif f Xl :
  Forall (good_record molcif) Xl ->
  placed molcif (natoms (f_mol f)) (place_all_X f Xl).
Proof.
  intros HX. unfold place_all_X.
  assert (Hgen : forall st, placed molcif (natoms (f_mol f)) st ->
            placed molcif (natoms (f_mol f)) (foldl place_X st Xl)).
  { induction HX as [|x Xl Hx HX IH]; intros st Hst; simpl; [done|].
    apply IH. by apply place_X_placed. }
  apply Hgen. unfold placed. simpl. rewrite Nat.sub_diag.
  split; [done|]. split; [done|]. intros k Hk. lia.
Qed.

(** The statement of C7 for one assembled fragment. *)
Lemma placed_at_tail molcif n0 (c : capped) :
  placed molcif n0 c ->
  (forall k, k ∈ c_final_X_indices c ->
     exists replaced,
       f_dict (c_frag c) !! k = Some replaced /\
       atoms (f_mol (c_frag c)) !! k =
         Some (mk_atom3D "X" (coords (getAtom molcif replaced)))) /\
  (forall k j, k ∈ c_final_X_indices c -> j < natoms (f_mol (c_frag c)) ->
     j ∉ c_final_X_indices c -> j < k).
Proof.
  intros (Hn & Hidx & Hat). rewrite Hidx. split.
  - intros k Hk. apply elem_of_seq in Hk. apply Hat. lia.
  - intros k j Hk Hj Hnot. apply elem_of_seq in Hk.
    rewrite elem_of_seq in Hnot. lia.
Qed.

Section Caps.
Context {ML : Mol3DLib} {PL : PBCLib} {GL : GraphLib} {RT : Runtime}.

Lemma cap_scan_good molcif main_paths f :
  Forall (good_record molcif) (cap_scan molcif main_paths f).1.2.
Proof.
  unfold cap_scan.
  apply (foldl_preserves (fun st => Forall (good_record molcif) st.1.2)); [done|].
  intros st a Hst.
  apply (foldl_preserves (fun st => Forall (good_record molcif) st.1.2)); [done|].
  clear st Hst. intros [[f' Xl] chk] b Hst. unfold cap_step. simpl in *.
  destruct (_ && _); simpl; [|done].
  apply Forall_app. split; [done|]. by apply Forall_singleton.
Qed.

Lemma linker_scan_good molcif all_SBU_atoms del linker :
  Forall (good_record molcif)
    (foldl (linker_atom_step molcif all_SBU_atoms del) (empty_fragment, []) linker).2.
Proof.
  apply (foldl_preserves (fun st => Forall (good_record molcif) st.2)); [done|].
  intros st val Hst. unfold linker_atom_step.
  destruct (negb _); [|done].
  apply (foldl_preserves (fun st => Forall (good_record molcif) st.2)); [done|].
  clear st Hst. intros st b Hst. unfold linker_bond_step.
  destruct (_ && _); [|done].
  apply (foldl_preserves (fun st => Forall (good_record molcif) st.2)); [done|].
  clear st Hst. intros st s Hst. unfold linker_sub_step.
  destruct (_ && _); simpl; [|done].
  apply Forall_app. split; [done|]. by apply Forall_singleton.
Qed.

(** C7.  In every fragment [breakdown_MOF] assembles, for an SBU or for a
    linker, each capping placeholder is an "X" created at the position of
    the atom of molcif it replaces, and every placeholder's local index is
    greater than the local index of every atom that is not a placeholder. *)
Theorem placeholders_at_tail (molcif : mol3D) :
  (forall main_paths subcycle_list flat_subcycle_list SBU c,
     assemble_SBU molcif main_paths subcycle_list flat_subcycle_list SBU = Ok c ->
     (forall k, k ∈ c_final_X_indices c ->
        exists replaced,
          f_dict (c_frag c) !! k = Some replaced /\
          atoms (f_mol (c_frag c)) !! k =
            Some (mk_atom3D "X" (coords (getAtom molcif replaced)))) /\
     (forall k j, k ∈ c_final_X_indices c -> j < natoms (f_mol (c_frag c)) ->
        j ∉ c_final_X_indices c -> j < k)) /\
  (forall all_SBU_atoms atoms_to_be_deleted_from_linker linker,
     let c := assemble_linker molcif all_SBU_atoms atoms_to_be_deleted_from_linker
                              linker in
     (forall k, k ∈ c_final_X_indices c ->
        exists replaced,
          f_dict (c_frag c) !! k = Some replaced /\
          atoms (f_mol (c_frag c)) !! k =
            Some (mk_atom3D "X" (coords (getAtom molcif replaced)))) /\
     (forall k j, k ∈ c_final_X_indices c -> j < natoms (f_mol (c_frag c)) ->
        j ∉ c_final_X_indices c -> j < k)).
Proof.
  split.
  - intros main_paths subcycle_list flat SBU c Hc. unfold assemble_SBU in Hc.
    destruct (seed_loop _ _ _ _ _) as [[f b]|e]; simpl in Hc; [|discriminate].
    pose proof (cap_scan_good molcif main_paths (merge_shared molcif flat f b)) as Hgood.
    destruct (cap_scan _ _ _) as [[f' Xl] chk]. simpl in Hgood.
    inversion Hc; subst c.
    eapply placed_at_tail, place_all_X_placed, Hgood.
  - intros all_SBU_atoms del linker. unfold assemble_linker.
    pose proof (linker_scan_good molcif all_SBU_atoms del linker) as Hgood.
    destruct (foldl _ _ linker) as [f Xl]. simpl in *.
    eapply placed_at_tail, place_all_X_placed, Hgood.
Qed.

(** C6.  A linker fragment is passed over exactly when it has no atom, or
    its bond graph over the atoms that are not placeholders has more than
    one connected component, or fewer than 3 of its atoms are not
    placeholders ([count_atoms], see [count_atoms_linker] below); a fragment
    passed over leaves no trace, and one that is not is written whenever
    the write guard of line 369 holds. *)
Theorem linker_skip molcif name cell_v linkerpath all_SBU_atoms
    atoms_to_be_deleted_from_linker st i linker :
  let c := assemble_linker molcif all_SBU_atoms atoms_to_be_deleted_from_linker
                           linker in
  let linker_mol := f_mol (c_frag c) in
  let st' := linker_body molcif name cell_v linkerpath all_SBU_atoms
                         atoms_to_be_deleted_from_linker st (i, linker) in
  (linker_skipped molcif c = true <->
     natoms linker_mol = 0 \/ 1 < no_X_components molcif c \/
     count_atoms linker_mol < 3) /\
  (linker_skipped molcif c = true -> st' = st) /\
  (linker_skipped molcif c = false ->
     linker_guard linkerpath name i (st_fs st) = true ->
     exists m header,
       trace (st_fs st') =
         trace (st_fs st) ++
         [WriteGraph (linker_xyzname linkerpath name i) (sym <$> atoms linker_mol)
                     (ix_ (graph molcif) (f_added (c_frag c)));
          WriteXYZ (linker_xyzname linkerpath name i) m header]).
Proof.
  intros c linker_mol st'. split; [|split].
  - unfold linker_skipped. fold linker_mol.
    rewrite !orb_true_iff, Nat.eqb_eq, !Nat.ltb_lt. tauto.
  - intros Hs. subst st'. unfold linker_body. fold c. by rewrite Hs.
  - intros Hs Hg. subst st'. unfold linker_body. fold c. rewrite Hs, Hg.
    simpl. eexists _, _. rewrite <- app_assoc. simpl. reflexivity.
Qed.

End Caps.

(** ** Counting the atoms that are not placeholders *)

Lemma filter_all (l : list atom3D) :
  Forall (fun a => sym a <> "X") l -> filter (fun a => sym a <> "X") l = l.
Proof.
  induction 1 as [|a l Ha Hl IH]; [done|].
  rewrite filter_cons_True by done. by rewrite IH.
Qed.

Lemma filter_none (l : list atom3D) :
  Forall (fun a => sym a = "X") l -> filter (fun a => sym a <> "X") l = [].
Proof.
  induction 1 as [|a l Ha Hl IH]; [done|].
  rewrite filter_cons_False by (intros Hne; done). exact IH.
Qed.

Lemma place_all_X_atoms f Xl :
  exists xs, atoms (f_mol (c_frag (place_all_X f Xl))) = atoms (f_mol f) ++ xs.
Proof.
  unfold place_all_X.
  assert (Hgen : forall st, exists xs,
            atoms (f_mol (c_frag (foldl place_X st Xl))) =
            atoms (f_mol (c_frag st)) ++ xs).
  { induction Xl as [|x Xl IH]; intros st; simpl.
    - exists []. by rewrite app_nil_r.
    - destruct (IH (place_X st x)) as [xs Hxs]. rewrite Hxs.
      destruct x as [[new_atom replaced] anchor]. unfold place_X.
      destruct (inb replaced _); [by exists xs|].
      simpl. exists (new_atom :: xs). by rewrite <- app_assoc. }
  apply (Hgen (mk_capped f [] [] [])).
Qed.

(** [count_atoms] counts by symbol; in a fragment built from a structure
    none of whose atoms is called "X", that is the number of atoms that are
    not capping placeholders. *)
Lemma count_atoms_placed molcif f Xl :
  Forall (good_record molcif) Xl ->
  Forall (fun a => sym a <> "X") (atoms (f_mol f)) ->
  let c := place_all_X f Xl in
  count_atoms (f_mol (c_frag c)) = natoms (f_mol f) /\
  natoms (f_mol (c_frag c)) = natoms (f_mol f) + length (c_final_X_indices c).
Proof.
  intros Hgood Hbase c.
  destruct (place_all_X_placed molcif f Xl Hgood) as (Hn & Hidx & Hat).
  destruct (place_all_X_atoms f Xl) as [xs Hxs].
  fold c in Hn, Hidx, Hat, Hxs.
  assert (HX : Forall (fun a => sym a = "X") xs).
  { apply Forall_lookup. intros j a Hj.
    destruct (Hat (natoms (f_mol f) + j)) as (replaced & _ & Ha).
    { unfold natoms in *. rewrite Hxs, length_app. apply lookup_lt_Some in Hj. lia. }
    rewrite Hxs in Ha. unfold natoms in Ha.
    rewrite lookup_app_r in Ha by lia.
    replace (length (atoms (f_mol f)) + j - length (atoms (f_mol f))) with j in Ha by lia.
    rewrite Hj in Ha. by inversion Ha. }
  split.
  - unfold count_atoms. rewrite Hxs, filter_app, length_app.
    rewrite (filter_all (atoms (f_mol f))) by done.
    rewrite (filter_none xs) by done. unfold natoms. simpl. lia.
  - rewrite Hidx, length_seq. lia.
Qed.

Lemma getAtom_not_X molcif v :
  Forall (fun a => sym a <> "X") (atoms molcif) -> sym (getAtom molcif v) <> "X".
Proof.
  intros Hall. unfold getAtom.
  destruct (nth_in_or_default v (atoms molcif) no_atom) as [Hin | ->]; [|done].
  rewrite Forall_forall in Hall. apply Hall. by apply list_elem_of_In.
Qed.

Lemma linker_atoms_not_X molcif all_SBU_atoms del linker :
  Forall (fun a => sym a <> "X") (atoms molcif) ->
  Forall (fun a => sym a <> "X")
    (atoms (f_mol (foldl (linker_atom_step molcif all_SBU_atoms del)
                         (empty_fragment, []) linker).1)).
Proof.
  intros Hall.
  set (P := fun st : fragment * list X_record =>
              Forall (fun a => sym a <> "X") (atoms (f_mol st.1))).
  assert (Hadd : forall f v, Forall (fun a => sym a <> "X") (atoms (f_mol f)) ->
            Forall (fun a => sym a <> "X")
                   (atoms (f_mol (frag_add f (getAtom molcif v) v)))).
  { intros f v Hf. simpl. apply Forall_app. split; [done|].
    apply Forall_singleton. by apply getAtom_not_X. }
  apply (foldl_preserves P); [by constructor|].
  intros st val Hst. unfold linker_atom_step.
  destruct (negb _); [|done].
  apply (foldl_preserves P); [by apply Hadd|].
  clear st Hst. intros st b Hst. unfold linker_bond_step.
  destruct (_ && _); [|done].
  apply (foldl_preserves P); [by apply Hadd|].
  clear st Hst. intros st s Hst. unfold linker_sub_step.
  destruct (_ && _); done.
Qed.

(** In a linker fragment [count_atoms] is the number of local indices that
    are not in [final_X_indices_linker]. *)
Lemma count_atoms_linker molcif all_SBU_atoms del linker :
  Forall (fun a => sym a <> "X") (atoms molcif) ->
  let c := assemble_linker molcif all_SBU_atoms del linker in
  count_atoms (f_mol (c_frag c)) =
  natoms (f_mol (c_frag c)) - length (c_final_X_indices c).
Proof.
  intros Hall. unfold assemble_linker.
  pose proof (linker_scan_good molcif all_SBU_atoms del linker) as Hgood.
  pose proof (linker_atoms_not_X molcif all_SBU_atoms del linker Hall) as Hbase.
  destruct (foldl _ _ linker) as [f Xl]. simpl in *.
  destruct (count_atoms_placed molcif f Xl Hgood Hbase) as [Hc Hn].
  rewrite Hc, Hn. lia.
Qed.

(** ** The periodic check *)

Lemma Qgtb_lt (a b : Q) : Qgtb a b = true <-> (b < a)%Q.
Proof.
  unfold Qgtb. rewrite negb_true_iff. split.
  - intros Hle. apply Qnot_le_lt. intros Hab. apply Qle_bool_iff in Hab. congruence.
  - intros Hlt. destruct (Qle_bool a b) eqn:E; [|done].
    apply Qle_bool_iff in E. exfalso. by apply (Qlt_not_le b a).
Qed.

Lemma fold_max_gt (l : list Q) (m0 t : Q) :
  Qgtb (foldl (fun maxd d => if Qgtb d maxd then d else maxd) m0 l) t = true <->
  Qgtb m0 t = true \/ exists d, d ∈ l /\ Qgtb d t = true.
Proof.
  revert m0. induction l as [|d l IH]; intros m0; simpl.
  - split; [auto | intros [Hm | (d & Hd & _)]; [done | inversion Hd]].
  - rewrite IH. split.
    + intros [Hm | (d' & Hd' & Ht)].
      * destruct (Qgtb d m0) eqn:E; [right; exists d; split; [left | done] | auto].
      * right. exists d'. split; [by right | done].
    + intros [Hm | (d' & Hd' & Ht)].
      * left. destruct (Qgtb d m0) eqn:E; [|done].
        apply Qgtb_lt. apply Qgtb_lt in Hm, E. by eapply Qlt_trans.
      * apply elem_of_cons in Hd' as [-> | Hd']; [|right; eauto].
        left. destruct (Qgtb d m0) eqn:E; [done|].
        apply Qgtb_lt. apply Qgtb_lt in Ht.
        eapply Qlt_le_trans; [exact Ht|].
        apply Qnot_lt_le. intros Hlt. apply Qgtb_lt in Hlt. congruence.
Qed.

Lemma nonzero_from_spec j row x :
  x ∈ nonzero_from j row <-> j <= x /\ nth (x - j) row 0 <> 0.
Proof.
  revert j. induction row as [|y row IH]; intros j; simpl.
  - split; [intros Hx; inversion Hx | intros [_ Hx]]. by destruct (x - j).
  - destruct (Nat.eqb_spec y 0) as [-> | Hy].
    + rewrite IH. split.
      * intros [Hj Hx]. split; [lia|].
        replace (x - j) with (S (x - S j)) by lia. done.
      * intros [Hj Hx]. destruct (x - j) as [|n] eqn:E; [done|].
        split; [lia|]. replace (x - S j) with n by lia. done.
    + rewrite elem_of_cons, IH. split.
      * intros [-> | [Hj Hx]]; [by rewrite Nat.sub_diag|].
        split; [lia|]. replace (x - j) with (S (x - S j)) by lia. done.
      * intros [Hj Hx]. destruct (x - j) as [|n] eqn:E; [left; lia|].
        right. split; [lia|]. replace (x - S j) with n by lia. done.
Qed.

(** The pairs the check runs over are the bonded pairs of the graph. *)
Lemma nonzero_pairs_spec (g : matrix) i j :
  (i, j) ∈ nonzero_pairs g <-> entry g i j <> 0.
Proof.
  unfold nonzero_pairs, entry. rewrite list_elem_of_In, in_concat. split.
  - intros (l & Hl & Hij). apply list_elem_of_In in Hl, Hij.
    apply elem_of_lookup_imap in Hl as (i' & row & -> & Hrow).
    apply list_elem_of_fmap in Hij as (j' & Heq & Hj). inversion Heq; subst i' j'.
    apply nonzero_from_spec in Hj as [_ Hj]. rewrite Nat.sub_0_r in Hj.
    by rewrite (nth_lookup_Some _ _ [] _ Hrow).
  - intros Hne. destruct (g !! i) as [row|] eqn:Hrow.
    + exists ((fun j => (i, j)) <$> nonzero_row row). split; apply list_elem_of_In.
      * apply elem_of_lookup_imap. eauto.
      * apply list_elem_of_fmap. exists j. split; [done|].
        apply nonzero_from_spec. rewrite Nat.sub_0_r.
        rewrite (nth_lookup_Some _ _ [] _ Hrow) in Hne. split; [lia | done].
    + apply lookup_ge_None in Hrow. rewrite (nth_overflow g) in Hne by lia.
      by destruct j.
Qed.

Lemma maxdist2_fmap (g : matrix) (cs : list point) :
  maxdist2 g cs =
  foldl (fun maxd d => if Qgtb d maxd then d else maxd) 0%Q
        ((fun p => sqdist (nth p.1 cs origin) (nth p.2 cs origin)) <$> nonzero_pairs g).
Proof.
  unfold maxdist2. generalize 0%Q. induction (nonzero_pairs g) as [|[r1 r2] l IH];
    intros m0; simpl; [done|]. apply IH.
Qed.

(** [periodic_checker] answers yes exactly when two bonded atoms lie more
    than 4 apart in the coordinates it is given. *)
Lemma periodic_checker_spec (g : matrix) (cs : list point) (labels : list string) :
  periodic_checker g cs labels = true <->
  exists r1 r2, entry g r1 r2 <> 0 /\
                (16 < sqdist (nth r1 cs origin) (nth r2 cs origin))%Q.
Proof.
  unfold periodic_checker. rewrite maxdist2_fmap.
  rewrite fold_max_gt. split.
  - intros [H0 | (d & Hd & Ht)]; [by vm_compute in H0|].
    apply list_elem_of_fmap in Hd as ([r1 r2] & -> & Hp).
    exists r1, r2. split; [by apply nonzero_pairs_spec | by apply Qgtb_lt].
  - intros (r1 & r2 & Hne & Hlt). right.
    exists (sqdist (nth r1 cs origin) (nth r2 cs origin)). split.
    + apply list_elem_of_fmap. exists (r1, r2). split; [done|].
      by apply nonzero_pairs_spec.
    + by apply Qgtb_lt.
Qed.

Lemma contains_app_r (needle a b : string) :
  contains needle b = true -> contains needle (a +:+ b) = true.
Proof.
  intros Hb. induction a as [|c a IH]; simpl; [done|].
  rewrite IH. apply orb_true_r.
Qed.

Lemma rod_name_marked (sbupath : pypath) (name : string) (i : nat) :
  contains "1Drod" (sbu_xyzname sbupath name i true) = true.
Proof.
  unfold sbu_xyzname. do 3 apply contains_app_r. reflexivity.
Qed.

Section Rod.
Context {ML : Mol3DLib} {PL : PBCLib} {GL : GraphLib} {RT : Runtime}.

(** C3, as the code has it.  An SBU fragment that is written is written
    under the 1D-rod name exactly when two bonded atoms of the fragment lie
    more than 4 apart in the coordinates read back from the fragment after
    the capping bonds were shortened; and when that is so [breakdown_MOF]
    leaves the loop over the SBUs at once with return code 4. *)
Theorem rod_after_correction molcif name cell_v anchoring_atoms sbupath
    connections_list connections_subgraphlist subcycle_list flat_subcycle_list
    st i SBU main_paths current_longest c :
  scan_linkers molcif anchoring_atoms (enumerate connections_list)
               connections_subgraphlist [] 0 = Ok (main_paths, current_longest) ->
  2 < current_longest ->
  assemble_SBU molcif (elements (set_of main_paths)) subcycle_list
               flat_subcycle_list SBU = Ok c ->
  sbu_guard sbupath name i (st_fs st) = true ->
  let tempgraph := ix_ (graph molcif) (f_added (c_frag c)) in
  let r := regenerate cell_v c tempgraph in
  let is_periodic := periodic_checker tempgraph (new_coords r) (r_labels r) in
  let written :=
    emit (WriteXYZ (sbu_xyzname sbupath name i is_periodic) (r_mol r)
                   ("   " +:+ X_string (c_final_X_indices c)))
         (emit (WriteGraph (sbu_xyzname sbupath name i is_periodic)
                           (r_labels r) (r_adj_mat r)) (st_fs st)) in
  let result := SBU_body molcif name cell_v anchoring_atoms sbupath
                         connections_list connections_subgraphlist
                         subcycle_list flat_subcycle_list st (i, SBU) in
  (is_periodic = true <->
     exists r1 r2, entry tempgraph r1 r2 <> 0 /\
       (16 < sqdist (nth r1 (new_coords r) origin) (nth r2 (new_coords r) origin))%Q) /\
  (is_periodic = true -> result = Return (PyInt 4) written) /\
  (is_periodic = false ->
     result = Return (PyInt 4) written \/
     exists st', result = Continue st' /\ st_fs st' = written).
Proof.
  intros Hscan Hlong Hasm Hguard tempgraph r is_periodic written result.
  split; [apply periodic_checker_spec|].
  assert (Hres : result = write_SBU sbupath name i c r is_periodic st).
  { subst result. unfold SBU_body. rewrite Hscan.
    destruct (Nat.leb_spec current_longest 2); [lia|]. by rewrite Hasm. }
  rewrite Hres. unfold write_SBU. rewrite Hguard. fold written. split.
  - intros Hp. subst written. rewrite Hp. by rewrite rod_name_marked.
  - intros Hp. destruct (contains _ _); [by left|]. right. eexists. split; done.
Qed.

(** C9.  With a non-empty SBU list and a longest anchor-to-anchor path
    above 2, when the assembly of the first SBU runs to its end and the
    write guard of line 282 fails for it (sbupath is falsy, or the file
    sbupath/name0.xyz exists), [breakdown_MOF] raises NameError at the first
    use of xyzname, having written nothing. *)
Theorem xyzname_unbound SBU rest SBU_subgraph molcif depth name cell_v
    anchoring_atoms sbupath connections_list connections_subgraphlist
    linkerpath fs main_paths current_longest c :
  scan_linkers molcif anchoring_atoms (enumerate connections_list)
               connections_subgraphlist [] 0 = Ok (main_paths, current_longest) ->
  2 < current_longest ->
  assemble_SBU molcif (elements (set_of main_paths))
               (get_molcif_cycles_no_metal molcif).1
               (get_molcif_cycles_no_metal molcif).2 SBU = Ok c ->
  sbu_guard sbupath name 0 fs = false ->
  breakdown_MOF (SBU :: rest) SBU_subgraph molcif depth name cell_v anchoring_atoms
                sbupath connections_list connections_subgraphlist linkerpath fs
  = (Raised NameError, fs).
Proof.
  intros Hscan Hlong Hasm Hguard. unfold breakdown_MOF.
  destruct (get_molcif_cycles_no_metal molcif) as [subcycle_list flat] eqn:Hcyc.
  simpl in Hasm. unfold enumerate at 1. simpl.
  unfold SBU_body at 1. rewrite Hscan.
  destruct (Nat.leb_spec current_longest 2); [lia|]. rewrite Hasm.
  unfold write_SBU. simpl. rewrite Hguard. done.
Qed.

End Rod.

(** ** What the stages before the assembly write *)

Lemma quiet_refl fs : quiet fs fs.
Proof. exists []. by rewrite app_nil_r. Qed.

Lemma quiet_trans fs1 fs2 fs3 : quiet fs1 fs2 -> quiet fs2 fs3 -> quiet fs1 fs3.
Proof.
  intros (e1 & H1 & F1) (e2 & H2 & F2). exists (e1 ++ e2).
  rewrite H2, H1, app_assoc. split; [done | by apply Forall_app].
Qed.

Lemma quiet_emit e fs : is_fragment_write e = false -> quiet fs (emit e fs).
Proof. intros He. exists [e]. split; [done | by apply Forall_singleton]. Qed.

Lemma quiet_write2file pt fn st fs : quiet fs (write2file pt fn st fs).
Proof. by apply quiet_emit. Qed.

Lemma quiet_foldl {A} (f : FS -> A -> FS) (l : list A) fs :
  (forall fs a, quiet fs (f fs a)) -> quiet fs (foldl f fs l).
Proof.
  intros Hf. revert fs. induction l as [|a l IH]; intros fs; simpl.
  - apply quiet_refl.
  - eapply quiet_trans; [apply Hf | apply IH].
Qed.

Lemma quiet_make_dirs path fs : quiet fs (make_dirs path fs).
Proof.
  apply quiet_foldl. intros fs' d. destruct (negb _);
    [by apply quiet_emit | apply quiet_refl].
Qed.

Section Stages.
Context {ML : Mol3DLib} {PL : PBCLib} {GL : GraphLib} {RT : Runtime}.

Lemma quiet_precheck data path xyzpath fs :
  quiet fs (MOF_precheck data path xyzpath fs).2.
Proof.
  unfold MOF_precheck, failed.
  destruct (negb (truthy path)); [apply quiet_refl|].
  destruct (readcif data) as [[cpar allatomtypes] fcoords].
  set (base := if ends_with_slash _ then _ else _).
  pose proof (quiet_make_dirs base fs) as Hd.
  destruct (2000 <? _); simpl.
  { eapply quiet_trans; [exact Hd | apply quiet_write2file]. }
  destruct (compute_adj_matrix _ _) as [adj|]; simpl.
  2: { eapply quiet_trans; [exact Hd | apply quiet_write2file]. }
  destruct (connected_components adj) as [n labels].
  assert (Hx : quiet fs (emit (WriteXYZandGraph xyzpath allatomtypes (mkcell cpar) fcoords adj)
                              (make_dirs base fs))).
  { eapply quiet_trans; [exact Hd | by apply quiet_emit]. }
  destruct (negb (0 <? _)); simpl.
  { eapply quiet_trans; [exact Hx | apply quiet_write2file]. }
  destruct (existsb _ _); simpl.
  { eapply quiet_trans; [exact Hx | apply quiet_write2file]. }
  destruct (1 <? n); simpl; [|exact Hx].
  eapply quiet_trans; [exact Hx | apply quiet_write2file].
Qed.

Lemma quiet_prepare molcif allatomtypes metal_list logpath name fs :
  quiet fs (prepare_initial_SBU molcif allatomtypes metal_list logpath name fs).2.
Proof.
  unfold prepare_initial_SBU. simpl. apply quiet_foldl.
  intros. apply quiet_write2file.
Qed.

Lemma quiet_classify_step molcif initial_SBU_list adj_matrix logpath linkerpath
    name cell_v T st it :
  quiet (cl_fs st)
        (cl_fs (classify_step molcif initial_SBU_list adj_matrix logpath linkerpath
                              name cell_v T st it)).
Proof.
  destruct it as [ii atoms_list]. unfold classify_step.
  destruct (linker_length _ _) as [mn mx].
  destruct (classify _ _ _ _ _ _ _); simpl.
  - apply quiet_refl.
  - apply quiet_write2file.
  - eapply quiet_trans; apply quiet_write2file.
  - eapply quiet_trans; apply quiet_write2file.
Qed.

Lemma quiet_short_linkers molcif initial_SBU_list initial_SBU_subgraphlist
    removelist linkers_ linker_list_ linker_subgraphlist_ adj_matrix SBUlist
    logpath linkerpath name cell_v fs :
  quiet fs (sl_fs (identify_short_linkers molcif initial_SBU_list
                     initial_SBU_subgraphlist removelist linkers_ linker_list_
                     linker_subgraphlist_ adj_matrix SBUlist logpath linkerpath
                     name cell_v fs)).
Proof.
  unfold identify_short_linkers. simpl.
  assert (Hloop : quiet fs (cl_fs (classify_loop molcif initial_SBU_list adj_matrix
            logpath linkerpath name cell_v removelist SBUlist linker_list_
            linker_subgraphlist_ fs))).
  { unfold classify_loop.
    set (st0 := mk_classifier _ _ _ _ _ _ fs).
    change fs with (cl_fs st0) at 1. generalize st0.
    induction (rev (enumerate linker_list_)) as [|it l IH]; intros st; simpl.
    - apply quiet_refl.
    - eapply quiet_trans; [apply quiet_classify_step | apply IH]. }
  destruct (_ <? 3)%Z.
  - eapply quiet_trans; [exact Hloop|].
    eapply quiet_trans; apply quiet_write2file.
  - eapply quiet_trans; [exact Hloop | apply quiet_write2file].
Qed.

Lemma quiet_classification p fs :
  quiet fs (sl_fs (k_sl (MOF_classification p fs))).
Proof.
  unfold MOF_classification.
  pose proof (quiet_prepare (p_molcif p) (p_allatomtypes p) (p_metal_list p)
                            (p_logpath p) (p_name p) fs) as Hp.
  destruct (prepare_initial_SBU _ _ _ _ _ fs) as [[[molcif removelist] SBUlist] fs1].
  destruct (get_closed_subgraph removelist _ _) as [isl isg]. simpl in Hp.
  cbn [k_sl]. eapply quiet_trans; [exact Hp | apply quiet_short_linkers].
Qed.

(** With min_max_linker_length at most 2 the run ends in the last branch
    of [make_MOF_fragments]: return code 3, no fragment written. *)
Lemma degenerate_regime p depth k :
  (sl_min_max_linker_length (k_sl k) <= 2)%Z ->
  exists fs', MOF_regime p depth k = (Returned (PyInt 3), fs') /\
              quiet (sl_fs (k_sl k)) fs'.
Proof.
  intros Hle. unfold MOF_regime.
  destruct (Z.ltb_spec 2 (sl_min_max_linker_length (k_sl k))); [lia|].
  destruct (get_closed_subgraph (sl_removelist _) _ _) as [l g].
  destruct (include_extra_shells l g _ _) as [l1 g1].
  destruct (include_extra_shells l1 g1 _ _) as [l2 g2].
  eexists. split; [reflexivity|].
  eapply quiet_trans; [|apply quiet_write2file].
  eapply quiet_trans; [|apply quiet_write2file].
  destruct (negb _); [apply quiet_write2file | apply quiet_refl].
Qed.

(** C1, as the code has it.  When the classification of a structure ends
    with min_max_linker_length equal to 2, [make_MOF_fragments] returns 3
    (not 2), and no fragment file is written on the way. *)
Theorem two_atom_linkers_return_3 data depth path xyzpath fs p fs1 :
  MOF_precheck data path xyzpath fs = (inr p, fs1) ->
  sl_min_max_linker_length (k_sl (MOF_classification p fs1)) = 2%Z ->
  exists fs',
    make_MOF_fragments data depth path xyzpath fs = (Returned (PyInt 3), fs') /\
    quiet fs fs'.
Proof.
  intros Hpre Hmm. unfold make_MOF_fragments. rewrite Hpre.
  destruct (degenerate_regime p depth (MOF_classification p fs1)) as (fs' & Hr & Hq);
    [lia|].
  exists fs'. split; [done|].
  pose proof (quiet_precheck data path xyzpath fs) as H0. rewrite Hpre in H0.
  eapply quiet_trans; [exact H0|].
  eapply quiet_trans; [apply quiet_classification | exact Hq].
Qed.

(** C10.  A structure that passes the three earlier checks (at most 2000
    atoms, no atomic overlap, at least one metal) and whose bond graph has a
    connected component without a metal makes [make_MOF_fragments] give up
    before any decomposition: it appends the "solvent molecules" record to
    FailedStructures.log and returns the pair (None, None). *)
Theorem solvent_molecules_abort data depth path xyzpath fs adj_matrix comp :
  let base := if ends_with_slash (path_str path) then drop_last (path_str path)
              else path_str path in
  let cpar := (readcif data).1.1 in
  let allatomtypes := (readcif data).1.2 in
  let fcoords := (readcif data).2 in
  let cell_v := mkcell cpar in
  let cart_coords := fractional2cart fcoords cell_v in
  let name := strip ".cif" (basename data) in
  let molcif := set_graph (import_from_cif data) adj_matrix in
  let metal_list : gset nat := set_of (findMetal molcif) in
  truthy path = true ->
  length cart_coords <= 2000 ->
  compute_adj_matrix (compute_distance_matrix2 cell_v cart_coords) allatomtypes
    = Some adj_matrix ->
  0 < size metal_list ->
  comp < (connected_components adj_matrix).1 ->
  component_has_metal (connected_components adj_matrix).2 metal_list comp = false ->
  make_MOF_fragments data depth path xyzpath fs =
    (Returned none_pair,
     write2file base "/FailedStructures.log"
       ("Failed to featurize " +:+ name +:+ ": solvent molecules" +:+ nl)
       (emit (WriteXYZandGraph xyzpath allatomtypes cell_v fcoords adj_matrix)
             (make_dirs base fs))).
Proof.
  intros base cpar allatomtypes fcoords cell_v cart_coords name molcif metal_list
         Hpath Hsize Hadj Hmetal Hcomp Hnone.
  unfold make_MOF_fragments, MOF_precheck, failed.
  rewrite Hpath. simpl negb. cbv iota.
  subst cpar allatomtypes fcoords cell_v cart_coords.
  destruct (readcif data) as [[cpar allatomtypes] fcoords]. simpl in *.
  destruct (Nat.ltb_spec 2000 (length (fractional2cart fcoords (mkcell cpar)))); [lia|].
  rewrite Hadj.
  destruct (connected_components adj_matrix) as [n labels]. simpl in *.
  fold molcif. fold metal_list.
  destruct (Nat.ltb_spec 0 (size metal_list)); [|lia]. simpl negb. cbv iota.
  assert (Hex : existsb (fun comp => negb (component_has_metal labels metal_list comp))
                        (seq 0 n) = true).
  { apply existsb_exists. exists comp. split; [apply in_seq; lia | by rewrite Hnone]. }
  rewrite Hex. reflexivity.
Qed.

End Stages.

(** ** The while loop of identify_main_chain

    The loop is modelled with a number of rounds to spare.  A round that
    goes on has dropped a cycle from [min_cycles_copy], so one round more
    than there are cycles is enough: further rounds change nothing. *)

Lemma remove_first_length x l : length (remove_first x l) <= length l.
Proof.
  induction l as [|y l IH]; simpl; [lia|].
  destruct (bool_decide (x = y)); simpl; lia.
Qed.

Lemma main_chain_pass_length min_cycles paths paths_copy min_cycles_copy :
  length (main_chain_pass min_cycles paths paths_copy min_cycles_copy).2
  <= length min_cycles_copy.
Proof.
  revert paths paths_copy min_cycles_copy.
  induction min_cycles as [|i r IH]; intros paths paths_copy copy; simpl; [lia|].
  destruct (_ && _).
  - etransitivity; [apply IH | apply remove_first_length].
  - apply IH.
Qed.

Lemma main_chain_loop_fuel min_cycles :
  forall f f' paths paths_copy copy copy2,
  length copy = length copy2 \/ length copy < f ->
  length copy = length copy2 \/ length copy < f' ->
  main_chain_loop f min_cycles paths paths_copy copy copy2 =
  main_chain_loop f' min_cycles paths paths_copy copy copy2.
Proof.
  induction f as [|f IH]; intros f' paths paths_copy copy copy2 Hf Hf'.
  - destruct Hf as [Heq | Hlt]; [|lia]. simpl.
    destruct f' as [|f']; simpl; [done|].
    by rewrite (proj2 (Nat.eqb_eq _ _) Heq).
  - simpl. destruct (Nat.eqb_spec (length copy) (length copy2)) as [Heq | Hne].
    + destruct f' as [|f']; simpl; [done|].
      by rewrite (proj2 (Nat.eqb_eq _ _) Heq).
    + destruct Hf as [? | Hf]; [done|]. destruct Hf' as [? | Hf']; [done|].
      destruct f' as [|f']; [lia|]. simpl.
      destruct (Nat.eqb_spec (length copy) (length copy2)); [done|].
      pose proof (main_chain_pass_length min_cycles paths paths_copy copy) as Hlen.
      destruct (main_chain_pass min_cycles paths paths_copy copy)
        as [[paths' paths_copy'] copy']. simpl in Hlen.
      apply IH; lia.
Qed.

(** More rounds than [identify_main_chain] allows itself give the same
    main chain. *)
Lemma main_chain_loop_enough min_cycles paths extra :
  main_chain_loop (S (S (length min_cycles)) + extra) min_cycles
                  paths paths min_cycles [] =
  main_chain_loop (S (S (length min_cycles))) min_cycles paths paths min_cycles [].
Proof. apply main_chain_loop_fuel; right; lia. Qed.

(** ** The code on concrete structures *)

Module Examples.
Import Ref.


(** The nine-atom chain is taken apart to the end: two SBU files, one
    linker file, return value None. *)
Example chain9_fragments :
  (run chain9).1 = Returned PyNone /\
  filter (fun e => is_fragment_write e = true) (trace (run chain9).2) =
    [WriteGraph "out/sbus/mo_sbu_0.xyz" ["Zn"; "O"; "C"; "X"]
                [[0; 1; 0; 0]; [1; 0; 1; 0]; [0; 1; 0; 1]; [0; 0; 1; 0]];
     WriteXYZ "out/sbus/mo_sbu_0.xyz"
       (mk_mol3D [mk_atom3D "Zn" (0, 0, 0)%Q; mk_atom3D "O" (1, 0, 0)%Q;
                  mk_atom3D "C" (2, 0, 0)%Q; mk_atom3D "X" (11 # 4, 0, 0)%Q]
                 [[0; 1; 0; 0]; [1; 0; 1; 0]; [0; 1; 0; 1]; [0; 0; 1; 0]])
       "   3";
     WriteGraph "out/sbus/mo_sbu_1.xyz" ["C"; "O"; "Zn"; "X"]
                [[0; 1; 0; 1]; [1; 0; 1; 0]; [0; 1; 0; 0]; [1; 0; 0; 0]];
     WriteXYZ "out/sbus/mo_sbu_1.xyz"
       (mk_mol3D [mk_atom3D "C" (6, 0, 0)%Q; mk_atom3D "O" (7, 0, 0)%Q;
                  mk_atom3D "Zn" (8, 0, 0)%Q; mk_atom3D "X" (21 # 4, 0, 0)%Q]
                 [[0; 1; 0; 1]; [1; 0; 1; 0]; [0; 1; 0; 0]; [1; 0; 0; 0]])
       "   3";
     WriteGraph "out/linkers/mo_linker_0.xyz" ["C"; "C"; "C"; "X"; "X"]
                [[0; 1; 1; 0; 0]; [1; 0; 0; 1; 0]; [1; 0; 0; 0; 1];
                 [0; 1; 0; 0; 0]; [0; 0; 1; 0; 0]];
     WriteXYZ "out/linkers/mo_linker_0.xyz"
       (mk_mol3D [mk_atom3D "C" (4, 0, 0)%Q; mk_atom3D "C" (3, 0, 0)%Q;
                  mk_atom3D "C" (5, 0, 0)%Q; mk_atom3D "X" (9 # 4, 0, 0)%Q;
                  mk_atom3D "X" (23 # 4, 0, 0)%Q]
                 [[0; 1; 1; 0; 0]; [1; 0; 0; 1; 0]; [1; 0; 0; 0; 1];
                  [0; 1; 0; 0; 0]; [0; 0; 1; 0; 0]])
       "   3   4"].
Proof. split; vm_compute; reflexivity. Qed.

Lemma precheck_prepared (s : structure) :
  (exists p, (precheck s).1 = inr p) ->
  precheck s = (inr (prepared_of s), (precheck s).2).
Proof.
  intros [p Hp]. unfold prepared_of. rewrite Hp.
  destruct (precheck s) as [o fs]. simpl in *. by subst.
Qed.

(** *** C1 *)

(** For Zn-N-C-N-Zn the classification ends with min_max_linker_length 2
    and [make_MOF_fragments] returns 3, not 2. *)
Lemma two_atom_linkers_do_not_return_2 :
  sl_min_max_linker_length (k_sl (classification_of carbodiimide)) = 2%Z /\
  (run carbodiimide).1 = Returned (PyInt 3) /\
  (run carbodiimide).1 <> Returned (PyInt 2).
Proof. repeat split; [vm_compute; reflexivity .. | vm_compute; discriminate]. Qed.

Lemma two_atom_linkers_return_3_witness :
  exists fs', run carbodiimide = (Returned (PyInt 3), fs') /\ quiet fs0 fs'.
Proof.
  unfold run.
  apply (two_atom_linkers_return_3 (PL := pbcLib carbodiimide) _ _ _ _ _
           (prepared_of carbodiimide) (precheck carbodiimide).2).
  - apply precheck_prepared. eexists. vm_compute. reflexivity.
  - vm_compute. reflexivity.
Defined.

(** *** C2 *)

(** For Zn-O-C the one fragment O-C is dropped as a ligand and its atoms
    are put into SBUlist: SBUlist and the dropped ligand share the atoms 1
    and 2, so the sets the spec lists are not disjoint. *)
Lemma SBUlist_overlaps_dropped_ligand :
  let p := prepared_of methoxide in
  let k := classification_of methoxide in
  sl_SBUlist (k_sl k) = {[0; 1; 2]} /\
  sl_linker_list (k_sl k) = [] /\
  dropped_ligands (PL := pbcLib methoxide) p k = [[1; 2]] /\
  ~ spec_partition (PL := pbcLib methoxide) p k.
Proof.
  repeat split; [vm_compute; reflexivity .. |].
  unfold spec_partition. refute_by_computation.
Qed.

Lemma wf_mol_of_precheck (s : structure) :
  length (s_symbols s) = length (s_graph s) ->
  length (s_coords s) = length (s_graph s) ->
  Forall (fun row => length row = length (s_graph s)) (s_graph s) ->
  wf_mol (set_graph (import_from_cif (PBCLib := pbcLib s) "dir/mof.cif") (s_graph s)).
Proof.
  intros H1 H2 H3. unfold wf_mol, natoms. simpl.
  rewrite length_zip_with, H1, H2, Nat.min_id. done.
Qed.

Lemma classification_partition_witness :
  let p := prepared_of mixed11 in
  let k := classification_of mixed11 in
  partition_of (allatoms (k_lc k))
    (k_initial_removelist k ::
     (set_of <$> sl_linker_list (k_sl k)) ++
     (set_of <$> dropped_ligands (PL := pbcLib mixed11) p k)) /\
  sl_removelist (k_sl k) =
    k_initial_removelist k ∪ union_of (dropped_ligands (PL := pbcLib mixed11) p k) /\
  sl_SBUlist (k_sl k) =
    k_initial_SBUlist k ∪ union_of (dropped_ligands (PL := pbcLib mixed11) p k).
Proof.
  apply (classification_partition (PL := pbcLib mixed11) (prepared_of mixed11)
                                  (precheck mixed11).2).
  - vm_compute. split; [reflexivity | repeat constructor].
  - vm_compute. reflexivity.
  - match goal with |- ?P => apply (bool_decide_unpack P) end. vm_compute. exact I.
Defined.

(** *** C3 *)

(** In the chain with the bonds C2-C3 and C5-C6 5 long, the first SBU
    fragment Zn-O-C-X has the bonded pair C-X 5 apart in the regenerated
    coordinates, before the capping bond is shortened.  The check runs on
    the coordinates after the shortening, where no bonded pair is more than
    4 apart (here the capping bond is 3.75 long; any [BCM] that leaves it
    no longer than 4 gives the same): the fragment is written under the
    plain name and [breakdown_MOF] goes on to the end and returns None. *)
Lemma raw_distance_above_4_is_no_rod :
  let molcif := mol_of stretched9 in
  let cell_v := mkcell (PBCLib := pbcLib stretched9) [] in
  exists c,
    assemble_SBU molcif (elements (set_of (seq 1 7))) [] [] [0; 1; 2] = Ok c /\
    let tempgraph := ix_ (graph molcif) (f_added (c_frag c)) in
    let r := regenerate (PL := pbcLib stretched9) cell_v c tempgraph in
    entry tempgraph 2 3 <> 0 /\
    (16 < sqdist (nth 2 (r_coord_list r) origin) (nth 3 (r_coord_list r) origin))%Q /\
    periodic_checker tempgraph (new_coords r) (r_labels r) = false /\
    (breakdown stretched9 (PStr "out/sbus")).1 = Returned PyNone /\
    (run stretched9).1 = Returned PyNone /\
    existsb (fun e => match e with
                      | WriteXYZ n _ _ => contains "1Drod" n
                      | _ => false
                      end) (trace (run stretched9).2) = false.
Proof.
  eexists. split; [vm_compute; reflexivity|].
  repeat split; try (vm_compute; reflexivity). vm_compute. discriminate.
Qed.

Lemma rod_after_correction_witness :
  exists fs',
    SBU_body (PL := pbcLib rod9) (mol_of rod9) "mo"
             (mkcell (PBCLib := pbcLib rod9) []) chain_anchors (PStr "out/sbus")
             chain_linkers (ix_ (s_graph rod9) <$> chain_linkers) [] []
             (mk_frame fs0 None []) (0, [0; 1; 2])
    = Return (PyInt 4) fs'.
Proof.
  edestruct (rod_after_correction (PL := pbcLib rod9) (mol_of rod9) "mo"
               (mkcell (PBCLib := pbcLib rod9) []) chain_anchors (PStr "out/sbus")
               chain_linkers (ix_ (s_graph rod9) <$> chain_linkers) [] []
               (mk_frame fs0 None []) 0 [0; 1; 2]) as (_ & H4 & _).
  - vm_compute. reflexivity.
  - apply Nat.ltb_lt. vm_compute. reflexivity.
  - vm_compute. reflexivity.
  - vm_compute. reflexivity.
  - eexists. apply H4. vm_compute. reflexivity.
Defined.

(** *** C4 *)

(** In Zn-O(-H)...H-OH2 the water O (atom 3) has hydrogens only for
    neighbours, and so do its two own hydrogens count for the spec's
    wording; the code looks at the metals and their bonded neighbours only
    and leaves the atoms 3, 4 and 5 out of the removelist. *)
Lemma seeder_looks_at_first_shell_only :
  let molcif := mol_of hydrate in
  let removelist :=
    (prepare_initial_SBU molcif (s_symbols hydrate) {[0]} "out/logs" "mo" fs0).1.1.2 in
  removelist = {[0; 1; 2]} /\
  spec_removelist molcif = {[0; 1; 2; 3; 4; 5]} /\
  removelist <> spec_removelist molcif.
Proof.
  repeat split; [vm_compute; reflexivity .. |].
  refute_by_computation.
Qed.

(** In Zn-O(-H)-C the hydrogen sits on an O that also carries a carbon;
    the loop of lines 398-401 runs over SBUlist and takes the hydrogen
    into the removelist all the same. *)
Example hydrogen_of_a_coordinating_atom :
  let molcif := mol_of alcohol in
  (prepare_initial_SBU molcif (s_symbols alcohol) {[0]} "out/logs" "mo" fs0).1.1.2
    = {[0; 2]} /\
  only_metal_or_H molcif 1 = false.
Proof. split; vm_compute; reflexivity. Qed.

(** *** C5 *)

(** O-C-O chelating one Zn inside one cell: a ligand. *)
Lemma single_SBU_fragment_witness :
  let st' := classify_step (PL := pbcLib chelate) (mol_of chelate) [[0]]
               (s_graph chelate) "out/logs" "out/linkers" "mo"
               (mkcell (PBCLib := pbcLib chelate) []) [[1; 2; 3]] chelate_state
               (0, [1; 2; 3]) in
  cl_removelist st' = {[0; 1; 2; 3]} /\
  cl_SBUlist st' = {[0; 1; 2; 3]} /\
  cl_linker_list st' = [].
Proof.
  edestruct (single_SBU_fragment (PL := pbcLib chelate) (mol_of chelate) [[0]]
               (s_graph chelate) "out/logs" "out/linkers" "mo"
               (mkcell (PBCLib := pbcLib chelate) []) [[1; 2; 3]] chelate_state
               0 [1; 2; 3]) as [Hlig _].
  - apply Nat.leb_le. vm_compute. reflexivity.
  - vm_compute. reflexivity.
  - reflexivity.
  - destruct Hlig as (Hr & Hs & Hl & _).
    + split; vm_compute; reflexivity.
    + cbv zeta. rewrite Hr, Hs, Hl. repeat split; vm_compute; reflexivity.
Defined.

(** The same fragment with its second O in the next cell: a linker. *)
Example single_SBU_fragment_bridging :
  let st := mk_classifier {[0]} {[0; 1; 3]} [[1; 2; 3]]
                          [ix_ (s_graph bridge) [1; 2; 3]] 0 100 fs0 in
  let st' := classify_step (PL := pbcLib bridge) (mol_of bridge) [[0]]
               (s_graph bridge) "out/logs" "out/linkers" "mo"
               (mkcell (PBCLib := pbcLib bridge) []) [[1; 2; 3]] st (0, [1; 2; 3]) in
  cl_removelist st' = {[0]} /\ cl_linker_list st' = [[1; 2; 3]] /\
  (max_min_linker_length st', min_max_linker_length st') = (2%Z, 2%Z).
Proof. repeat split; vm_compute; reflexivity. Qed.

(** *** C6 and C7 *)

(** The linker of the nine-atom chain: C4, C3, C5 and two placeholders at
    the local indices 3 and 4, at the positions of the atoms 2 and 6. *)
Example chain9_linker :
  let all_SBU_atoms := [0; 1; 2; 3; 6; 7; 8; 5] in
  let c := assemble_linker (mol_of chain9) all_SBU_atoms
             (elements (set_of all_SBU_atoms)) [1; 2; 3; 4; 5; 6; 7] in
  atoms (f_mol (c_frag c)) =
    [mk_atom3D "C" (4, 0, 0)%Q; mk_atom3D "C" (3, 0, 0)%Q; mk_atom3D "C" (5, 0, 0)%Q;
     mk_atom3D "X" (2, 0, 0)%Q; mk_atom3D "X" (6, 0, 0)%Q] /\
  c_final_X_indices c = [3; 4] /\
  c_atoms_that_are_X c = [2; 6] /\
  linker_skipped (mol_of chain9) c = false.
Proof. repeat split; vm_compute; reflexivity. Qed.

(** The linker of Zn-O-C-C-C-O-Zn has all its atoms in the SBUs: nothing
    is left of it, and it is passed over. *)
Example short_chain_linker_skipped :
  let molcif := mk_mol3D
    (zip_with mk_atom3D ["Zn"; "O"; "C"; "C"; "C"; "O"; "Zn"]
              ((fun i => Qpoint (Z.of_nat i) 0 0) <$> seq 0 7))
    (graph_of_bonds 7 [(0,1);(1,2);(2,3);(3,4);(4,5);(5,6)]) in
  let all_SBU_atoms := [0; 1; 2; 3; 4; 5; 6; 3] in
  let c := assemble_linker molcif all_SBU_atoms (elements (set_of all_SBU_atoms))
                           [1; 2; 3; 4; 5] in
  natoms (f_mol (c_frag c)) = 0 /\ linker_skipped molcif c = true.
Proof. split; vm_compute; reflexivity. Qed.

(** *** C8 *)

Lemma anchor_monotonicity_witness :
  let s := mixed11 in
  let cs : list candidate :=
    [([1; 2; 3; 4; 5; 6; 7], ix_ (s_graph s) [1; 2; 3; 4; 5; 6; 7]);
     ([9; 10], ix_ (s_graph s) [9; 10])] in
  let loop cs := classify_loop (PL := pbcLib s) (mol_of s) [[0]; [8]] (s_graph s)
                   "out/logs" "out/linkers" "mo" (mkcell (PBCLib := pbcLib s) [])
                   {[0; 8]} {[0; 1; 7; 8; 9]} cs.*1 cs.*2 fs0 in
  (max_min_linker_length (loop cs), min_max_linker_length (loop cs)) =
  (max_min_linker_length (loop (rev cs)), min_max_linker_length (loop (rev cs))).
Proof.
  intros s cs loop.
  apply (proj2 (anchor_monotonicity (PL := pbcLib s) (mol_of s) [[0]; [8]] (s_graph s)
                  "out/logs" "out/linkers" "mo" (mkcell (PBCLib := pbcLib s) []))
               cs (rev cs) {[0; 8]} {[0; 1; 7; 8; 9]} fs0).
  apply Permutation_rev.
Defined.

(** *** C9 *)

(** [breakdown_MOF] with the default sbupath. *)
Lemma xyzname_unbound_witness :
  breakdown chain9 PFalse = (Raised NameError, fs0).
Proof.
  unfold breakdown. simpl fmap.
  eapply (xyzname_unbound (PL := pbcLib chain9)).
  - vm_compute. reflexivity.
  - apply Nat.ltb_lt. vm_compute. reflexivity.
  - vm_compute. reflexivity.
  - reflexivity.
Defined.

(** The same when sbupath is given and the file sbupath/name0.xyz exists. *)
Example xyzname_unbound_file_exists :
  let fs := mk_FS {["out"]} {["out/sbus/mo0.xyz"]} [] in
  breakdown_MOF (PL := pbcLib chain9) chain_SBUs (ix_ (s_graph chain9) <$> chain_SBUs)
    (mol_of chain9) 1 "mo" (mkcell (PBCLib := pbcLib chain9) []) chain_anchors
    (PStr "out/sbus") chain_linkers (ix_ (s_graph chain9) <$> chain_linkers)
    (PStr "out/linkers") fs
  = (Raised NameError, fs).
Proof. vm_compute. reflexivity. Qed.

(** *** C10 *)

(** Zn-O with a lone O beside it. *)
Lemma solvent_molecules_abort_witness :
  (run wet).1 = Returned none_pair /\
  last (trace (run wet).2) =
    Some (Append "out/FailedStructures.log"
                 ("Failed to featurize mo: solvent molecules" +:+ nl)).
Proof.
  unfold run.
  rewrite (solvent_molecules_abort (PL := pbcLib wet) "dir/mof.cif" 1 (PStr "out")
             (PStr "out/xyz/mof.xyz") fs0 (s_graph wet) 1).
  - split; vm_compute; reflexivity.
  - reflexivity.
  - apply Nat.leb_le. vm_compute. reflexivity.
  - reflexivity.
  - apply Nat.ltb_lt. vm_compute. reflexivity.
  - apply Nat.ltb_lt. vm_compute. reflexivity.
  - vm_compute. reflexivity.
Defined.

End Examples.

(** * Loops, fragments and the flow of control *)

(** ** The main chain of a linker *)

Lemma mapM_res_Ok {A B} (f : A -> res B) (l : list A) (ys : list B) :
  mapM f l = Ok ys -> Forall2 (fun x y => f x = Ok y) l ys.
Proof.
  revert ys. induction l as [|x l IH]; intros ys; simpl.
  - intros H. inversion H. constructor.
  - destruct (f x) as [y|e] eqn:Hx; simpl; [|discriminate].
    destruct (mapM f l) as [k|e]; simpl; [|discriminate].
    intros H. inversion H; subst. constructor; [done | by apply IH].
Qed.

Lemma elem_of_concat {A} (x : A) (ls : list (list A)) :
  x ∈ concat ls <-> exists l, x ∈ l /\ l ∈ ls.
Proof.
  induction ls as [|l ls IH]; simpl.
  - split; [intros H; inversion H | intros (l & _ & H); inversion H].
  - rewrite elem_of_app, IH. split.
    + intros [Hx | (l' & Hx & Hl)]; [exists l; split; [done | left] |].
      exists l'. split; [done | by right].
    + intros (l' & Hx & Hl). apply elem_of_cons in Hl as [-> | Hl]; [by left|].
      right. by exists l'.
Qed.

Lemma foldl_min_spec (r : list nat) (x : nat) :
  foldl Nat.min x r ∈ x :: r /\ forall y, y ∈ x :: r -> foldl Nat.min x r <= y.
Proof.
  revert x. induction r as [|z r IH]; intros x; simpl.
  - split; [left|]. intros y Hy. apply list_elem_of_singleton in Hy. lia.
  - destruct (IH (Nat.min x z)) as [Hin Hle]. split.
    + apply elem_of_cons in Hin as [Hin | Hin].
      * rewrite Hin. destruct (Nat.min_spec x z) as [[_ ->] | [_ ->]];
          [left | right; left].
      * right. by right.
    + intros y Hy. apply elem_of_cons in Hy as [-> | Hy].
      * specialize (Hle (Nat.min x z)). etransitivity; [apply Hle; left | lia].
      * apply elem_of_cons in Hy as [-> | Hy].
        -- etransitivity; [apply Hle; left | lia].
        -- apply Hle. by right.
Qed.

Lemma foldl_max_spec (r : list nat) (x : nat) :
  foldl Nat.max x r ∈ x :: r /\ forall y, y ∈ x :: r -> y <= foldl Nat.max x r.
Proof.
  revert x. induction r as [|z r IH]; intros x; simpl.
  - split; [left|]. intros y Hy. apply list_elem_of_singleton in Hy. lia.
  - destruct (IH (Nat.max x z)) as [Hin Hle]. split.
    + apply elem_of_cons in Hin as [Hin | Hin].
      * rewrite Hin. destruct (Nat.max_spec x z) as [[_ ->] | [_ ->]];
          [right; left | left].
      * right. by right.
    + intros y Hy. apply elem_of_cons in Hy as [-> | Hy].
      * specialize (Hle (Nat.max x z)). etransitivity; [|apply Hle; left]. lia.
      * apply elem_of_cons in Hy as [-> | Hy].
        -- etransitivity; [|apply Hle; left]. lia.
        -- apply Hle. by right.
Qed.

Lemma list_min_spec (l : list nat) (m : nat) :
  list_min l = Ok m -> m ∈ l /\ forall y, y ∈ l -> m <= y.
Proof.
  destruct l as [|x r]; simpl; [discriminate|].
  intros H. inversion H. apply foldl_min_spec.
Qed.

Lemma list_max_spec (l : list nat) (m : nat) :
  list_max l = Ok m -> m ∈ l /\ forall y, y ∈ l -> y <= m.
Proof.
  destruct l as [|x r]; simpl; [discriminate|].
  intros H. inversion H. apply foldl_max_spec.
Qed.

Lemma ring_fires_true (paths_copy i : list nat) :
  ring_fires paths_copy i = true <->
  (exists x, x ∈ i /\ x ∈ paths_copy) /\ ~ set_of i ⊆ set_of paths_copy.
Proof.
  unfold ring_fires, set_of.
  rewrite andb_true_iff, negb_true_iff, bool_decide_eq_true, bool_decide_eq_false.
  split; intros [H1 H2]; (split; [|done]).
  - apply set_choose_L in H1 as [x Hx]. exists x.
    apply elem_of_intersection in Hx as [Hp Hi].
    by rewrite !elem_of_list_to_set in *.
  - destruct H1 as (x & Hi & Hp). intros He.
    assert (x ∈ (list_to_set paths_copy ∩ list_to_set i : gset nat)) as Hx
      by (apply elem_of_intersection; by rewrite !elem_of_list_to_set).
    rewrite He in Hx. by apply not_elem_of_empty in Hx.
Qed.

Lemma ring_fires_false (paths_copy i : list nat) :
  ring_fires paths_copy i = false ->
  (exists x, x ∈ i /\ x ∈ paths_copy) -> forall y, y ∈ i -> y ∈ paths_copy.
Proof.
  intros Hf Hx y Hy.
  destruct (decide (set_of i ⊆ set_of paths_copy)) as [Hs | Hs].
  - unfold set_of in Hs. specialize (Hs y).
    rewrite !elem_of_list_to_set in Hs. auto.
  - assert (ring_fires paths_copy i = true) by (apply ring_fires_true; done).
    congruence.
Qed.

Lemma remove_first_keeps (x y : list nat) (l : list (list nat)) :
  y ∈ l -> y <> x -> y ∈ remove_first x l.
Proof.
  intros Hy Hne. induction l as [|z l IH]; simpl; [done|].
  destruct (bool_decide_reflect (x = z)) as [-> | Hxz].
  - apply elem_of_cons in Hy as [-> | Hy]; done.
  - apply elem_of_cons in Hy as [-> | Hy]; [left | right; auto].
Qed.

Lemma remove_first_shorter (x : list nat) (l : list (list nat)) :
  x ∈ l -> length (remove_first x l) < length l.
Proof.
  induction l as [|z l IH]; simpl; intros Hx; [inversion Hx|].
  destruct (bool_decide_reflect (x = z)) as [-> | Hxz]; simpl; [lia|].
  apply elem_of_cons in Hx as [-> | Hx]; [done|]. apply IH in Hx. lia.
Qed.

(** One pass over the cycles.  While every cycle not yet inside the chain
    is still pending, a cycle that fires is found by [remove]; the chain
    only grows, by atoms of cycles; and a pass that leaves the number of
    pending cycles as it was has changed nothing and found no cycle to
    fire. *)
Lemma main_chain_pass_spec (min_cycles : list (list nat)) :
  forall cycles paths paths_copy min_cycles_copy,
  (forall i, i ∈ cycles -> i ∈ min_cycles) ->
  cycles_pending min_cycles paths_copy min_cycles_copy ->
  forall paths' paths_copy' min_cycles_copy',
  main_chain_pass cycles paths paths_copy min_cycles_copy =
    (paths', paths_copy', min_cycles_copy') ->
  cycles_pending min_cycles paths_copy' min_cycles_copy' /\
  (forall x, x ∈ paths_copy -> x ∈ paths_copy') /\
  (forall x, x ∈ paths_copy' -> x ∈ paths_copy \/ exists i, i ∈ cycles /\ x ∈ i) /\
  length min_cycles_copy' <= length min_cycles_copy /\
  (length min_cycles_copy' = length min_cycles_copy ->
     paths_copy' = paths_copy /\
     (cycles <> [] -> paths' = paths_copy) /\
     (cycles = [] -> paths' = paths) /\
     forall i, i ∈ cycles -> ring_fires paths_copy i = false).
Proof.
  induction cycles as [|i r IH]; intros paths pc copy Hsub Hpend paths' pc' copy' Hrun.
  - simpl in Hrun. inversion Hrun; subst. repeat split; try done.
    + intros x Hx. by left.
    + intros i Hi. inversion Hi.
  - change (main_chain_pass (i :: r) paths pc copy) with
      (if ring_fires pc i
       then main_chain_pass r pc (pc ++ elements (set_of i)) (remove_first i copy)
       else main_chain_pass r pc pc copy) in Hrun.
    assert (Hsub' : forall j, j ∈ r -> j ∈ min_cycles)
      by (intros j Hj; apply Hsub; by right).
    destruct (ring_fires pc i) eqn:Hfire.
    + apply ring_fires_true in Hfire as [Htouch Hnot].
      assert (Hi : i ∈ copy) by (apply Hpend; [apply Hsub; left | done]).
      assert (Hpend' : cycles_pending min_cycles (pc ++ elements (set_of i))
                                      (remove_first i copy)).
      { intros j Hj Hnj. apply remove_first_keeps.
        - apply Hpend; [done|]. intros Hs. apply Hnj. intros x Hx.
          specialize (Hs x Hx). unfold set_of in *.
          rewrite elem_of_list_to_set in *. apply elem_of_app. by left.
        - intros ->. apply Hnj. intros x Hx. unfold set_of in *.
          rewrite elem_of_list_to_set. apply elem_of_app. right.
          by apply elem_of_elements. }
      destruct (IH _ _ _ Hsub' Hpend' _ _ _ Hrun) as (Hp & Hgrow & Hfrom & Hlen & _).
      pose proof (remove_first_shorter i copy Hi) as Hlt.
      split; [done|]. split; [|split; [|split; [lia|lia]]].
      * intros x Hx. apply Hgrow, elem_of_app. by left.
      * intros x Hx. apply Hfrom in Hx as [Hx | (j & Hj & Hx)].
        -- apply elem_of_app in Hx as [Hx | Hx]; [by left|].
           right. exists i. split; [left|].
           apply elem_of_elements in Hx. unfold set_of in Hx.
           by rewrite elem_of_list_to_set in Hx.
        -- right. exists j. split; [by right | done].
    + destruct (IH _ _ _ Hsub' Hpend _ _ _ Hrun) as (Hp & Hgrow & Hfrom & Hlen & Hsame).
      split; [done|]. split; [done|]. split; [|split; [done|]].
      * intros x Hx. apply Hfrom in Hx as [Hx | (j & Hj & Hx)]; [by left|].
        right. exists j. split; [by right | done].
      * intros Heq. destruct (Hsame Heq) as (Hpc & Hne & Hnil & Hno).
        split; [done|]. split; [|split; [done|]].
        -- intros _. destruct r as [|j r]; [by apply Hnil | by apply Hne].
        -- intros j Hj. apply elem_of_cons in Hj as [-> | Hj]; [done | by apply Hno].
Qed.

(** The while loop ends on a chain that holds the paths it started from,
    holds atoms of these paths and of cycles only, and on which no cycle
    fires any more. *)
Lemma main_chain_loop_spec (min_cycles : list (list nat)) (paths0 : list nat) :
  forall fuel paths paths_copy min_cycles_copy min_cycles_copy_2,
  length min_cycles_copy = length min_cycles_copy_2 \/ length min_cycles_copy < fuel ->
  cycles_pending min_cycles paths_copy min_cycles_copy ->
  (min_cycles = [] -> paths = paths_copy) ->
  (forall x, x ∈ paths0 -> x ∈ paths_copy) ->
  (forall x, x ∈ paths_copy -> x ∈ paths0 \/ exists i, i ∈ min_cycles /\ x ∈ i) ->
  (length min_cycles_copy = length min_cycles_copy_2 ->
     paths = paths_copy /\ forall i, i ∈ min_cycles -> ring_fires paths_copy i = false) ->
  let main := main_chain_loop fuel min_cycles paths paths_copy min_cycles_copy
                              min_cycles_copy_2 in
  (forall x, x ∈ paths0 -> x ∈ main) /\
  (forall x, x ∈ main -> x ∈ paths0 \/ exists i, i ∈ min_cycles /\ x ∈ i) /\
  (forall i, i ∈ min_cycles -> ring_fires main i = false).
Proof.
  induction fuel as [|fuel IH];
    intros paths pc copy copy2 Hfuel Hpend Hnil Hin Hfrom Hstop; simpl.
  - destruct Hfuel as [Heq | Hlt]; [|lia].
    destruct (Hstop Heq) as [-> Hno]. done.
  - destruct (Nat.eqb_spec (length copy) (length copy2)) as [Heq | Hne].
    + destruct (Hstop Heq) as [-> Hno]. done.
    + destruct Hfuel as [Heq | Hlt]; [done|].
      destruct (main_chain_pass min_cycles paths pc copy)
        as [[paths' pc'] copy'] eqn:Hrun.
      destruct (main_chain_pass_spec min_cycles min_cycles paths pc copy
                  (fun i Hi => Hi) Hpend _ _ _ Hrun)
        as (Hpend' & Hgrow & Hfrom' & Hlen & Hsame).
      apply IH.
      * destruct (decide (length copy' = length copy)); [by left | right; lia].
      * done.
      * intros ->. simpl in Hrun. inversion Hrun; subst. by apply Hnil.
      * auto.
      * intros x Hx. apply Hfrom' in Hx as [Hx | Hx]; [by apply Hfrom | by right].
      * intros Heq. destruct (Hsame Heq) as (-> & Hne' & Hnil' & Hno).
        split; [|done].
        destruct min_cycles as [|i r]; [|by apply Hne'].
        rewrite (Hnil' eq_refl). by apply Hnil.
Qed.

Section MainChain.
Context {ML : Mol3DLib} {PL : PBCLib} {GL : GraphLib} {RT : Runtime}.

Arguments main_chain_loop : simpl never.

(** X1.  For a linker with other than one anchor, the main chain
    [identify_main_chain] returns holds every atom of the shortest path
    between any two anchors; it is closed under the rings of the minimum
    cycle basis (a ring that shares an atom with the chain lies in it
    whole); it holds nothing but atoms of these paths and rings; and
    [shortest] and [longest] are the least and the greatest number of atoms
    on such a path. *)
Theorem main_chain_closed (temp_mol : mol3D) (link_list : list nat)
    (main : list nat) (shortest longest : nat) :
  length link_list <> 1 ->
  identify_main_chain temp_mol link_list = Ok (main, shortest, longest) ->
  let G := graph temp_mol in
  (forall a b, (a, b) ∈ combinations2 link_list ->
     exists short, shortest_path G a b = Some short /\
       shortest <= length short <= longest /\
       forall x, x ∈ short -> x ∈ main) /\
  (forall i, i ∈ minimum_cycle_basis G ->
     (exists x, x ∈ i /\ x ∈ main) -> forall y, y ∈ i -> y ∈ main) /\
  (forall x, x ∈ main ->
     (exists a b short, (a, b) ∈ combinations2 link_list /\
        shortest_path G a b = Some short /\ x ∈ short) \/
     (exists i, i ∈ minimum_cycle_basis G /\ x ∈ i)) /\
  (exists a b short, (a, b) ∈ combinations2 link_list /\
     shortest_path G a b = Some short /\ length short = shortest) /\
  (exists a b short, (a, b) ∈ combinations2 link_list /\
     shortest_path G a b = Some short /\ length short = longest).
Proof.
  intros Hlen Hrun G. unfold identify_main_chain in Hrun. fold G in Hrun.
  destruct (Nat.eqb_spec (length link_list) 1) as [|_]; [done|].
  destruct (mapM _ (combinations2 link_list)) as [shorts|e] eqn:Hshorts;
    simpl in Hrun; [|discriminate].
  destruct (list_min (length <$> shorts)) as [mn|e] eqn:Hmin;
    simpl in Hrun; [|discriminate].
  destruct (list_max (length <$> shorts)) as [mx|e] eqn:Hmax;
    simpl in Hrun; [|discriminate].
  inversion Hrun; subst mn mx. clear Hrun.
  rename H0 into Hmain.
  apply mapM_res_Ok in Hshorts.
  apply list_min_spec in Hmin as [Hmin_in Hmin_le].
  apply list_max_spec in Hmax as [Hmax_in Hmax_le].
  assert (Hpair_short : forall a b, (a, b) ∈ combinations2 link_list ->
            exists short, short ∈ shorts /\ shortest_path G a b = Some short).
  { intros a b Hab. apply list_elem_of_lookup in Hab as [k Hk].
    destruct (Forall2_lookup_l _ _ _ _ _ Hshorts Hk) as (short & Hs & Hf).
    exists short. split; [by eapply list_elem_of_lookup_2|].
    simpl in Hf. destruct (shortest_path G a b); [by inversion Hf | discriminate]. }
  assert (Hshort_pair : forall short, short ∈ shorts ->
            exists a b, (a, b) ∈ combinations2 link_list /\
                        shortest_path G a b = Some short).
  { intros short Hs. apply list_elem_of_lookup in Hs as [k Hk].
    destruct (Forall2_lookup_r _ _ _ _ _ Hshorts Hk) as ([a b] & Hp & Hf).
    exists a, b. split; [by eapply list_elem_of_lookup_2|].
    simpl in Hf. destruct (shortest_path G a b); [by inversion Hf | discriminate]. }
  destruct (main_chain_loop_spec (minimum_cycle_basis G) (concat shorts)
              (S (S (length (minimum_cycle_basis G))))
              (concat shorts) (concat shorts) (minimum_cycle_basis G) [])
    as (Hin & Hfrom & Hno).
  { right. lia. }
  { intros i Hi _. done. }
  { done. }
  { done. }
  { intros x Hx. by left. }
  { intros Heq. split; [done|].
    destruct (minimum_cycle_basis G); [|discriminate].
    intros i Hi. inversion Hi. }
  rewrite Hmain in Hin, Hfrom, Hno. rewrite ?Hmain.
  split; [|split; [|split; [|split]]].
  - intros a b Hab. destruct (Hpair_short a b Hab) as (short & Hs & Hsp).
    exists short. split; [done|]. split.
    + split; [apply Hmin_le | apply Hmax_le];
        apply list_elem_of_fmap; by exists short.
    + intros x Hx. apply Hin. apply elem_of_concat. by exists short.
  - intros i Hi Htouch. by apply ring_fires_false; [apply Hno|].
  - intros x Hx. apply Hfrom in Hx as [Hx | Hx]; [left | by right].
    apply elem_of_concat in Hx as (short & Hx & Hs).
    destruct (Hshort_pair short Hs) as (a & b & Hab & Hsp).
    by exists a, b, short.
  - apply list_elem_of_fmap in Hmin_in as (short & -> & Hs).
    destruct (Hshort_pair short Hs) as (a & b & Hab & Hsp).
    by exists a, b, short.
  - apply list_elem_of_fmap in Hmax_in as (short & -> & Hs).
    destruct (Hshort_pair short Hs) as (a & b & Hab & Hsp).
    by exists a, b, short.
Qed.

End MainChain.

(** ** branch *)

Lemma elem_of_set_of (x : nat) (l : list nat) : x ∈ set_of l <-> x ∈ l.
Proof. unfold set_of. apply elem_of_list_to_set. Qed.

Lemma elem_of_elements_set_of (x : nat) (l : list nat) :
  x ∈ elements (set_of l) <-> x ∈ l.
Proof. by rewrite elem_of_elements, elem_of_set_of. Qed.

Lemma inb_true (x : nat) (l : list nat) : inb x l = true <-> x ∈ l.
Proof. unfold inb. apply bool_decide_eq_true. Qed.

Lemma inb_false (x : nat) (l : list nat) : inb x l = false <-> x ∉ l.
Proof. unfold inb. apply bool_decide_eq_false. Qed.

Lemma branch_hit_true molcif main_paths atoms_in_sbu atom :
  branch_hit molcif main_paths atoms_in_sbu atom = true ->
  exists b, b ∈ getBondedAtoms molcif atom /\ (b ∉ main_paths) /\ (b ∉ atoms_in_sbu).
Proof.
  unfold branch_hit. rewrite bool_decide_eq_true. intros Hsize.
  destruct (set_choose_L
              (set_of (getBondedAtoms molcif atom) ∖ set_of main_paths
                 ∖ set_of atoms_in_sbu)) as [b Hb].
  - intros He. rewrite He, size_empty in Hsize. lia.
  - exists b. rewrite !elem_of_difference, !elem_of_set_of in Hb. tauto.
Qed.

Lemma branch_grow_spec molcif main_paths atom x :
  x ∈ branch_grow molcif main_paths atom <->
  x ∈ getBondedAtoms molcif atom /\ (x ∉ main_paths).
Proof.
  unfold branch_grow.
  by rewrite elem_of_elements, elem_of_difference, !elem_of_set_of.
Qed.

(** The loop once [new_atoms] names a fresh list: both lists only grow, by
    atoms bonded to an atom the loop visits and off the main paths. *)
Lemma branch_rest_spec molcif main_paths :
  forall todo new_atoms atoms_in_sbu n a,
  branch_rest molcif main_paths todo new_atoms atoms_in_sbu = (n, a) ->
  (forall x, x ∈ new_atoms -> x ∈ n) /\
  (forall x, x ∈ atoms_in_sbu -> x ∈ a) /\
  (forall (C : nat -> Prop),
     (forall y x, C y -> x ∈ getBondedAtoms molcif y -> x ∉ main_paths -> C x) ->
     (forall x, x ∈ todo -> C x) -> (forall x, x ∈ new_atoms -> C x) ->
     (forall x, x ∈ n -> C x) /\
     (forall x, x ∈ a -> x ∈ atoms_in_sbu \/ C x)).
Proof.
  induction todo as [|atom todo IH]; intros new_atoms sbu n a Hrun; simpl in Hrun.
  - inversion Hrun; subst. repeat split; auto.
  - destruct (branch_hit molcif main_paths sbu atom).
    + destruct (IH _ _ _ _ Hrun) as (Hn & Ha & HC). split; [|split].
      * intros x Hx. apply Hn, elem_of_elements_set_of, elem_of_app. by left.
      * intros x Hx. apply Ha, elem_of_app. by left.
      * intros C Hstep Htodo Hnew.
        assert (Hnew' : forall x,
                  x ∈ elements (set_of (new_atoms ++ branch_grow molcif main_paths atom)) ->
                  C x).
        { intros x Hx. apply elem_of_elements_set_of, elem_of_app in Hx as [Hx | Hx];
            [auto|].
          apply branch_grow_spec in Hx as [Hb Hm].
          apply (Hstep atom); [apply Htodo; left | done | done]. }
        destruct (HC C Hstep) as [HCn HCa]; [intros x Hx; apply Htodo; by right | done |].
        split; [done|].
        intros x Hx. apply HCa in Hx as [Hx | Hx]; [|by right].
        apply elem_of_app in Hx as [Hx | Hx]; [by left | right; auto].
    + destruct (IH _ _ _ _ Hrun) as (Hn & Ha & HC). split; [done|]. split; [done|].
      intros C Hstep Htodo Hnew. apply HC; [done | | done].
      intros x Hx. apply Htodo. by right.
Qed.

(** The loop while [new_atoms] still names the list being iterated. *)
Lemma branch_first_None molcif main_paths :
  forall todo seen atoms_in_sbu,
  branch_first molcif main_paths seen todo atoms_in_sbu = None ->
  forall atom, atom ∈ todo -> branch_hit molcif main_paths atoms_in_sbu atom = false.
Proof.
  induction todo as [|atom todo IH]; intros seen sbu Hrun x Hx; [inversion Hx|].
  simpl in Hrun. destruct (branch_hit molcif main_paths sbu atom) eqn:Hhit.
  - destruct (branch_rest _ _ _ _ _); discriminate.
  - apply elem_of_cons in Hx as [-> | Hx]; [done | by eapply IH].
Qed.

Lemma branch_first_Some molcif main_paths :
  forall todo seen atoms_in_sbu grown n a,
  branch_first molcif main_paths seen todo atoms_in_sbu = Some (grown, n, a) ->
  (exists atom b, atom ∈ todo /\ b ∈ getBondedAtoms molcif atom /\
                  (b ∉ main_paths) /\ (b ∉ atoms_in_sbu) /\ b ∈ a) /\
  (forall x, x ∈ atoms_in_sbu -> x ∈ a) /\
  (forall x, x ∈ seen ++ todo -> x ∈ n /\ x ∈ grown) /\
  (forall (C : nat -> Prop),
     (forall y x, C y -> x ∈ getBondedAtoms molcif y -> x ∉ main_paths -> C x) ->
     (forall x, x ∈ seen ++ todo -> C x) ->
     (forall x, x ∈ grown -> C x) /\ (forall x, x ∈ n -> C x) /\
     (forall x, x ∈ a -> x ∈ atoms_in_sbu \/ C x)).
Proof.
  induction todo as [|atom todo IH]; intros seen sbu grown n a Hrun; simpl in Hrun;
    [discriminate|].
  destruct (branch_hit molcif main_paths sbu atom) eqn:Hhit.
  - destruct (branch_rest _ _ _ _ _) as [n' a'] eqn:Hrest.
    inversion Hrun; subst grown n' a'. clear Hrun.
    destruct (branch_rest_spec _ _ _ _ _ _ _ Hrest) as (Hn & Ha & HC).
    set (more := branch_grow molcif main_paths atom) in *.
    set (grown := seen ++ atom :: todo ++ more) in *.
    split; [|split; [|split]].
    + apply branch_hit_true in Hhit as (b & Hb & Hm & Hs).
      exists atom, b. split; [left|]. repeat split; try done.
      apply Ha, elem_of_app. right. apply elem_of_elements_set_of.
      unfold grown. rewrite elem_of_app, elem_of_cons, elem_of_app.
      right. right. right. by apply branch_grow_spec.
    + intros x Hx. apply Ha, elem_of_app. by left.
    + intros x Hx.
      assert (Hg : x ∈ grown).
      { unfold grown. rewrite elem_of_app, elem_of_cons, elem_of_app.
        rewrite elem_of_app, elem_of_cons in Hx. tauto. }
      split; [|done]. by apply Hn, elem_of_elements_set_of.
    + intros C Hstep Hlist.
      assert (Hgrown : forall x, x ∈ grown -> C x).
      { intros x. unfold grown. rewrite elem_of_app, elem_of_cons, elem_of_app.
        intros [Hx | [-> | [Hx | Hx]]].
        - apply Hlist, elem_of_app. by left.
        - apply Hlist, elem_of_app. right. left.
        - apply Hlist, elem_of_app. right. by right.
        - apply branch_grow_spec in Hx as [Hb Hm].
          apply (Hstep atom); [|done|done].
          apply Hlist, elem_of_app. right. left. }
      split; [done|].
      destruct (HC C Hstep) as [HCn HCa].
      * intros x Hx. apply Hgrown. unfold grown.
        rewrite elem_of_app, elem_of_cons. right. by right.
      * intros x Hx. by apply Hgrown, elem_of_elements_set_of.
      * split; [done|]. intros x Hx. apply HCa in Hx as [Hx | Hx]; [|by right].
        apply elem_of_app in Hx as [Hx | Hx]; [by left|].
        right. by apply Hgrown, elem_of_elements_set_of.
  - destruct (IH _ _ _ _ _ Hrun) as ((at' & b & Hat & Hb) & Ha & Hl & HC).
    assert (Heq : forall x, x ∈ (seen ++ [atom]) ++ todo <-> x ∈ seen ++ atom :: todo).
    { intros x. by rewrite <- app_assoc. }
    split; [exists at', b; split; [by right | done]|].
    split; [done|]. split.
    + intros x Hx. by apply Hl, Heq.
    + intros C Hstep Hlist. apply HC; [done|]. intros x Hx. by apply Hlist, Heq.
Qed.

(** What a call of [branch] that returns has returned. *)
Lemma branch_spec molcif main_paths :
  forall depth atoms_in_sbu new_atoms grown n a,
  branch depth molcif main_paths atoms_in_sbu new_atoms = Ok (grown, n, a) ->
  (forall x, x ∈ new_atoms -> x ∈ n) /\
  (forall x, x ∈ atoms_in_sbu -> x ∈ a) /\
  (forall (C : nat -> Prop),
     (forall y x, C y -> x ∈ getBondedAtoms molcif y -> x ∉ main_paths -> C x) ->
     (forall x, x ∈ new_atoms -> C x) ->
     (forall x, x ∈ grown -> C x) /\ (forall x, x ∈ n -> C x) /\
     (forall x, x ∈ a -> x ∈ atoms_in_sbu \/ C x)).
Proof.
  induction depth as [|d IH]; intros sbu new_atoms grown n a Hrun; simpl in Hrun;
    [discriminate|].
  destruct (branch_first molcif main_paths [] new_atoms sbu)
    as [[[grown1 n1] a1]|] eqn:Hfirst.
  - destruct (branch_first_Some _ _ _ _ _ _ _ _ Hfirst) as (_ & Ha1 & Hl1 & HC1).
    simpl in Hl1, HC1.
    destruct (length sbu =? length a1).
    + inversion Hrun; subst. split; [intros x Hx; by apply Hl1|]. split; [done|].
      intros C Hstep Hnew. by apply HC1.
    + destruct (branch d molcif main_paths a1 n1) as [[[g2 n2] a2]|e] eqn:Hrec;
        simpl in Hrun; [|discriminate].
      inversion Hrun; subst grown n a. clear Hrun.
      destruct (IH _ _ _ _ _ Hrec) as (Hn2 & Ha2 & HC2).
      split; [|split].
      * intros x Hx. apply elem_of_app. right. apply Hn2. by apply Hl1.
      * intros x Hx. apply elem_of_app. left. auto.
      * intros C Hstep Hnew. destruct (HC1 C Hstep Hnew) as (Hg1 & HCn1 & HCa1).
        destruct (HC2 C Hstep HCn1) as (Hg2 & HCn2 & HCa2).
        split; [done|]. split.
        -- intros x Hx. apply elem_of_app in Hx as [Hx | Hx]; auto.
        -- intros x Hx.
           assert (Hx' : x ∈ a2) by (apply elem_of_app in Hx as [Hx | Hx]; done).
           apply HCa2 in Hx' as [Hx' | Hx']; [auto | by right].
  - inversion Hrun; subst. split; [done|]. split; [done|].
    intros C Hstep Hnew. repeat split; auto.
Qed.

(** A round of [branch] that goes on has taken in an atom of the structure
    that was neither on the main paths nor in [atoms_in_sbu]. *)
Lemma branch_first_untouched molcif main_paths seen todo atoms_in_sbu grown n a :
  wf_mol molcif ->
  branch_first molcif main_paths seen todo atoms_in_sbu = Some (grown, n, a) ->
  size (untouched molcif main_paths a) < size (untouched molcif main_paths atoms_in_sbu).
Proof.
  intros Hwf Hrun.
  destruct (branch_first_Some _ _ _ _ _ _ _ _ Hrun)
    as ((atom & b & _ & Hb & Hm & Hs & Hba) & Ha & _).
  apply subset_size. unfold untouched. split.
  - intros x. rewrite !elem_of_difference, !elem_of_set_of. naive_solver.
  - intros Heq.
    assert (Hin : b ∈ set_of (seq 0 (natoms molcif)) ∖ set_of main_paths
                      ∖ set_of atoms_in_sbu).
    { rewrite !elem_of_difference, !elem_of_set_of, elem_of_seq.
      split; [split|]; [|done|done].
      pose proof (bonded_bound molcif atom b Hwf Hb). lia. }
    apply Heq in Hin. rewrite !elem_of_difference, !elem_of_set_of in Hin. tauto.
Qed.

Lemma branch_enough_depth molcif main_paths :
  wf_mol molcif ->
  forall depth atoms_in_sbu new_atoms,
  size (untouched molcif main_paths atoms_in_sbu) < depth ->
  exists r, branch depth molcif main_paths atoms_in_sbu new_atoms = Ok r.
Proof.
  intros Hwf. induction depth as [|d IH]; intros sbu new_atoms Hd; [lia|].
  simpl.
  destruct (branch_first molcif main_paths [] new_atoms sbu)
    as [[[grown1 n1] a1]|] eqn:Hfirst; [|by eexists].
  destruct (length sbu =? length a1); [by eexists|].
  pose proof (branch_first_untouched _ _ _ _ _ _ _ _ Hwf Hfirst) as Hlt.
  destruct (IH a1 n1) as [[[g2 n2] a2] Hrec]; [lia|].
  rewrite Hrec. simpl. by eexists.
Qed.

Lemma untouched_bound molcif main_paths atoms_in_sbu :
  size (untouched molcif main_paths atoms_in_sbu) <= natoms molcif.
Proof.
  unfold untouched.
  etransitivity; [apply subseteq_size|].
  - intros x Hx. apply elem_of_difference in Hx as [Hx _].
    apply elem_of_difference in Hx as [Hx _]. exact Hx.
  - unfold set_of. rewrite size_list_to_set by apply NoDup_seq.
    by rewrite length_seq.
Qed.

(** X2.  On a well-formed structure [branch] comes to an end within one
    nested call more than there are atoms that are neither on the main
    paths nor in [atoms_in_sbu]: with that many calls allowed (in
    particular with more calls than the structure has atoms) it returns and
    does not run into the recursion limit. *)
Theorem branch_terminates (molcif : mol3D) (main_paths atoms_in_sbu new_atoms : list nat)
    (depth : nat) :
  wf_mol molcif ->
  size (untouched molcif main_paths atoms_in_sbu) < depth \/ natoms molcif < depth ->
  exists grown n a,
    branch depth molcif main_paths atoms_in_sbu new_atoms = Ok (grown, n, a).
Proof.
  intros Hwf Hd.
  destruct (branch_enough_depth molcif main_paths Hwf depth atoms_in_sbu new_atoms)
    as [[[grown n] a] Hr].
  - destruct Hd as [Hd | Hd]; [done|].
    pose proof (untouched_bound molcif main_paths atoms_in_sbu). lia.
  - by exists grown, n, a.
Qed.

(** X3.  What [branch] returns: the atoms it was started from are among the
    atoms returned, [atoms_in_sbu] has only grown, and every atom returned
    (and every atom added to [atoms_in_sbu]) can be reached from a start
    atom along bonds without stepping on an atom of the main paths. *)
Theorem branch_climbs (molcif : mol3D) (main_paths atoms_in_sbu new_atoms : list nat)
    (depth : nat) (grown n a : list nat) :
  branch depth molcif main_paths atoms_in_sbu new_atoms = Ok (grown, n, a) ->
  (forall x, x ∈ new_atoms -> x ∈ n) /\
  (forall x, x ∈ atoms_in_sbu -> x ∈ a) /\
  (forall x, x ∈ n -> climbs molcif main_paths new_atoms x) /\
  (forall x, x ∈ a -> x ∈ atoms_in_sbu \/ climbs molcif main_paths new_atoms x) /\
  (forall x, x ∈ n -> x ∈ main_paths -> x ∈ new_atoms).
Proof.
  intros Hrun. destruct (branch_spec _ _ _ _ _ _ _ _ Hrun) as (Hn & Ha & HC).
  split; [done|]. split; [done|].
  destruct (HC (climbs molcif main_paths new_atoms)) as (_ & Hcn & Hca).
  { intros y x. apply climbs_step. }
  { intros x. apply climbs_start. }
  split; [done|]. split; [done|].
  destruct (HC (fun x => x ∈ main_paths -> x ∈ new_atoms)) as (_ & Hmn & _).
  { intros y x _ _ Hx Hm. done. }
  { done. }
  exact Hmn.
Qed.

(** ** The bookkeeping of a fragment *)

Lemma in_step_empty : in_step empty_fragment.
Proof.
  unfold in_step. simpl. split; [done|]. split; [|apply NoDup_nil_2].
  intros k. by rewrite lookup_empty.
Qed.

Lemma frag_add_in_step f a v :
  in_step f -> v ∉ f_added f -> in_step (frag_add f a v).
Proof.
  intros (Hlen & Hd & Hnd) Hv. unfold in_step, frag_add, addAtom, natoms. simpl.
  rewrite !length_app. simpl. split; [lia|]. split.
  - intros k.
    replace (length (atoms (f_mol f)) + 1 - 1) with (length (f_added f)) by lia.
    destruct (decide (k = length (f_added f))) as [-> | Hne].
    + rewrite lookup_insert_eq. by rewrite list_lookup_middle.
    + rewrite lookup_insert_ne by done. rewrite Hd.
      destruct (decide (k < length (f_added f))).
      * by rewrite lookup_app_l.
      * rewrite !lookup_ge_None_2; [done | rewrite length_app; simpl; lia | lia].
  - apply NoDup_app. split; [done|]. split; [|apply NoDup_singleton].
    intros x Hx Hx'. apply list_elem_of_singleton in Hx'. by subst.
Qed.

Lemma extends_refl f : extends f f.
Proof. split; [done|]. exists []. by rewrite app_nil_r. Qed.

Lemma extends_trans f1 f2 f3 : extends f1 f2 -> extends f2 f3 -> extends f1 f3.
Proof.
  intros [H1 [m1 E1]] [H2 [m2 E2]]. split; [auto|].
  exists (m1 ++ m2). by rewrite E2, E1, app_assoc.
Qed.

Lemma extends_elem f f' x : extends f f' -> x ∈ f_added f -> x ∈ f_added f'.
Proof. intros [_ [m E]] Hx. rewrite E. apply elem_of_app. by left. Qed.

Lemma extends_lookup f f' j x :
  extends f f' -> f_added f !! j = Some x -> f_added f' !! j = Some x.
Proof. intros [_ [m E]] Hx. rewrite E. by apply lookup_app_l_Some. Qed.

Lemma extends_frag_add f a v : v ∉ f_added f -> extends f (frag_add f a v).
Proof.
  intros Hv. split; [intros Hf; by apply frag_add_in_step|]. by exists [v].
Qed.

Lemma extends_frag_add_new molcif f v : extends f (frag_add_new molcif f v).
Proof.
  unfold frag_add_new. destruct (inb v (f_added f)) eqn:Hv; [apply extends_refl|].
  apply extends_frag_add. by apply inb_false.
Qed.

Lemma frag_add_new_elem molcif f v : v ∈ f_added (frag_add_new molcif f v).
Proof.
  unfold frag_add_new. destruct (inb v (f_added f)) eqn:Hv.
  - by apply inb_true.
  - simpl. apply elem_of_app. right. left.
Qed.

Lemma extends_foldl {A} (g : fragment -> A -> fragment) (l : list A) f :
  (forall f a, extends f (g f a)) -> extends f (foldl g f l).
Proof.
  intros Hg. revert f. induction l as [|a l IH]; intros f; simpl.
  - apply extends_refl.
  - eapply extends_trans; [apply Hg | apply IH].
Qed.

Lemma foldl_frag_add_new_elem molcif (l : list nat) f x :
  x ∈ l -> x ∈ f_added (foldl (frag_add_new molcif) f l).
Proof.
  revert f. induction l as [|a l IH]; intros f Hx; [inversion Hx|]. simpl.
  apply elem_of_cons in Hx as [-> | Hx]; [|by apply IH].
  eapply extends_elem; [|apply frag_add_new_elem].
  apply (extends_foldl (frag_add_new molcif)). intros. apply extends_frag_add_new.
Qed.

(** The inverted dictionary of a fragment in step sends an atom of molcif
    to its one local index. *)
Lemma inv_dict_lookup (d : gmap nat nat) (l : list nat) (v j : nat) :
  (forall k, d !! k = l !! k) -> NoDup l ->
  inv_dict d (length l) !! v = Some j <-> l !! j = Some v.
Proof.
  intros Hd Hnd. unfold inv_dict.
  assert (Hgen : forall m, m <= length l ->
            foldl (fun acc k => match d !! k with
                                | Some v => <[v := k]> acc
                                | None => acc
                                end) (∅ : gmap nat nat) (seq 0 m) !! v = Some j <->
            j < m /\ l !! j = Some v).
  { induction m as [|m IH]; intros Hm.
    - simpl. rewrite lookup_empty. split; [done | intros [? _]; lia].
    - rewrite seq_S, foldl_app. simpl.
      destruct (lookup_lt_is_Some_2 l m) as [w Hw]; [lia|].
      rewrite Hd, Hw. destruct (decide (v = w)) as [-> | Hne].
      + rewrite lookup_insert_eq. split.
        * intros H. inversion H; subst. split; [lia | done].
        * intros [_ Hj]. f_equal. by eapply NoDup_lookup.
      + rewrite lookup_insert_ne by done. rewrite IH by lia. split.
        * intros [? ?]. split; [lia | done].
        * intros [Hj Hl]. split; [|done].
          destruct (decide (j = m)) as [-> | ?]; [congruence | lia]. }
  rewrite Hgen by done. split; [by intros [_ ?]|].
  intros Hj. split; [|done]. by eapply lookup_lt_Some.
Qed.

Lemma in_step_inv_dict f v j :
  in_step f ->
  inv_dict (f_dict f) (natoms (f_mol f)) !! v = Some j <-> f_added f !! j = Some v.
Proof.
  intros (Hlen & Hd & Hnd). unfold natoms. rewrite Hlen.
  by apply inv_dict_lookup.
Qed.

(** ** Placing the placeholders *)

Lemma place_X_extends st x : extends (c_frag st) (c_frag (place_X st x)).
Proof.
  destruct x as [[new_atom replaced] anchor]. unfold place_X.
  destruct (inb replaced (f_added (c_frag st))) eqn:Hin; [apply extends_refl|].
  simpl. apply extends_frag_add. by apply inb_false.
Qed.

(** What the loop over the capping records keeps true from a fragment with
    [n0] atoms on. *)
Lemma place_all_X_spec (f : fragment) (Xl : list X_record) :
  in_step f ->
  let c := place_all_X f Xl in
  extends f (c_frag c) /\ in_step (c_frag c) /\
  c_final_X_indices c = (c_tuple_list c).*1 /\
  (forall k anchor, (k, anchor) ∈ c_tuple_list c ->
     length (f_added f) <= k /\
     exists new_atom replaced,
       (new_atom, replaced, anchor) ∈ Xl /\
       f_added (c_frag c) !! k = Some replaced) /\
  (forall x, x ∈ f_added (c_frag c) ->
     x ∈ f_added f \/ exists new_atom anchor, (new_atom, x, anchor) ∈ Xl) /\
  (forall new_atom replaced anchor, (new_atom, replaced, anchor) ∈ Xl ->
     replaced ∈ f_added (c_frag c)).
Proof.
  intros Hstep. unfold place_all_X.
  set (Inv := fun (seen : list X_record) (st : capped) =>
    extends f (c_frag st) /\ in_step (c_frag st) /\
    c_final_X_indices st = (c_tuple_list st).*1 /\
    (forall k anchor, (k, anchor) ∈ c_tuple_list st ->
       length (f_added f) <= k /\
       exists new_atom replaced,
         (new_atom, replaced, anchor) ∈ seen /\
         f_added (c_frag st) !! k = Some replaced) /\
    (forall x, x ∈ f_added (c_frag st) ->
       x ∈ f_added f \/ exists new_atom anchor, (new_atom, x, anchor) ∈ seen) /\
    (forall new_atom replaced anchor, (new_atom, replaced, anchor) ∈ seen ->
       replaced ∈ f_added (c_frag st))).
  assert (Hgen : forall todo seen st, Inv seen st -> Inv (seen ++ todo) (foldl place_X st todo)).
  { induction todo as [|x todo IH]; intros seen st HI; simpl.
    - by rewrite app_nil_r.
    - replace (seen ++ x :: todo) with ((seen ++ [x]) ++ todo)
        by (by rewrite <- app_assoc).
      apply IH. clear IH.
      destruct HI as (Hext & Hin & Hidx & Htup & Hfrom & Hall).
      destruct x as [[new_atom replaced] anchor]. unfold place_X.
      destruct (inb replaced (f_added (c_frag st))) eqn:Hrep.
      + apply inb_true in Hrep. unfold Inv.
        split; [done|]. split; [done|]. split; [done|]. split; [|split].
        * intros k a Hk. destruct (Htup k a Hk) as (Hle & na & r & Hr & Hl).
          split; [done|]. exists na, r. split; [|done]. apply elem_of_app. by left.
        * intros y Hy. apply Hfrom in Hy as [Hy | (na & a & Hy)]; [by left|].
          right. exists na, a. apply elem_of_app. by left.
        * intros na r a Hr. apply elem_of_app in Hr as [Hr | Hr]; [by eapply Hall|].
          apply list_elem_of_singleton in Hr. by inversion Hr; subst.
      + apply inb_false in Hrep.
        pose proof (extends_frag_add (c_frag st) new_atom replaced Hrep) as Hext'.
        unfold Inv. simpl.
        assert (Hk0 : natoms (addAtom (f_mol (c_frag st)) new_atom) - 1 =
                      length (f_added (c_frag st))).
        { destruct Hin as (Hlen & _). unfold natoms, addAtom. simpl.
          rewrite length_app. simpl. lia. }
        rewrite Hk0.
        split; [by eapply extends_trans|]. split; [by apply frag_add_in_step|].
        split; [by rewrite fmap_app, Hidx|]. split; [|split].
        * intros k a Hk. apply elem_of_app in Hk as [Hk | Hk].
          -- destruct (Htup k a Hk) as (Hle & na & r & Hr & Hl).
             split; [done|]. exists na, r. split; [apply elem_of_app; by left|].
             by apply lookup_app_l_Some.
          -- apply list_elem_of_singleton in Hk. inversion Hk; subst k a.
             split.
             ++ destruct Hext as [_ [more E]]. rewrite E, length_app. lia.
             ++ exists new_atom, replaced. split; [apply elem_of_app; right; left|].
                by rewrite list_lookup_middle.
        * intros y Hy. apply elem_of_app in Hy as [Hy | Hy].
          -- apply Hfrom in Hy as [Hy | (na & a & Hy)]; [by left|].
             right. exists na, a. apply elem_of_app. by left.
          -- apply list_elem_of_singleton in Hy. subst y.
             right. exists new_atom, anchor. apply elem_of_app. right. left.
        * intros na r a Hr. apply elem_of_app. apply elem_of_app in Hr as [Hr | Hr].
          -- left. by eapply Hall.
          -- apply list_elem_of_singleton in Hr. inversion Hr; subst. right. left. }
  apply (Hgen Xl [] (mk_capped f [] [] [])).
  unfold Inv. simpl. split; [apply extends_refl|]. split; [done|]. split; [done|].
  split; [|split].
  - intros k a Hk. inversion Hk.
  - intros x Hx. by left.
  - intros na r a Hr. inversion Hr.
Qed.

(** The atoms of the fragment after the loop: the atoms it had and the
    atoms the records replace; the atoms that are X: the atoms the records
    replace that the fragment did not have. *)
Lemma place_all_X_added (f : fragment) (Xl : list X_record) :
  let c := place_all_X f Xl in
  (forall x, x ∈ f_added (c_frag c) <->
     x ∈ f_added f \/ exists new_atom anchor, (new_atom, x, anchor) ∈ Xl) /\
  (forall x, x ∈ c_atoms_that_are_X c <->
     (x ∉ f_added f) /\ exists new_atom anchor, (new_atom, x, anchor) ∈ Xl).
Proof.
  unfold place_all_X.
  set (Inv := fun (seen : list X_record) (st : capped) =>
    (forall x, x ∈ f_added (c_frag st) <->
       x ∈ f_added f \/ exists new_atom anchor, (new_atom, x, anchor) ∈ seen) /\
    (forall x, x ∈ c_atoms_that_are_X st <->
       (x ∉ f_added f) /\ exists new_atom anchor, (new_atom, x, anchor) ∈ seen)).
  assert (Hgen : forall todo seen st, Inv seen st -> Inv (seen ++ todo) (foldl place_X st todo)).
  { induction todo as [|x todo IH]; intros seen st HI; simpl.
    - by rewrite app_nil_r.
    - replace (seen ++ x :: todo) with ((seen ++ [x]) ++ todo)
        by (by rewrite <- app_assoc).
      apply IH. clear IH. destruct HI as (Hadd & HX).
      destruct x as [[new_atom replaced] anchor]. unfold place_X.
      assert (Hsnoc : forall y,
                (exists na a, (na, y, a) ∈ seen ++ [(new_atom, replaced, anchor)]) <->
                (exists na a, (na, y, a) ∈ seen) \/ y = replaced).
      { intros y. split.
        - intros (na & a & Hy). apply elem_of_app in Hy as [Hy | Hy]; [left; eauto|].
          apply list_elem_of_singleton in Hy. inversion Hy. by right.
        - intros [(na & a & Hy) | ->].
          + exists na, a. apply elem_of_app. by left.
          + exists new_atom, anchor. apply elem_of_app. right. left. }
      destruct (inb replaced (f_added (c_frag st))) eqn:Hrep.
      + apply inb_true in Hrep. split.
        * intros y. rewrite Hsnoc, Hadd. split; [tauto|].
          intros [Hy | [Hy | ->]]; [tauto | tauto | by apply Hadd].
        * intros y. rewrite Hsnoc, HX. split; [tauto|].
          intros [Hy [Hs | ->]]; [tauto|]. split; [done|].
          apply Hadd in Hrep as [Hrep | Hrep]; done.
      + apply inb_false in Hrep. split; simpl.
        * intros y. rewrite elem_of_app, list_elem_of_singleton, Hsnoc, Hadd. tauto.
        * intros y. rewrite elem_of_app, list_elem_of_singleton, Hsnoc, HX.
          split; [|tauto]. intros [Hy | ->]; [tauto|]. split; [|by right].
          intros Hf. apply Hrep, Hadd. by left. }
  apply (Hgen Xl [] (mk_capped f [] [] [])). split; simpl.
  - intros x. split; [by left|]. intros [Hx | (na & a & Hx)]; [done | inversion Hx].
  - intros x. split; [intros Hx; inversion Hx | intros [_ (na & a & Hx)]; inversion Hx].
Qed.

Section Fragments.
Context {ML : Mol3DLib} {PL : PBCLib} {GL : GraphLib} {RT : Runtime}.

(** ** The atoms of an SBU fragment *)

Lemma cycle_step_extends molcif val st cycle :
  extends st.1 (cycle_step molcif val st cycle).1.
Proof.
  unfold cycle_step. destruct (inb val cycle); [|apply extends_refl].
  pose proof (foldl_preserves (fun p : fragment * list nat => extends st.1 p.1)
                (fun '(f, tbl) cycle_val =>
                   (frag_add_new molcif f cycle_val,
                    tbl ++ elements (set_of (getBondedAtoms molcif cycle_val) ∖ set_of cycle)))
                cycle (st.1, [])) as H.
  destruct (foldl _ (st.1, []) cycle) as [f tbl]. simpl in *. apply H.
  - apply extends_refl.
  - intros [f' tbl'] b Hf'. simpl in *.
    eapply extends_trans; [exact Hf' | apply extends_frag_add_new].
Qed.

Lemma cycle_fold_extends molcif val st (cycles : list (list nat)) :
  extends st.1 (foldl (cycle_step molcif val) st cycles).1.
Proof.
  apply (foldl_preserves (fun p : fragment * list (list nat) => extends st.1 p.1)).
  - apply extends_refl.
  - intros p c Hp. eapply extends_trans; [exact Hp | apply cycle_step_extends].
Qed.

Lemma seed_step_spec molcif main_paths subcycle_list st val st' :
  seed_step molcif main_paths subcycle_list st val = Ok st' ->
  extends st.1 st'.1 /\ val ∈ f_added st'.1.
Proof.
  unfold seed_step.
  set (f := frag_add_new molcif st.1 val).
  set (st1 := if existsb (inb val) subcycle_list
              then foldl (cycle_step molcif val) (f, st.2) subcycle_list
              else (f, st.2)).
  assert (H1 : extends f st1.1).
  { unfold st1. destruct (existsb _ _); [|apply extends_refl].
    apply (cycle_fold_extends molcif val (f, st.2)). }
  destruct (branch _ _ _ _ _) as [[[g n] a]|e]; simpl; [|discriminate].
  intros H. inversion H; subst st'. clear H. simpl.
  assert (H2 : extends f (foldl (frag_add_new molcif) st1.1 n)).
  { eapply extends_trans; [exact H1|]. apply (extends_foldl (frag_add_new molcif)).
    intros. apply extends_frag_add_new. }
  split.
  - eapply extends_trans; [apply extends_frag_add_new | exact H2].
  - eapply extends_elem; [exact H2 | apply frag_add_new_elem].
Qed.

Lemma seed_loop_spec molcif main_paths subcycle_list :
  forall SBU st st',
  seed_loop molcif main_paths subcycle_list st SBU = Ok st' ->
  extends st.1 st'.1 /\ forall val, val ∈ SBU -> val ∈ f_added st'.1.
Proof.
  induction SBU as [|val SBU IH]; intros st st' Hrun; simpl in Hrun.
  - inversion Hrun; subst. split; [apply extends_refl|]. intros v Hv. inversion Hv.
  - destruct (seed_step molcif main_paths subcycle_list st val) as [st1|e] eqn:Hs;
      simpl in Hrun; [|discriminate].
    destruct (seed_step_spec _ _ _ _ _ _ Hs) as [He Hv].
    destruct (IH _ _ Hrun) as [He' Hall]. split; [by eapply extends_trans|].
    intros v Hin. apply elem_of_cons in Hin as [-> | Hin]; [|auto].
    by eapply extends_elem.
Qed.

Lemma merge_shared_extends molcif flat f bonded_atoms_to_cycle :
  extends f (merge_shared molcif flat f bonded_atoms_to_cycle).
Proof.
  unfold merge_shared. destruct (1 <? _); [|apply extends_refl].
  eapply extends_trans.
  - apply (extends_foldl
             (fun f '(c0, c1) =>
                if bool_decide (c0 = c1) then f
                else foldl (frag_add_new molcif) f (elements (set_of c0 ∩ set_of c1)))).
    intros f' [c0 c1].
    destruct (bool_decide (c0 = c1)); [apply extends_refl|].
    apply (extends_foldl (frag_add_new molcif)). intros. apply extends_frag_add_new.
  - apply (extends_foldl (frag_add_new molcif)). intros. apply extends_frag_add_new.
Qed.

Lemma cap_record_weaken molcif allowed base base' x :
  (forall a, a ∈ base -> a ∈ base') ->
  cap_record molcif allowed base x -> cap_record molcif allowed base' x.
Proof. intros Hb (Hg & Ha & Hr & Hbond). repeat split; auto. Qed.

Lemma cap_step_spec molcif main_paths (f0 : fragment) SBU_added_atoms st bonded_atom :
  SBU_added_atoms ∈ f_added f0 ->
  bonded_atom ∈ getBondedAtoms molcif SBU_added_atoms ->
  extends f0 st.1.1 /\ Forall (cap_record molcif main_paths (f_added f0)) st.1.2 ->
  let st' := cap_step molcif main_paths SBU_added_atoms st bonded_atom in
  extends f0 st'.1.1 /\ Forall (cap_record molcif main_paths (f_added f0)) st'.1.2.
Proof.
  intros Hanchor Hbond [Hext HX]. destruct st as [[f Xl] chk]. simpl in *.
  unfold cap_step.
  set (f' := if String.eqb (symbol (getAtom molcif bonded_atom)) "H"
             then frag_add_new molcif f bonded_atom else f).
  assert (Hf' : extends f0 f').
  { unfold f'. destruct (String.eqb _ _); [|done].
    eapply extends_trans; [exact Hext | apply extends_frag_add_new]. }
  destruct (inb bonded_atom main_paths) eqn:Hmain; simpl; [|done].
  destruct (negb _); simpl; [|done].
  split; [done|]. apply Forall_app. split; [done|]. apply Forall_singleton.
  apply inb_true in Hmain. by repeat split.
Qed.

Lemma cap_scan_spec molcif main_paths f :
  let r := cap_scan molcif main_paths f in
  extends f r.1.1 /\ Forall (cap_record molcif main_paths (f_added f)) r.1.2.
Proof.
  unfold cap_scan.
  assert (Hgen : forall l st,
            (forall a, a ∈ l -> a ∈ f_added f) ->
            extends f st.1.1 /\ Forall (cap_record molcif main_paths (f_added f)) st.1.2 ->
            let r := foldl (fun st SBU_added_atoms =>
                              foldl (cap_step molcif main_paths SBU_added_atoms) st
                                    (getBondedAtoms molcif SBU_added_atoms)) st l in
            extends f r.1.1 /\ Forall (cap_record molcif main_paths (f_added f)) r.1.2).
  { induction l as [|a l IH]; intros st Hl Hst; simpl; [done|].
    apply IH; [intros b Hb; apply Hl; by right|].
    assert (Hin : forall bs st,
              (forall b, b ∈ bs -> b ∈ getBondedAtoms molcif a) ->
              extends f st.1.1 /\
                Forall (cap_record molcif main_paths (f_added f)) st.1.2 ->
              let r := foldl (cap_step molcif main_paths a) st bs in
              extends f r.1.1 /\ Forall (cap_record molcif main_paths (f_added f)) r.1.2).
    { induction bs as [|b bs IHb]; intros st1 Hbs Hst1; simpl; [done|].
      apply IHb; [intros b' Hb'; apply Hbs; by right|].
      apply cap_step_spec; [apply Hl; left | apply Hbs; left | done]. }
    by apply Hin. }
  apply Hgen; [done|]. simpl. split; [apply extends_refl | done].
Qed.

(** What [assemble_SBU] hands back, in one statement. *)
Lemma assemble_SBU_spec molcif main_paths subcycle_list flat_subcycle_list SBU c :
  assemble_SBU molcif main_paths subcycle_list flat_subcycle_list SBU = Ok c ->
  exists f Xl,
    c = place_all_X f Xl /\ in_step f /\
    (forall val, val ∈ SBU -> val ∈ f_added f) /\
    Forall (cap_record molcif main_paths (f_added f)) Xl.
Proof.
  unfold assemble_SBU.
  destruct (seed_loop _ _ _ _ _) as [[f b]|e] eqn:Hseed; simpl; [|discriminate].
  destruct (seed_loop_spec _ _ _ _ _ _ Hseed) as [Hext HSBU]. simpl in *.
  pose proof (merge_shared_extends molcif flat_subcycle_list f b) as Hm.
  pose proof (cap_scan_spec molcif main_paths
                (merge_shared molcif flat_subcycle_list f b)) as Hcap.
  destruct (cap_scan _ _ _) as [[f' Xl] chk]. simpl in Hcap.
  destruct Hcap as [Hext' HX].
  intros H. inversion H; subst c. clear H.
  exists f', Xl. split; [done|].
  assert (Hall : extends empty_fragment f').
  { eapply extends_trans; [exact Hext|]. by eapply extends_trans. }
  split; [apply Hall, in_step_empty|]. split.
  - intros val Hv. eapply extends_elem; [exact Hext'|].
    eapply extends_elem; [exact Hm | auto].
  - eapply Forall_impl; [exact HX|]. intros x. apply cap_record_weaken.
    intros a. by apply extends_elem.
Qed.

(** X4.  The bookkeeping of an SBU fragment.  The atoms of the fragment,
    its dictionary and [SBU_added] are in step and no atom of molcif is in
    it twice; every atom of the SBU is in it as an atom that is no
    placeholder; and every capping bond (k, anchor) of [tuple_list_sbu]
    joins a placeholder k, standing for an atom of the main paths bonded in
    molcif to the anchor, to an anchor that the inverted dictionary sends
    to its local index j, an atom that is no placeholder: the lookup of
    line 276 finds its key. *)
Theorem SBU_fragment_in_step molcif main_paths subcycle_list flat_subcycle_list SBU c :
  assemble_SBU molcif main_paths subcycle_list flat_subcycle_list SBU = Ok c ->
  let f := c_frag c in
  let inv_SBU_dict := inv_dict (f_dict f) (natoms (f_mol f)) in
  in_step f /\
  c_final_X_indices c = (c_tuple_list c).*1 /\
  (forall val, val ∈ SBU ->
     exists j, f_dict f !! j = Some val /\ j ∉ c_final_X_indices c) /\
  (forall k anchor, (k, anchor) ∈ c_tuple_list c ->
     exists replaced j,
       f_dict f !! k = Some replaced /\
       replaced ∈ main_paths /\
       replaced ∈ getBondedAtoms molcif anchor /\
       inv_SBU_dict !! anchor = Some j /\
       f_dict f !! j = Some anchor /\
       j ∉ c_final_X_indices c).
Proof.
  intros Hrun f inv_SBU_dict.
  destruct (assemble_SBU_spec _ _ _ _ _ _ Hrun) as (f0 & Xl & Hc & Hstep & HSBU & HX).
  destruct (place_all_X_spec f0 Xl Hstep) as (Hext & Hin & Hidx & Htup & _).
  assert (Hgood : Forall (good_record molcif) Xl).
  { eapply Forall_impl; [exact HX|]. by intros x [Hg _]. }
  destruct (place_all_X_placed molcif f0 Xl Hgood) as (Hn0 & Hseq & _).
  rewrite <- Hc in Hext, Hin, Hidx, Htup, Hn0, Hseq. fold f in Hext, Hin, Hidx, Htup.
  assert (Hn : natoms (f_mol f0) = length (f_added f0)) by (by destruct Hstep).
  assert (Hreal : forall x, x ∈ f_added f0 ->
            exists j, f_added f !! j = Some x /\ j ∉ c_final_X_indices c).
  { intros x Hx. apply list_elem_of_lookup in Hx as [j Hj]. exists j. split.
    - by eapply extends_lookup.
    - rewrite Hseq, elem_of_seq. apply lookup_lt_Some in Hj. lia. }
  destruct Hin as (Hlen & Hd & Hnd).
  split; [done|]. split; [done|]. split.
  - intros val Hv. destruct (Hreal val (HSBU val Hv)) as (j & Hj & Hnot).
    exists j. by rewrite Hd.
  - intros k anchor Hk.
    destruct (Htup k anchor Hk) as (Hle & new_atom & replaced & Hrec & Hl).
    rewrite Forall_forall in HX.
    destruct (HX _ Hrec) as (_ & Hanchor & Hmain & Hbond). simpl in *.
    destruct (Hreal anchor Hanchor) as (j & Hj & Hnot).
    exists replaced, j. rewrite !Hd. repeat split; try done.
    apply in_step_inv_dict; done.
Qed.

(** X5.  On a well-formed structure with fewer atoms than the interpreter
    allows nested calls, the assembly of an SBU fragment runs to its end:
    the only exception it could raise is the RecursionError of [branch],
    and [branch] stays within the limit. *)
Theorem SBU_assembly_total molcif main_paths subcycle_list flat_subcycle_list SBU :
  wf_mol molcif ->
  natoms molcif < recursion_limit ->
  exists c,
    assemble_SBU molcif main_paths subcycle_list flat_subcycle_list SBU = Ok c.
Proof.
  intros Hwf Hlim. unfold assemble_SBU.
  assert (Hloop : forall SBU st, exists st',
            seed_loop molcif main_paths subcycle_list st SBU = Ok st').
  { clear SBU. induction SBU as [|val SBU IH]; intros st; simpl; [by eexists|].
    assert (Hs : exists st1, seed_step molcif main_paths subcycle_list st val = Ok st1).
    { unfold seed_step.
      set (st1 := if existsb (inb val) subcycle_list then _ else _).
      destruct (branch_enough_depth molcif main_paths Hwf recursion_limit
                  (f_added st1.1) [val]) as [[[g n] a] Hb].
      - pose proof (untouched_bound molcif main_paths (f_added st1.1)). lia.
      - rewrite Hb. simpl. by eexists. }
    destruct Hs as [st1 Hs]. rewrite Hs. simpl. apply IH. }
  destruct (Hloop SBU (empty_fragment, [])) as [[f b] Hseed]. rewrite Hseed. simpl.
  destruct (cap_scan _ _ _) as [[f' Xl] chk]. by eexists.
Qed.

End Fragments.

(** ** The atoms of a linker fragment *)

Lemma linker_inv_iff molcif all_SBU_atoms (own own' shell shell' : nat -> Prop) st :
  (forall x, own x <-> own' x) -> (forall x, shell x <-> shell' x) ->
  linker_inv molcif all_SBU_atoms own shell st ->
  linker_inv molcif all_SBU_atoms own' shell' st.
Proof.
  intros Ho Hs (H1 & H2 & H3). split; [|split].
  - intros x. rewrite H1, Ho, Hs. done.
  - intros x Hx. destruct (H2 x Hx) as (Hg & Hsh & Hr). split; [done|].
    split; [by apply Hs | done].
  - intros b s Hb. apply H3. by apply Hs.
Qed.

(** The loop of lines 329-335 leaves the fragment as it is and appends one
    record for every bonded SBU atom that is not in the fragment. *)
Lemma linker_sub_fold molcif del b (subs : list nat) f (Xl : list X_record) :
  foldl (linker_sub_step molcif del b) (f, Xl) subs =
  (f, Xl ++ ((fun s => (mk_atom3D "X" (coords (getAtom molcif s)), s, b)) <$>
             filter (fun s => s ∈ del /\ s ∉ f_added f) subs)).
Proof.
  revert Xl. induction subs as [|s subs IH]; intros Xl; simpl.
  - by rewrite app_nil_r.
  - assert (Hstep : linker_sub_step molcif del b (f, Xl) s =
              (f, if decide (s ∈ del /\ s ∉ f_added f)
                  then Xl ++ [(mk_atom3D "X" (coords (getAtom molcif s)), s, b)]
                  else Xl)).
    { unfold linker_sub_step, inb. simpl.
      destruct (decide (s ∈ del /\ s ∉ f_added f)) as [[H1 H2] | Hn].
      - rewrite (bool_decide_eq_true_2 _ H1), (bool_decide_eq_false_2 _ H2).
        done.
      - destruct (bool_decide_reflect (s ∈ del)); simpl; [|done].
        destruct (bool_decide_reflect (s ∈ f_added f)); simpl; [done|].
        exfalso. by apply Hn. }
    rewrite Hstep, filter_cons.
    destruct (decide (s ∈ del /\ s ∉ f_added f)); rewrite IH; simpl; [|done].
    by rewrite <- app_assoc.
Qed.

Section LinkerFragments.
Context {ML : Mol3DLib} {PL : PBCLib} {GL : GraphLib} {RT : Runtime}.
Variable molcif : mol3D.
Variable all_SBU_atoms : list nat.

#[local] Abbreviation del := (elements (set_of all_SBU_atoms)).
#[local] Abbreviation Inv := (linker_inv molcif all_SBU_atoms).

Lemma elem_of_del x : x ∈ del <-> x ∈ all_SBU_atoms.
Proof. apply elem_of_elements_set_of. Qed.

(** Lines 322-335 for one atom bonded to a linker atom. *)
Lemma linker_bond_step_spec (own shell : nat -> Prop) st b :
  (forall x, own x -> x ∉ all_SBU_atoms) ->
  Inv own shell st ->
  let st' := linker_bond_step molcif all_SBU_atoms del st b in
  Inv own (fun x => shell x \/ (x = b /\ b ∈ all_SBU_atoms)) st' /\
  extends st.1 st'.1.
Proof.
  intros Hown HI. destruct st as [f Xl].
  pose proof HI as (H1 & H2 & H3). simpl in H1, H2, H3.
  unfold linker_bond_step. simpl.
  destruct (inb b all_SBU_atoms) eqn:Hb; simpl.
  2: { apply inb_false in Hb. split; [|apply extends_refl].
       apply (linker_inv_iff molcif all_SBU_atoms own own shell); [done| |exact HI].
       intros x. split; [by left | intros [Hx | [_ Hx]]; done]. }
  apply inb_true in Hb.
  destruct (inb b (f_added f)) eqn:Hin; simpl.
  { apply inb_true in Hin. split; [|apply extends_refl].
    apply (linker_inv_iff molcif all_SBU_atoms own own shell); [done| |exact HI].
    intros x. split; [by left|]. intros [Hx | [-> _]]; [done|].
    apply H1 in Hin as [Hin | Hin]; [|done]. by apply Hown in Hin. }
  apply inb_false in Hin.
  rewrite linker_sub_fold. simpl.
  split; [|by apply extends_frag_add].
  split; [|split]; simpl.
  - intros x. rewrite elem_of_app, list_elem_of_singleton, H1. tauto.
  - intros x Hx. apply elem_of_app in Hx as [Hx | Hx].
    + destruct (H2 x Hx) as (Hg & Hsh & Hr). split; [done|]. split; [by left | done].
    + apply list_elem_of_fmap in Hx as (s & -> & Hs).
      apply list_elem_of_filter in Hs as [[Hd _] Hs]. simpl.
      split; [done|]. split; [right; done|]. split; [by apply elem_of_del | done].
  - intros c s [Hc | [-> _]] Hs Hall.
    + destruct (H3 c s Hc Hs Hall) as [Hf | (na & a & Hr)].
      * left. apply elem_of_app. by left.
      * right. exists na, a. apply elem_of_app. by left.
    + destruct (decide (s ∈ f_added f ++ [b])) as [Hf | Hf]; [by left|].
      right. exists (mk_atom3D "X" (coords (getAtom molcif s))), b.
      apply elem_of_app. right.
      apply list_elem_of_fmap. exists s. split; [done|].
      apply list_elem_of_filter. split; [|done]. split; [by apply elem_of_del | done].
Qed.

Lemma linker_bond_fold_spec (own : nat -> Prop) :
  (forall x, own x -> x ∉ all_SBU_atoms) ->
  forall (bs : list nat) (shell : nat -> Prop) st,
  Inv own shell st ->
  let st' := foldl (linker_bond_step molcif all_SBU_atoms del) st bs in
  Inv own (fun x => shell x \/ (x ∈ bs /\ x ∈ all_SBU_atoms)) st' /\
  extends st.1 st'.1.
Proof.
  intros Hown. induction bs as [|b bs IH]; intros shell st HI; simpl.
  - split; [|apply extends_refl].
    apply (linker_inv_iff molcif all_SBU_atoms own own shell); [done| |done].
    intros x. split; [by left | intros [Hx | [Hx _]]; [done | inversion Hx]].
  - destruct (linker_bond_step_spec own shell st b Hown HI) as [HI1 He1].
    destruct (IH _ _ HI1) as [HI2 He2]. split; [|by eapply extends_trans].
    eapply linker_inv_iff; [done | | exact HI2].
    intros x. simpl. rewrite elem_of_cons. split.
    + intros [[Hs | [-> Hb]] | [Hx Ha]]; [by left | right | right]; tauto.
    + intros [Hs | [[-> | Hx] Ha]]; [left; by left | left; right; done | right; done].
Qed.

(** Lines 312-335 for one atom of the linker. *)
Lemma linker_atom_step_spec (own shell : nat -> Prop) st val :
  (forall x, own x -> x ∉ all_SBU_atoms) ->
  (forall x, shell x -> x ∈ all_SBU_atoms) ->
  Inv own shell st ->
  let st' := linker_atom_step molcif all_SBU_atoms del st val in
  Inv (fun x => own x \/ (x = val /\ val ∉ all_SBU_atoms))
      (fun x => shell x \/
                (x ∈ all_SBU_atoms /\ (val ∉ all_SBU_atoms) /\
                 x ∈ getBondedAtoms molcif val)) st' /\
  (~ own val -> in_step st.1 -> in_step st'.1).
Proof.
  intros Hown Hshell HI. unfold linker_atom_step.
  destruct (inb val del) eqn:Hd; simpl.
  - apply inb_true, elem_of_del in Hd. split; [|done].
    eapply linker_inv_iff; [| | exact HI]; intros x; simpl; tauto.
  - apply inb_false in Hd. rewrite elem_of_del in Hd.
    destruct HI as (H1 & H2 & H3).
    set (own' := fun x => own x \/ (x = val /\ val ∉ all_SBU_atoms)).
    assert (Hown' : forall x, own' x -> x ∉ all_SBU_atoms).
    { intros x [Hx | [-> _]]; auto. }
    assert (HI0 : Inv own' shell (frag_add st.1 (getAtom molcif val) val, st.2)).
    { split; [|split]; simpl.
      - intros x. rewrite elem_of_app, list_elem_of_singleton, H1. unfold own'. tauto.
      - done.
      - intros b s Hb Hs Ha. destruct (H3 b s Hb Hs Ha) as [Hf | Hr]; [|by right].
        left. apply elem_of_app. by left. }
    destruct (linker_bond_fold_spec own' Hown' (getBondedAtoms molcif val) shell _ HI0)
      as [HI1 He]. simpl in He.
    split.
    + eapply linker_inv_iff; [done | | exact HI1].
      intros x. simpl. tauto.
    + intros Hnot Hstep. apply He. apply frag_add_in_step; [done|].
      intros Hin. apply H1 in Hin as [Hin | Hin]; [done|].
      by apply Hshell in Hin.
Qed.

(** The loop of lines 312-335 over a whole linker. *)
Lemma linker_fold_spec (linker : list nat) :
  let st := foldl (linker_atom_step molcif all_SBU_atoms del) (empty_fragment, []) linker in
  Inv (fun x => x ∈ linker /\ x ∉ all_SBU_atoms)
      (fun x => x ∈ all_SBU_atoms /\
                exists v, v ∈ linker /\ (v ∉ all_SBU_atoms) /\
                          x ∈ getBondedAtoms molcif v) st /\
  (NoDup linker -> in_step st.1).
Proof.
  assert (Hgen : forall todo seen st,
            Inv (fun x => x ∈ seen /\ x ∉ all_SBU_atoms)
                (fun x => x ∈ all_SBU_atoms /\
                          exists v, v ∈ seen /\ (v ∉ all_SBU_atoms) /\
                                    x ∈ getBondedAtoms molcif v) st ->
            (NoDup (seen ++ todo) -> in_step st.1) ->
            let st' := foldl (linker_atom_step molcif all_SBU_atoms del) st todo in
            Inv (fun x => x ∈ seen ++ todo /\ x ∉ all_SBU_atoms)
                (fun x => x ∈ all_SBU_atoms /\
                          exists v, v ∈ seen ++ todo /\ (v ∉ all_SBU_atoms) /\
                                    x ∈ getBondedAtoms molcif v) st' /\
            (NoDup (seen ++ todo) -> in_step st'.1)).
  { induction todo as [|val todo IH]; intros seen st HI Hstep; simpl.
    - rewrite app_nil_r in *. done.
    - replace (seen ++ val :: todo) with ((seen ++ [val]) ++ todo)
        by (by rewrite <- app_assoc).
      destruct (linker_atom_step_spec
                  (fun x => x ∈ seen /\ x ∉ all_SBU_atoms)
                  (fun x => x ∈ all_SBU_atoms /\
                            exists v, v ∈ seen /\ (v ∉ all_SBU_atoms) /\
                                      x ∈ getBondedAtoms molcif v) st val)
        as [HI1 Hs1].
      { by intros x [_ Hx]. }
      { by intros x [Hx _]. }
      { exact HI. }
      apply IH.
      + eapply linker_inv_iff; [| | exact HI1]; intros x; simpl.
        * rewrite elem_of_app, list_elem_of_singleton. split.
          -- intros [[Hx Ha] | [-> Ha]]; tauto.
          -- intros [[Hx | ->] Ha]; tauto.
        * split.
          -- intros [[Ha (v & Hv & Hn & Hb)] | (Ha & Hn & Hb)].
             ++ split; [done|]. exists v. rewrite elem_of_app. tauto.
             ++ split; [done|]. exists val.
                rewrite elem_of_app, list_elem_of_singleton. tauto.
          -- intros [Ha (v & Hv & Hn & Hb)].
             apply elem_of_app in Hv as [Hv | Hv].
             ++ left. split; [done|]. by exists v.
             ++ apply list_elem_of_singleton in Hv. subst v. right. done.
      + intros Hnd. rewrite <- app_assoc in Hnd. simpl in Hnd.
        apply Hs1; [|by apply Hstep].
        intros [Hin _]. apply NoDup_app in Hnd as (_ & Hnd & _).
        apply (Hnd val Hin). left. }
  apply (Hgen linker [] (empty_fragment, [])).
  - split; [|split]; simpl.
    + intros x. split; [intros Hx; inversion Hx|].
      intros [[Hx _] | [_ (v & Hv & _)]]; [inversion Hx | inversion Hv].
    + intros x Hx. inversion Hx.
    + intros b s [_ (v & Hv & _)]. inversion Hv.
  - intros _. apply in_step_empty.
Qed.

(** X6.  The atoms of a linker fragment, as [breakdown_MOF] assembles it
    from the atoms of all SBU fragments: the atoms of the linker that are
    in no SBU fragment, the SBU atoms bonded to one of these, and the SBU
    atoms bonded to one of those; it holds no other atom.  The atoms that
    are turned into placeholders are the atoms of the third kind that are
    not also of the second. *)
Theorem linker_fragment_atoms (linker : list nat) :
  let c := assemble_linker molcif all_SBU_atoms (elements (set_of all_SBU_atoms))
                           linker in
  let own v := v ∈ linker /\ v ∉ all_SBU_atoms in
  let shell b := b ∈ all_SBU_atoms /\ exists v, own v /\ b ∈ getBondedAtoms molcif v in
  let beyond s := s ∈ all_SBU_atoms /\ exists b, shell b /\ s ∈ getBondedAtoms molcif b in
  (forall x, x ∈ f_added (c_frag c) <-> own x \/ shell x \/ beyond x) /\
  (forall x, x ∈ c_atoms_that_are_X c <-> beyond x /\ ~ shell x).
Proof.
  intros c own shell beyond. subst c. unfold assemble_linker.
  destruct (linker_fold_spec linker) as [(H1 & H2 & H3) _].
  destruct (foldl _ _ linker) as [f Xl]. simpl in *.
  destruct (place_all_X_added f Xl) as [Hadd HX].
  assert (Hsh : forall x,
            (x ∈ all_SBU_atoms /\
             exists v, v ∈ linker /\ (v ∉ all_SBU_atoms) /\ x ∈ getBondedAtoms molcif v)
            <-> shell x).
  { intros x. unfold shell, own. split.
    - intros [Ha (v & Hv & Hn & Hb)]. split; [done|]. by exists v.
    - intros [Ha (v & [Hv Hn] & Hb)]. split; [done|]. by exists v. }
  assert (Hrec : forall x, (exists na a, (na, x, a) ∈ Xl) -> beyond x).
  { intros x (na & a & Hx). destruct (H2 _ Hx) as (_ & Hs & Ha & Hb). simpl in *.
    split; [done|]. exists a. split; [by apply Hsh | done]. }
  assert (Hbey : forall x, beyond x -> x ∈ f_added f \/ exists na a, (na, x, a) ∈ Xl).
  { intros x [Ha (b & Hb & Hx)]. apply (H3 b x); [by apply Hsh | done | done]. }
  assert (Hown_not : forall x, own x -> ~ beyond x).
  { intros x [_ Hn] [Ha _]. done. }
  split.
  - intros x. rewrite Hadd, H1, Hsh. split.
    + intros [[Hx | Hx] | Hx]; [by left | right; by left | right; right; auto].
    + intros [Hx | [Hx | Hx]]; [left; by left | left; by right |].
      apply Hbey in Hx as [Hx | Hx]; [left; by apply H1 in Hx; rewrite Hsh in Hx | by right].
  - intros x. rewrite HX, H1, Hsh. split.
    + intros [Hn Hr]. split; [by apply Hrec | tauto].
    + intros [Hb Hn]. split.
      * intros [Hx | Hx]; [by apply Hown_not in Hx | done].
      * destruct (Hbey x Hb) as [Hx | Hx]; [|done].
        exfalso. apply H1 in Hx as [Hx | Hx]; [by apply (Hown_not x Hx)|].
        apply Hn. by apply Hsh.
Qed.

(** X7.  The bookkeeping of a linker fragment, for a linker that names no
    atom twice.  The atoms of the fragment, its dictionary and
    [linker_added] are in step and no atom of molcif is in it twice; every
    atom of the linker outside the SBU fragments is in it as an atom that
    is no placeholder; and every capping bond (k, anchor) of
    [tuple_list_linker] joins a placeholder k, standing for an SBU atom
    bonded in molcif to the anchor, to an SBU atom that the inverted
    dictionary sends to its local index j, an atom that is no placeholder:
    the lookup of line 367 finds its key. *)
Theorem linker_fragment_in_step (linker : list nat) :
  NoDup linker ->
  let c := assemble_linker molcif all_SBU_atoms (elements (set_of all_SBU_atoms))
                           linker in
  let f := c_frag c in
  let inv_linker_dict := inv_dict (f_dict f) (natoms (f_mol f)) in
  in_step f /\
  c_final_X_indices c = (c_tuple_list c).*1 /\
  (forall val, val ∈ linker -> val ∉ all_SBU_atoms ->
     exists j, f_dict f !! j = Some val /\ j ∉ c_final_X_indices c) /\
  (forall k anchor, (k, anchor) ∈ c_tuple_list c ->
     exists replaced j,
       f_dict f !! k = Some replaced /\
       replaced ∈ all_SBU_atoms /\
       replaced ∈ getBondedAtoms molcif anchor /\
       anchor ∈ all_SBU_atoms /\
       inv_linker_dict !! anchor = Some j /\
       f_dict f !! j = Some anchor /\
       j ∉ c_final_X_indices c).
Proof.
  intros Hnd c f inv_linker_dict. subst inv_linker_dict f c. unfold assemble_linker.
  destruct (linker_fold_spec linker) as [(H1 & H2 & H3) Hstep].
  specialize (Hstep Hnd).
  destruct (foldl _ _ linker) as [f0 Xl]. simpl in H1, H2, H3, Hstep.
  destruct (place_all_X_spec f0 Xl Hstep) as (Hext & Hin & Hidx & Htup & _).
  assert (Hgood : Forall (good_record molcif) Xl).
  { apply Forall_forall. intros x Hx. by destruct (H2 x Hx). }
  destruct (place_all_X_placed molcif f0 Xl Hgood) as (Hn0 & Hseq & _).
  set (c := place_all_X f0 Xl) in *.
  assert (Hn : natoms (f_mol f0) = length (f_added f0)) by (by destruct Hstep).
  assert (Hreal : forall x, x ∈ f_added f0 ->
            exists j, f_added (c_frag c) !! j = Some x /\ j ∉ c_final_X_indices c).
  { intros x Hx. apply list_elem_of_lookup in Hx as [j Hj]. exists j. split.
    - by eapply extends_lookup.
    - rewrite Hseq, elem_of_seq. apply lookup_lt_Some in Hj. lia. }
  pose proof Hin as (Hlen & Hd & Hnd').
  split; [done|]. split; [done|]. split.
  - intros val Hv Hn'. destruct (Hreal val) as (j & Hj & Hnot).
    + apply H1. by left.
    + exists j. by rewrite Hd.
  - intros k anchor Hk.
    destruct (Htup k anchor Hk) as (Hle & new_atom & replaced & Hrec & Hl).
    destruct (H2 _ Hrec) as (_ & [Hanchor Hsh] & Hrep & Hbond). simpl in *.
    destruct (Hreal anchor) as (j & Hj & Hnot).
    + apply H1. right. by split.
    + exists replaced, j. rewrite !Hd. repeat split; try done.
      by apply in_step_inv_dict.
Qed.

End LinkerFragments.

(** ** Anchors *)

Lemma elem_of_enumerate {A} (l : list A) (i : nat) (x : A) :
  (i, x) ∈ enumerate l <-> l !! i = Some x.
Proof.
  unfold enumerate. rewrite elem_of_lookup_imap. split.
  - intros (j & y & Heq & Hl). by inversion Heq; subst.
  - intros Hl. by exists i, x.
Qed.

Lemma records_iff (acc : anchors) (W W' : nat -> nat -> nat -> nat -> Prop) :
  (forall i a kk s, W i a kk s <-> W' i a kk s) -> records acc W -> records acc W'.
Proof.
  intros HW (H1 & H2 & H3 & H4). split; [|split; [|split]].
  - intros i. rewrite H1. by setoid_rewrite HW.
  - intros a. rewrite H2. by setoid_rewrite HW.
  - intros s. rewrite H3. by setoid_rewrite HW.
  - intros kk. rewrite H4. by setoid_rewrite HW.
Qed.

(** Lines 446-450 for one atom of an SBU. *)
Lemma anchor_step_records (connected_atoms : list nat) (iii atoms kk sbu_atoms : nat)
    (acc : anchors) (W : nat -> nat -> nat -> nat -> Prop) :
  records acc W ->
  records (if inb sbu_atoms connected_atoms then
             mk_anchors (linkeranchors_list acc ∪ {[iii]})
                        (linkeranchors_atoms acc ∪ {[atoms]})
                        (sbuanchors_list acc ∪ {[sbu_atoms]})
                        (sbu_connect_list acc ∪ {[kk]})
           else acc)
          (fun i a k s => W i a k s \/
             (i = iii /\ a = atoms /\ k = kk /\ s = sbu_atoms /\
              sbu_atoms ∈ connected_atoms)).
Proof.
  intros HW0. pose proof HW0 as (H1 & H2 & H3 & H4).
  destruct (inb sbu_atoms connected_atoms) eqn:Hin.
  - apply inb_true in Hin. split; [|split; [|split]]; simpl.
    + intros i. rewrite elem_of_union, elem_of_singleton, H1. split.
      * intros [(a & k & s & HW) | ->]; [exists a, k, s; by left|].
        exists atoms, kk, sbu_atoms. by right.
      * intros (a & k & s & [HW | (-> & _)]); [left; eauto | by right].
    + intros a. rewrite elem_of_union, elem_of_singleton, H2. split.
      * intros [(i & k & s & HW) | ->]; [exists i, k, s; by left|].
        exists iii, kk, sbu_atoms. by right.
      * intros (i & k & s & [HW | (_ & -> & _)]); [left; eauto | by right].
    + intros s. rewrite elem_of_union, elem_of_singleton, H3. split.
      * intros [(i & a & k & HW) | ->]; [exists i, a, k; by left|].
        exists iii, atoms, kk. by right.
      * intros (i & a & k & [HW | (_ & _ & _ & -> & _)]); [left; eauto | by right].
    + intros k. rewrite elem_of_union, elem_of_singleton, H4. split.
      * intros [(i & a & s & HW) | ->]; [exists i, a, s; by left|].
        exists iii, atoms, sbu_atoms. by right.
      * intros (i & a & s & [HW | (_ & _ & -> & _)]); [left; eauto | by right].
  - apply inb_false in Hin.
    apply (records_iff acc W); [|exact HW0].
    intros i a k s. split; [by left|]. intros [HW | (_ & _ & _ & _ & Hc)]; done.
Qed.

(** The loop of lines 445-450 over one SBU. *)
Lemma anchor_sbu_fold (connected_atoms : list nat) (iii atoms kk : nat) :
  forall (sbu_atoms_list : list nat) (acc : anchors)
         (W : nat -> nat -> nat -> nat -> Prop),
  records acc W ->
  records
    (foldl (fun acc sbu_atoms =>
              if inb sbu_atoms connected_atoms then
                mk_anchors (linkeranchors_list acc ∪ {[iii]})
                           (linkeranchors_atoms acc ∪ {[atoms]})
                           (sbuanchors_list acc ∪ {[sbu_atoms]})
                           (sbu_connect_list acc ∪ {[kk]})
              else acc) acc sbu_atoms_list)
    (fun i a k s => W i a k s \/
       (i = iii /\ a = atoms /\ k = kk /\ s ∈ sbu_atoms_list /\ s ∈ connected_atoms)).
Proof.
  induction sbu_atoms_list as [|x l IH]; intros acc W HW; simpl.
  - apply (records_iff acc W); [|done].
    intros i a k s. split; [by left|].
    intros [H | (_ & _ & _ & H & _)]; [done | inversion H].
  - eapply records_iff; [|apply IH, anchor_step_records, HW].
    intros i a k s. simpl. rewrite elem_of_cons. split.
    + intros [[H | (-> & -> & -> & -> & Hc)] | (-> & -> & -> & Hs & Hc)];
        [by left | right | right]; tauto.
    + intros [H | (-> & -> & -> & [-> | Hs] & Hc)];
        [left; by left | left; right; tauto | right; tauto].
Qed.

(** The loop of lines 444-450 over the SBUs not yet visited: [done] SBUs
    come before them. *)
Lemma anchor_sbus_fold (connected_atoms : list nat) (iii atoms : nat) :
  forall (rest : list (nat * list nat)) (acc : anchors)
         (W : nat -> nat -> nat -> nat -> Prop),
  records acc W ->
  records
    (foldl (fun acc '(kk, sbu_atoms_list) =>
              foldl (fun acc sbu_atoms =>
                       if inb sbu_atoms connected_atoms then
                         mk_anchors (linkeranchors_list acc ∪ {[iii]})
                                    (linkeranchors_atoms acc ∪ {[atoms]})
                                    (sbuanchors_list acc ∪ {[sbu_atoms]})
                                    (sbu_connect_list acc ∪ {[kk]})
                       else acc) acc sbu_atoms_list) acc rest)
    (fun i a k s => W i a k s \/
       (i = iii /\ a = atoms /\
        exists S, (k, S) ∈ rest /\ s ∈ S /\ s ∈ connected_atoms)).
Proof.
  induction rest as [|[kk S] rest IH]; intros acc W HW; simpl.
  - apply (records_iff acc W); [|done].
    intros i a k s. split; [by left|].
    intros [H | (_ & _ & S & H & _)]; [done | inversion H].
  - eapply records_iff; [|apply IH, (anchor_sbu_fold connected_atoms iii atoms kk S), HW].
    intros i a k s. simpl. split.
    + intros [[H | (-> & -> & -> & Hs & Hc)] | (-> & -> & S' & HS' & Hs & Hc)].
      * by left.
      * right. split; [done|]. split; [done|]. exists S. split; [left | done].
      * right. split; [done|]. split; [done|]. exists S'. split; [by right | done].
    + intros [H | (-> & -> & S' & HS' & Hs & Hc)]; [left; by left|].
      apply elem_of_cons in HS' as [Heq | HS'].
      * inversion Heq; subst. left. right. tauto.
      * right. split; [done|]. split; [done|]. by exists S'.
Qed.

Section Anchors.
Context {ML : Mol3DLib} {PL : PBCLib} {GL : GraphLib} {RT : Runtime}.

Lemma find_anchors_records adj_matrix initial_SBU_list atoms_list :
  records (find_anchors adj_matrix initial_SBU_list atoms_list)
          (touches adj_matrix initial_SBU_list atoms_list).
Proof.
  unfold find_anchors.
  assert (Hgen : forall (rest : list (nat * nat)) (acc : anchors)
                        (W : nat -> nat -> nat -> nat -> Prop),
            records acc W ->
            records
              (foldl (fun acc '(iii, atoms) =>
                 let connected_atoms := bonded adj_matrix atoms in
                 foldl (fun acc '(kk, sbu_atoms_list) =>
                   foldl (fun acc sbu_atoms =>
                            if inb sbu_atoms connected_atoms then
                              mk_anchors (linkeranchors_list acc ∪ {[iii]})
                                         (linkeranchors_atoms acc ∪ {[atoms]})
                                         (sbuanchors_list acc ∪ {[sbu_atoms]})
                                         (sbu_connect_list acc ∪ {[kk]})
                            else acc)
                         acc sbu_atoms_list)
                   acc (enumerate initial_SBU_list)) acc rest)
              (fun i a k s => W i a k s \/
                 ((i, a) ∈ rest /\
                  exists S, initial_SBU_list !! k = Some S /\ s ∈ S /\
                            s ∈ bonded adj_matrix a))).
  { induction rest as [|[iii atoms] rest IH]; intros acc W HW; simpl.
    - apply (records_iff acc W); [|done].
      intros i a k s. split; [by left|]. intros [H | [H _]]; [done | inversion H].
    - eapply records_iff;
        [|apply IH, (anchor_sbus_fold (bonded adj_matrix atoms) iii atoms
                       (enumerate initial_SBU_list)), HW].
      intros i a k s. simpl. split.
      + intros [[H | (-> & -> & S & HS & Hs & Hc)] | (Hia & S & HS & Hs & Hc)].
        * by left.
        * right. split; [left|]. exists S. by rewrite <- elem_of_enumerate.
        * right. split; [by right|]. by exists S.
      + intros [H | (Hia & S & HS & Hs & Hc)]; [left; by left|].
        apply elem_of_cons in Hia as [Heq | Hia].
        * inversion Heq; subst. left. right. split; [done|]. split; [done|].
          exists S. by rewrite elem_of_enumerate.
        * right. split; [done|]. by exists S. }
  eapply records_iff; [|apply (Hgen (enumerate atoms_list) (mk_anchors ∅ ∅ ∅ ∅)
                                   (fun _ _ _ _ => False))].
  - intros i a k s. unfold touches. rewrite elem_of_enumerate. tauto.
  - split; [|split; [|split]]; intros x; simpl;
      (split; [intros H; by apply not_elem_of_empty in H | intros (? & ? & ? & [])]).
Qed.

(** X8.  The four sets [identify_short_linkers] fills for a candidate
    fragment (lines 433-450) are the four projections of one relation: atom
    [a] at position [i] of the fragment is bonded to atom [s] of the SBU
    component number [kk].  So a fragment with an anchor position has an
    SBU in [sbu_connect_list], and the first element of that set is the
    index of an SBU: the lookup of line 466 is in range. *)
Theorem anchors_recorded adj_matrix initial_SBU_list atoms_list :
  let a := find_anchors adj_matrix initial_SBU_list atoms_list in
  let bond i at_ kk s := touches adj_matrix initial_SBU_list atoms_list i at_ kk s in
  (forall i, i ∈ linkeranchors_list a <-> exists at_ kk s, bond i at_ kk s) /\
  (forall at_, at_ ∈ linkeranchors_atoms a <-> exists i kk s, bond i at_ kk s) /\
  (forall s, s ∈ sbuanchors_list a <-> exists i at_ kk, bond i at_ kk s) /\
  (forall kk, kk ∈ sbu_connect_list a <-> exists i at_ s, bond i at_ kk s) /\
  (0 < size (linkeranchors_list a) ->
     exists kk S, head (elements (sbu_connect_list a)) = Some kk /\
                  initial_SBU_list !! kk = Some S) /\
  size (linkeranchors_list a) <= length atoms_list.
Proof.
  intros a bond.
  destruct (find_anchors_records adj_matrix initial_SBU_list atoms_list)
    as (H1 & H2 & H3 & H4). fold a in H1, H2, H3, H4.
  split; [exact H1|]. split; [exact H2|]. split; [exact H3|]. split; [exact H4|].
  split.
  - intros Hsize.
    destruct (set_choose_L (linkeranchors_list a)) as [i Hi].
    { intros He. rewrite He, size_empty in Hsize. lia. }
    apply H1 in Hi as (at_ & kk & s & Hb).
    assert (Hkk : kk ∈ sbu_connect_list a) by (apply H4; eauto).
    destruct (elements (sbu_connect_list a)) as [|k0 r] eqn:He.
    { apply elem_of_elements in Hkk. rewrite He in Hkk. inversion Hkk. }
    assert (Hk0 : k0 ∈ sbu_connect_list a).
    { apply elem_of_elements. rewrite He. left. }
    apply H4 in Hk0 as (i' & a' & s' & (_ & S & HS & _)).
    exists k0, S. done.
  - assert (Hsub : linkeranchors_list a ⊆ set_of (seq 0 (length atoms_list))).
    { intros i Hi. apply H1 in Hi as (at_ & kk & s & (Hl & _)).
      apply elem_of_set_of, elem_of_seq. apply lookup_lt_Some in Hl. lia. }
    apply subseteq_size in Hsub. unfold set_of in Hsub.
    rewrite size_list_to_set in Hsub by apply NoDup_seq.
    by rewrite length_seq in Hsub.
Qed.

Lemma elem_of_foldl_nested_lists (P : nat -> bool) (l : list (list nat))
    (S : gset nat) x :
  x ∈ foldl (fun acc linker =>
               foldl (fun acc v => if P v then acc ∪ {[v]} else acc) acc linker) S l <->
  x ∈ S \/ exists linker, linker ∈ l /\ x ∈ linker /\ P x = true.
Proof.
  revert S. induction l as [|a l IH]; intros S; simpl.
  - split; [auto | intros [Hx | (a & Ha & _)]; [done | inversion Ha]].
  - rewrite IH, elem_of_foldl_add_if. split.
    + intros [[Hx | [Hx HP]] | (b & Hb & Hx)]; [auto | right; exists a | ].
      * split; [left | done].
      * right. exists b. split; [by right | done].
    + intros [Hx | (b & Hb & Hx & HP)]; [auto|].
      apply elem_of_cons in Hb as [-> | Hb]; [auto | right; eauto].
Qed.

(** X9.  The anchoring atoms [identify_lc_atoms] returns are the atoms of
    the candidate fragments that are bonded to an atom of [metal_list]; the
    fragments are the closed subgraphs of what the removelist leaves of the
    structure, and the connections handed on are copies of them. *)
Theorem lc_anchors molcif removelist metal_list :
  let lc := identify_lc_atoms molcif removelist metal_list in
  (forall x, x ∈ anc_atoms lc <->
     (exists linker, linker ∈ linker_list lc /\ x ∈ linker) /\
     (exists m, m ∈ metal_list /\ m ∈ bonded (graph molcif) x)) /\
  linkers lc = allatoms lc ∖ removelist /\
  (forall x, x ∈ allatoms lc <-> x < length (graph molcif)) /\
  (linker_list lc, linker_subgraphlist lc) =
    get_closed_subgraph (linkers lc) removelist (graph molcif) /\
  connections_list lc = linker_list lc /\
  connections_subgraphlist lc = linker_subgraphlist lc.
Proof.
  intros lc. subst lc. unfold identify_lc_atoms.
  destruct (get_closed_subgraph _ removelist (graph molcif)) as [ll lg] eqn:Hcs.
  simpl. split; [|split; [done|split; [|done]]].
  - intros x.
    rewrite (elem_of_foldl_nested_lists
               (fun atom_linker =>
                  bool_decide (set_of (bonded (graph molcif) atom_linker) ∩ metal_list ≠ ∅))).
    split.
    + intros [Hx | (linker & Hl & Hx & HP)]; [by apply not_elem_of_empty in Hx|].
      split; [by exists linker|].
      apply bool_decide_eq_true in HP. apply set_choose_L in HP as [m Hm].
      apply elem_of_intersection in Hm as [Hb Hm]. exists m.
      split; [done | by apply elem_of_set_of].
    + intros [(linker & Hl & Hx) (m & Hm & Hb)]. right. exists linker.
      split; [done|]. split; [done|]. apply bool_decide_eq_true.
      intros He. apply (not_elem_of_empty (C := gset nat) m). rewrite <- He.
      apply elem_of_intersection. split; [by apply elem_of_set_of | done].
  - intros x. rewrite elem_of_set_of, elem_of_seq. lia.
Qed.

End Anchors.

(** ** Return codes *)

Section Flow.
Context {ML : Mol3DLib} {PL : PBCLib} {GL : GraphLib} {RT : Runtime}.

(** The scan of the linkers (lines 130-158) goes through when every linker
    is scanned without an exception, and its [current_longest] is the
    greatest [longest] met. *)
Lemma scan_linkers_le molcif anchoring_atoms (subs : list matrix) (n : nat) :
  forall conns main_paths current_longest,
  (exists mp cl, scan_linkers molcif anchoring_atoms conns subs main_paths
                              current_longest = Ok (mp, cl) /\ cl <= n) <->
  current_longest <= n /\
  Forall (fun '(j, linker) =>
            exists main longest,
              scan_linker molcif anchoring_atoms (nth j subs []) linker =
                Ok (main, longest) /\ longest <= n) conns.
Proof.
  induction conns as [|[j linker] conns IH]; intros mp cl; simpl.
  - split.
    + intros (mp' & cl' & Heq & Hle). inversion Heq; subst. split; [done | constructor].
    + intros [Hle _]. by exists mp, cl.
  - destruct (scan_linker molcif anchoring_atoms (nth j subs []) linker)
      as [[main longest]|e] eqn:Hs; simpl.
    + rewrite IH. split.
      * intros [Hle HF]. destruct (Nat.ltb_spec cl longest).
        -- split; [lia|]. constructor; [|done]. by exists main, longest.
        -- split; [done|]. constructor; [|done]. exists main, longest. split; [done | lia].
      * intros [Hle HF]. apply Forall_cons in HF as [(m & l & Heq & Hl) HF'].
        rewrite Hs in Heq. inversion Heq; subst. split; [|done].
        destruct (Nat.ltb_spec cl l); done.
    + split.
      * intros (mp' & cl' & Heq & _). discriminate.
      * intros [_ HF]. apply Forall_cons in HF as [(m & l & Heq & _) _].
        rewrite Hs in Heq. discriminate.
Qed.

Lemma scan_linkers_raise molcif anchoring_atoms (subs : list matrix) e :
  forall pre j linker post main_paths current_longest,
  Forall (fun '(j, linker) =>
            exists r, scan_linker molcif anchoring_atoms (nth j subs []) linker = Ok r)
         pre ->
  scan_linker molcif anchoring_atoms (nth j subs []) linker = Raise e ->
  scan_linkers molcif anchoring_atoms (pre ++ (j, linker) :: post) subs main_paths
               current_longest = Raise e.
Proof.
  induction pre as [|[j0 l0] pre IH]; intros j linker post mp cl Hpre Hraise; simpl.
  - by rewrite Hraise.
  - apply Forall_cons in Hpre as [[[m l] Hok] Hpre']. rewrite Hok. simpl.
    by apply IH.
Qed.

(** A linker without an anchoring atom: [link_list] is empty, there is no
    pair of anchors, and the minimum of line 74 is taken of nothing. *)
Lemma scan_linker_no_anchor molcif (anchoring_atoms : gset nat) subgraph linker :
  (forall v, v ∈ linker -> v ∉ anchoring_atoms) ->
  scan_linker molcif anchoring_atoms subgraph linker = Raise ValueError.
Proof.
  intros Hno. unfold scan_linker.
  assert (Hnil : filter (fun '(jj, val2) => val2 ∈ anchoring_atoms) (enumerate linker)
                 = []).
  { destruct (filter _ (enumerate linker)) as [|[jj v] r] eqn:Hf; [done|].
    assert (Hin : (jj, v) ∈ filter (fun '(jj, val2) => val2 ∈ anchoring_atoms)
                                   (enumerate linker)) by (rewrite Hf; left).
    apply list_elem_of_filter in Hin as [Hv Hin].
    apply elem_of_enumerate in Hin. exfalso. apply (Hno v); [|done].
    by eapply list_elem_of_lookup_2. }
  rewrite Hnil. reflexivity.
Qed.

(** What one round of the loop over the SBUs can end in. *)
Lemma SBU_body_cases molcif name cell_v anchoring_atoms sbupath connections_list
    connections_subgraphlist subcycle_list flat_subcycle_list st iSBU :
  let body := SBU_body molcif name cell_v anchoring_atoms sbupath connections_list
                       connections_subgraphlist subcycle_list flat_subcycle_list in
  match scan_linkers molcif anchoring_atoms (enumerate connections_list)
                     connections_subgraphlist [] 0 with
  | Raise e => body st iSBU = Throw e (st_fs st)
  | Ok (main_paths, current_longest) =>
      if current_longest <=? 2 then body st iSBU = Return (PyInt 2) (st_fs st)
      else (exists e, body st iSBU = Throw e (st_fs st)) \/
           (exists fs', body st iSBU = Return (PyInt 4) fs') \/
           (exists st', body st iSBU = Continue st')
  end.
Proof.
  intros body. subst body. destruct iSBU as [i SBU]. unfold SBU_body.
  destruct (scan_linkers _ _ _ _ _ _) as [[mp cl]|e]; [|done].
  destruct (cl <=? 2); [done|].
  destruct (assemble_SBU _ _ _ _ _) as [c|e]; [|left; by eexists].
  unfold write_SBU.
  destruct (if sbu_guard _ _ _ _ then _ else _) as [xyzname|]; [|left; by eexists].
  destruct (contains "1Drod" xyzname); right; [left | right]; by eexists.
Qed.

(** The loop over the SBUs, by what the scan of the linkers gives. *)
Lemma SBU_loop_cases molcif name cell_v anchoring_atoms sbupath connections_list
    connections_subgraphlist subcycle_list flat_subcycle_list :
  let body := SBU_body molcif name cell_v anchoring_atoms sbupath connections_list
                       connections_subgraphlist subcycle_list flat_subcycle_list in
  forall (todo : list (nat * list nat)) st,
  match scan_linkers molcif anchoring_atoms (enumerate connections_list)
                     connections_subgraphlist [] 0 with
  | Raise e => todo = [] \/ for_each body st todo = Throw e (st_fs st)
  | Ok (main_paths, current_longest) =>
      if current_longest <=? 2
      then todo = [] \/ for_each body st todo = Return (PyInt 2) (st_fs st)
      else (exists e fs', for_each body st todo = Throw e fs') \/
           (exists fs', for_each body st todo = Return (PyInt 4) fs') \/
           (exists st', for_each body st todo = Continue st')
  end.
Proof.
  intros body todo.
  pose proof (SBU_body_cases molcif name cell_v anchoring_atoms sbupath
                connections_list connections_subgraphlist subcycle_list
                flat_subcycle_list) as Hbody.
  fold body in Hbody. simpl in Hbody.
  destruct (scan_linkers _ _ _ _ _ _) as [[mp cl]|e].
  - destruct (cl <=? 2).
    + intros st. destruct todo as [|x todo]; [by left|]. right. simpl.
      by rewrite (Hbody st x).
    + induction todo as [|x todo IH]; intros st; simpl.
      * right. right. by eexists.
      * destruct (Hbody st x) as [[e He] | [[fs' He] | [st' He]]]; rewrite He.
        -- left. by eexists _, _.
        -- right. left. by eexists.
        -- apply IH.
  - intros st. destruct todo as [|x todo]; [by left|]. right. simpl.
    by rewrite (Hbody st x).
Qed.

(** X10.  [breakdown_MOF] returns 2 exactly when there is an SBU and the
    scan of every linker goes through with a longest anchor-to-anchor path
    of at most 2 atoms; and it has then written nothing. *)
Theorem return_2_iff SBUlist SBU_subgraph molcif depth name cell_v anchoring_atoms
    sbupath connections_list connections_subgraphlist linkerpath fs :
  let result := breakdown_MOF SBUlist SBU_subgraph molcif depth name cell_v
                  anchoring_atoms sbupath connections_list connections_subgraphlist
                  linkerpath fs in
  (result.1 = Returned (PyInt 2) <->
     SBUlist <> [] /\
     Forall (fun '(j, linker) =>
               exists main longest,
                 scan_linker molcif anchoring_atoms
                             (nth j connections_subgraphlist []) linker =
                   Ok (main, longest) /\ longest <= 2)
            (enumerate connections_list)) /\
  (result.1 = Returned (PyInt 2) -> result.2 = fs).
Proof.
  intros result. subst result. unfold breakdown_MOF.
  destruct (get_molcif_cycles_no_metal molcif) as [subcycle_list flat].
  pose proof (SBU_loop_cases molcif name cell_v anchoring_atoms sbupath
                connections_list connections_subgraphlist subcycle_list flat
                (enumerate SBUlist) (mk_frame fs None [])) as Hloop.
  simpl in Hloop.
  pose proof (scan_linkers_le molcif anchoring_atoms connections_subgraphlist 2
                (enumerate connections_list) [] 0) as Hle.
  assert (Hnil : enumerate SBUlist = [] <-> SBUlist = []).
  { destruct SBUlist; simpl; split; intros H; done. }
  destruct (scan_linkers _ _ _ _ _ _) as [[mp cl]|e].
  - destruct (Nat.leb_spec cl 2) as [Hcl | Hcl].
    + assert (HF : Forall (fun '(j, linker) =>
                exists main longest,
                  scan_linker molcif anchoring_atoms
                              (nth j connections_subgraphlist []) linker =
                    Ok (main, longest) /\ longest <= 2)
                (enumerate connections_list)).
      { apply Hle. by exists mp, cl. }
      destruct Hloop as [He | Hr].
      * rewrite He. simpl. split; [|done]. split; [done|].
        intros [Hne _]. by apply Hnil in He.
      * rewrite Hr. simpl. split; [|done]. split; [|done].
        intros _. split; [|done]. intros ->. simpl in Hr. discriminate.
    + assert (HnF : ~ Forall (fun '(j, linker) =>
                exists main longest,
                  scan_linker molcif anchoring_atoms
                              (nth j connections_subgraphlist []) linker =
                    Ok (main, longest) /\ longest <= 2)
                (enumerate connections_list)).
      { intros HF. destruct Hle as [_ Hle].
        destruct Hle as (mp' & cl' & Heq & Hle'); [split; [lia | done]|].
        inversion Heq; subst. lia. }
      destruct Hloop as [(e & fs' & Hr) | [(fs' & Hr) | (st' & Hr)]]; rewrite Hr; simpl;
        (split; [split; [discriminate | intros [_ HF]; by apply HnF in HF]
                | discriminate]).
  - assert (HnF : ~ Forall (fun '(j, linker) =>
                exists main longest,
                  scan_linker molcif anchoring_atoms
                              (nth j connections_subgraphlist []) linker =
                    Ok (main, longest) /\ longest <= 2)
                (enumerate connections_list)).
    { intros HF. destruct Hle as [_ Hle].
      destruct Hle as (mp' & cl' & Heq & Hle'); [split; [lia | done]|]. discriminate. }
    destruct Hloop as [He | Hr].
    + rewrite He. simpl.
      split; [split; [discriminate | intros [_ HF]; by apply HnF in HF] | discriminate].
    + rewrite Hr. simpl.
      split; [split; [discriminate | intros [_ HF]; by apply HnF in HF] | discriminate].
Qed.

(** X11.  A linker none of whose atoms is an anchoring atom (bonded to a
    metal) stops [breakdown_MOF] at the first SBU: when the linkers before
    it are scanned without an exception, the call raises ValueError (the
    minimum of an empty list, line 74) and has written nothing. *)
Theorem anchorless_linker_raises SBU rest SBU_subgraph molcif depth name cell_v
    (anchoring_atoms : gset nat) sbupath pre linker post connections_subgraphlist
    linkerpath fs :
  Forall (fun '(j, linker) =>
            exists r, scan_linker molcif anchoring_atoms
                                  (nth j connections_subgraphlist []) linker = Ok r)
         (enumerate pre) ->
  (forall v, v ∈ linker -> v ∉ anchoring_atoms) ->
  breakdown_MOF (SBU :: rest) SBU_subgraph molcif depth name cell_v anchoring_atoms
                sbupath (pre ++ linker :: post) connections_subgraphlist linkerpath fs
  = (Raised ValueError, fs).
Proof.
  intros Hpre Hno. unfold breakdown_MOF.
  destruct (get_molcif_cycles_no_metal molcif) as [subcycle_list flat].
  unfold enumerate at 1. simpl. unfold SBU_body at 1.
  assert (Hscan : scan_linkers molcif anchoring_atoms (enumerate (pre ++ linker :: post))
                    connections_subgraphlist [] 0 = Raise ValueError).
  { unfold enumerate. rewrite imap_app. simpl.
    apply scan_linkers_raise; [exact Hpre|].
    by apply scan_linker_no_anchor. }
  by rewrite Hscan.
Qed.

(** What [breakdown_MOF] returns when it returns. *)
Lemma breakdown_MOF_values SBUlist SBU_subgraph molcif depth name cell_v anchoring_atoms
    sbupath connections_list connections_subgraphlist linkerpath fs v fs' :
  breakdown_MOF SBUlist SBU_subgraph molcif depth name cell_v anchoring_atoms sbupath
                connections_list connections_subgraphlist linkerpath fs
  = (Returned v, fs') ->
  v = PyNone \/ (v = PyInt 2 /\ fs' = fs) \/ v = PyInt 4.
Proof.
  unfold breakdown_MOF.
  destruct (get_molcif_cycles_no_metal molcif) as [subcycle_list flat].
  pose proof (SBU_loop_cases molcif name cell_v anchoring_atoms sbupath
                connections_list connections_subgraphlist subcycle_list flat
                (enumerate SBUlist) (mk_frame fs None [])) as Hloop.
  simpl in Hloop.
  destruct (scan_linkers _ _ _ _ _ _) as [[mp cl]|e].
  - destruct (cl <=? 2).
    + destruct Hloop as [He | Hr].
      * rewrite He. simpl. intros H. inversion H. by left.
      * rewrite Hr. intros H. inversion H. right. left. done.
    + destruct Hloop as [(e & fs1 & Hr) | [(fs1 & Hr) | (st' & Hr)]]; rewrite Hr;
        intros H; inversion H; auto.
  - destruct Hloop as [He | Hr].
    + rewrite He. simpl. intros H. inversion H. by left.
    + rewrite Hr. intros H. inversion H.
Qed.

(** The last stage, by what it returns. *)
Lemma MOF_regime_values p depth k v fs' :
  MOF_regime p depth k = (Returned v, fs') ->
  (v = PyNone \/ v = PyInt 2 \/ v = PyInt 3 \/ v = PyInt 4) /\
  (v = PyInt 2 \/ v = PyInt 3 -> quiet (sl_fs (k_sl k)) fs').
Proof.
  unfold MOF_regime.
  set (fs1 := if negb _ then write2file _ _ _ _ else _).
  assert (H1 : quiet (sl_fs (k_sl k)) fs1).
  { unfold fs1. destruct (negb _); [apply quiet_write2file | apply quiet_refl]. }
  destruct (2 <? sl_min_max_linker_length (k_sl k))%Z.
  - set (fs2 := if sl_long_ligands (k_sl k) then write2file _ _ _ fs1 else fs1).
    assert (H2 : quiet (sl_fs (k_sl k)) fs2).
    { unfold fs2. destruct (sl_long_ligands _); [|done].
      eapply quiet_trans; [exact H1 | apply quiet_write2file]. }
    destruct (get_closed_subgraph _ _ _) as [SBU_list SBU_subgraphlist].
    destruct (sl_long_ligands (k_sl k)); simpl.
    + intros Hb. apply breakdown_MOF_values in Hb as [-> | [[-> ->] | ->]].
      * split; [by left|]. intros [H | H]; discriminate.
      * split; [right; by left|]. intros _. exact H2.
      * split; [right; right; by right|]. intros [H | H]; discriminate.
    + destruct (include_extra_shells _ _ _ _) as [l g].
      intros H. inversion H; subst. split; [right; by left|]. intros _.
      eapply quiet_trans; [exact H2 | apply quiet_write2file].
  - destruct (get_closed_subgraph _ _ _) as [l0 g0].
    destruct (include_extra_shells l0 g0 _ _) as [l1 g1].
    destruct (include_extra_shells l1 g1 _ _) as [l2 g2].
    intros H. inversion H; subst. split; [right; right; by left|]. intros _.
    eapply quiet_trans; [exact H1|].
    eapply quiet_trans; apply quiet_write2file.
Qed.

(** X12.  What [make_MOF_fragments] returns when it returns: the pair
    (None, None), or None, 2, 3 or 4 (an int is never paired and the pair
    never holds anything but None); and with (None, None), 2 or 3 no
    fragment file has been written: whatever the run wrote went to the log
    and audit files and to the structure's own xyz file. *)
Theorem return_codes data depth path xyzpath fs v fs' :
  make_MOF_fragments data depth path xyzpath fs = (Returned v, fs') ->
  (v = none_pair \/ v = PyNone \/ v = PyInt 2 \/ v = PyInt 3 \/ v = PyInt 4) /\
  (v = none_pair \/ v = PyInt 2 \/ v = PyInt 3 -> quiet fs fs').
Proof.
  unfold make_MOF_fragments.
  pose proof (quiet_precheck data path xyzpath fs) as Hq.
  destruct (MOF_precheck data path xyzpath fs) as [[out | p] fs1] eqn:Hpre; simpl in Hq.
  - intros H. inversion H; subst out fs1. clear H.
    assert (Hv : v = none_pair).
    { unfold MOF_precheck, failed in Hpre.
      destruct (negb (truthy path)); [inversion Hpre|].
      destruct (readcif data) as [[cpar allatomtypes] fcoords].
      destruct (2000 <? _); [by inversion Hpre|].
      destruct (compute_adj_matrix _ _) as [adj|]; [|by inversion Hpre].
      destruct (connected_components adj) as [n labels].
      destruct (negb (0 <? _)); [by inversion Hpre|].
      destruct (existsb _ _); [by inversion Hpre|].
      inversion Hpre. }
    split; [by left | done].
  - intros Hr. apply MOF_regime_values in Hr as [Hv Hquiet].
    split; [by right|].
    intros [-> | Hv']; [destruct Hv as [Hv | [Hv | [Hv | Hv]]]; discriminate|].
    eapply quiet_trans; [exact Hq|].
    eapply quiet_trans; [apply quiet_classification | by apply Hquiet].
Qed.

(** X13.  When [make_MOF_fragments] returns the pair (None, None), the last
    thing it did was to append the reason to FailedStructures.log in the
    base directory: one of the four reasons of lines 541-576. *)
Theorem failure_is_logged data depth path xyzpath fs fs' :
  make_MOF_fragments data depth path xyzpath fs = (Returned none_pair, fs') ->
  let base := if ends_with_slash (path_str path) then drop_last (path_str path)
              else path_str path in
  let name := strip ".cif" (basename data) in
  truthy path = true /\
  exists why fs1,
    why ∈ ["large primitive cell"; "atomic overlap"; "no metal found";
           "solvent molecules"] /\
    quiet fs fs1 /\
    fs' = emit (Append (base +:+ "/FailedStructures.log")
                       ("Failed to featurize " +:+ name +:+ ": " +:+ why +:+ nl)) fs1.
Proof.
  intros Hrun base name. unfold make_MOF_fragments in Hrun.
  destruct (MOF_precheck data path xyzpath fs) as [[out | p] fs1] eqn:Hpre.
  2: { apply MOF_regime_values in Hrun as [[Hv | [Hv | [Hv | Hv]]] _];
         discriminate. }
  inversion Hrun; subst out fs1. clear Hrun.
  unfold MOF_precheck, failed, write2file in Hpre. fold base in Hpre. fold name in Hpre.
  destruct (truthy path); simpl in Hpre; [|inversion Hpre]. split; [done|].
  pose proof (quiet_make_dirs base fs) as Hd.
  destruct (readcif data) as [[cpar allatomtypes] fcoords].
  destruct (2000 <? _).
  { inversion Hpre. exists "large primitive cell", (make_dirs base fs).
    split; [set_solver|]. done. }
  destruct (compute_adj_matrix _ _) as [adj|].
  2: { inversion Hpre. exists "atomic overlap", (make_dirs base fs).
       split; [set_solver|]. done. }
  destruct (connected_components adj) as [n labels].
  assert (Hx : quiet fs (emit (WriteXYZandGraph xyzpath allatomtypes (mkcell cpar) fcoords
                                                adj) (make_dirs base fs))).
  { eapply quiet_trans; [exact Hd | by apply quiet_emit]. }
  destruct (negb (0 <? _)).
  { inversion Hpre. eexists "no metal found", _. split; [set_solver|]. done. }
  destruct (existsb _ _).
  { inversion Hpre. eexists "solvent molecules", _. split; [set_solver|]. done. }
  inversion Hpre.
Qed.

End Flow.

(** ** MOF_functionalizer.py *)

Lemma first_linker_with_Some (i : nat) (linkers : list (nat * list nat)) n l :
  Functionalizer.first_linker_with i linkers = Some (n, l) ->
  exists k, linkers !! k = Some (n, l) /\ i ∈ l /\
            forall k' n' l', k' < k -> linkers !! k' = Some (n', l') -> i ∉ l'.
Proof.
  induction linkers as [|[n0 l0] r IH]; simpl; [discriminate|].
  destruct (inb i l0) eqn:Hin.
  - intros H. inversion H; subst. exists 0. split; [done|].
    split; [by apply inb_true|]. intros k' n' l' Hk. lia.
  - intros H. destruct (IH H) as (k & Hk & Hi & Hfirst). exists (S k).
    split; [done|]. split; [done|].
    intros [|k'] n' l' Hlt Hl; simpl in Hl.
    + inversion Hl; subst. by apply inb_false.
    + eapply Hfirst; [|exact Hl]. lia.
Qed.

Lemma first_linker_with_None (i : nat) (linkers : list (nat * list nat)) :
  Functionalizer.first_linker_with i linkers = None ->
  forall n l, (n, l) ∈ linkers -> i ∉ l.
Proof.
  induction linkers as [|[n0 l0] r IH]; simpl; intros H n l Hin; [inversion Hin|].
  destruct (inb i l0) eqn:Hi; [discriminate|].
  apply elem_of_cons in Hin as [Heq | Hin].
  - inversion Heq; subst. by apply inb_false.
  - by eapply IH.
Qed.

Lemma lookup_enumerate {A} (l : list A) (k n : nat) (x : A) :
  enumerate l !! k = Some (n, x) <-> n = k /\ l !! k = Some x.
Proof.
  unfold enumerate. rewrite list_lookup_imap_Some. split.
  - intros (y & Hy & Heq). by inversion Heq; subst.
  - intros [-> Hx]. by exists x.
Qed.

(** X14.  [linker_identification] hands back the first linker that holds
    atom [i], with its index in [linker_list], and [checkedlist] with the
    atoms of that linker put in; it raises the exception of line 660
    exactly when no linker holds the atom. *)
Theorem linker_identification_first (linker_list : list (list nat)) (i : nat)
    (checkedlist : gset nat) :
  match Functionalizer.linker_identification linker_list i checkedlist with
  | Functionalizer.Done (linker_to_analyze, linker_to_analyze_index, checkedlist') =>
      linker_list !! linker_to_analyze_index = Some linker_to_analyze /\
      i ∈ linker_to_analyze /\
      (forall j l, j < linker_to_analyze_index -> linker_list !! j = Some l -> i ∉ l) /\
      (forall x, x ∈ checkedlist' <-> x ∈ checkedlist \/ x ∈ linker_to_analyze)
  | Functionalizer.Failed e =>
      e = Functionalizer.Exception /\ forall l, l ∈ linker_list -> i ∉ l
  end.
Proof.
  unfold Functionalizer.linker_identification.
  destruct (Functionalizer.first_linker_with i (enumerate linker_list))
    as [[n l]|] eqn:Hf.
  - apply first_linker_with_Some in Hf as (k & Hk & Hi & Hfirst).
    apply lookup_enumerate in Hk as [-> Hk].
    split; [done|]. split; [done|]. split.
    + intros j l' Hj Hl'. apply (Hfirst j j l' Hj). by apply lookup_enumerate.
    + intros x. by rewrite elem_of_union, elem_of_set_of.
  - split; [done|]. intros l Hl. apply list_elem_of_lookup in Hl as [k Hk].
    apply (first_linker_with_None i _ Hf k l).
    apply list_elem_of_lookup. exists k. by apply lookup_enumerate.
Qed.

(** The loop of [atom_deletion] from any state on. *)
Lemma atom_deletion_loop_spec (allatomtypes : list string) (delete_list : list nat) :
  forall (rows : list (nat * point)) (acc_c : option (list point)) (acc_t : list string),
  match Functionalizer.atom_deletion_loop rows allatomtypes delete_list acc_c acc_t with
  | Functionalizer.Done (c', t') =>
      default [] c' = default [] acc_c ++ (Functionalizer.rows_kept delete_list rows).*2 /\
      (c' = None <-> acc_c = None /\ Functionalizer.rows_kept delete_list rows = []) /\
      (exists kept_t, t' = acc_t ++ kept_t /\
         Forall2 (fun '(cart_row, _) t => allatomtypes !! cart_row = Some t)
                 (Functionalizer.rows_kept delete_list rows) kept_t) /\
      (forall cart_row xyz_, (cart_row, xyz_) ∈ rows -> cart_row ∈ delete_list ->
         allatomtypes !! cart_row = Some "H") /\
      (forall cart_row xyz_, (cart_row, xyz_) ∈ rows ->
         cart_row < length allatomtypes)
  | Functionalizer.Failed Functionalizer.Exception =>
      exists cart_row xyz_ t, (cart_row, xyz_) ∈ rows /\ cart_row ∈ delete_list /\
        allatomtypes !! cart_row = Some t /\ t <> "H"
  | Functionalizer.Failed Functionalizer.IndexError =>
      exists cart_row xyz_, (cart_row, xyz_) ∈ rows /\ length allatomtypes <= cart_row
  | Functionalizer.Failed Functionalizer.AttributeError => False
  end.
Proof.
  induction rows as [|[cart_row xyz_] rows IH]; intros acc_c acc_t; simpl.
  - unfold Functionalizer.rows_kept. rewrite filter_nil. simpl. rewrite app_nil_r.
    split; [done|]. split; [tauto|]. split; [|split].
    + exists []. rewrite app_nil_r. split; [done | constructor].
    + intros k x H. inversion H.
    + intros k x H. inversion H.
  - destruct (allatomtypes !! cart_row) as [t|] eqn:Ht.
    2: { exists cart_row, xyz_. split; [left|]. by apply lookup_ge_None. }
    assert (Hbound : cart_row < length allatomtypes) by (by eapply lookup_lt_Some).
    unfold Functionalizer.rows_kept. rewrite filter_cons. fold (@Functionalizer.rows_kept point).
    destruct (inb cart_row delete_list) eqn:Hdel.
    + apply inb_true in Hdel.
      destruct (decide (cart_row ∉ delete_list)) as [Hn | _]; [done|].
      destruct (String.eqb_spec t "H") as [-> | Hne]; simpl.
      * specialize (IH acc_c acc_t).
        destruct (Functionalizer.atom_deletion_loop rows allatomtypes delete_list acc_c acc_t)
          as [[c' t']|[| |]].
        -- destruct IH as (Hc & Hnone & Ht' & HH & Hb).
           split; [done|]. split; [done|]. split; [done|]. split.
           ++ intros k x Hk Hd. apply elem_of_cons in Hk as [Heq | Hk];
                [by inversion Heq; subst | by eapply HH].
           ++ intros k x Hk. apply elem_of_cons in Hk as [Heq | Hk];
                [by inversion Heq; subst | by eapply Hb].
        -- destruct IH as (k & x & t & Hk & Hr). exists k, x, t. split; [by right | done].
        -- done.
        -- destruct IH as (k & x & Hk & Hr). exists k, x. split; [by right | done].
      * exists cart_row, xyz_, t. split; [left | done].
    + apply inb_false in Hdel.
      destruct (decide (cart_row ∉ delete_list)) as [_ | Hn]; [|done].
      specialize (IH (Some (match acc_c with
                            | None => [xyz_]
                            | Some l => l ++ [xyz_]
                            end)) (acc_t ++ [t])).
      destruct (Functionalizer.atom_deletion_loop rows allatomtypes delete_list _ _)
        as [[c' t']|[| |]].
      * destruct IH as (Hc & Hnone & (kt & Ht' & HF) & HH & Hb).
        split; [|split; [|split; [|split]]].
        -- rewrite Hc. simpl. destruct acc_c as [l|]; simpl; [|done].
           by rewrite <- app_assoc.
        -- split; [|intros [_ H]; discriminate].
           intros ->. destruct Hnone as [Hnone _].
           destruct (Hnone eq_refl) as [H _]. discriminate.
        -- exists (t :: kt). split; [by rewrite Ht', <- app_assoc|]. by constructor.
        -- intros k x Hk Hd. apply elem_of_cons in Hk as [Heq | Hk];
             [by inversion Heq; subst | by eapply HH].
        -- intros k x Hk. apply elem_of_cons in Hk as [Heq | Hk];
             [by inversion Heq; subst | by eapply Hb].
      * destruct IH as (k & x & t0 & Hk & Hr). exists k, x, t0. split; [by right | done].
      * done.
      * destruct IH as (k & x & Hk & Hr). exists k, x. split; [by right | done].
Qed.

(** X15.  [atom_deletion] hands back the rows of [cart_coords] whose index
    is not in [delete_list], in their order, and the atom types at the same
    indices; it does so only when every deleted row is a hydrogen and some
    row is kept.  It raises the Exception of line 1182 on a deleted row
    that is no hydrogen, fails on line 1181 or 1189 when [allatomtypes] is
    too short, and fails on line 1191 (the shape of None) when no row is
    kept. *)
Theorem atom_deletion_rows (cart_coords : list point) (allatomtypes : list string)
    (delete_list : list nat) :
  let kept_rows := Functionalizer.rows_kept delete_list (enumerate cart_coords) in
  match Functionalizer.atom_deletion cart_coords allatomtypes delete_list with
  | Functionalizer.Done (new_coord_list, final_atom_types) =>
      new_coord_list = kept_rows.*2 /\
      new_coord_list <> [] /\
      Forall2 (fun '(cart_row, _) t => allatomtypes !! cart_row = Some t)
              kept_rows final_atom_types /\
      (forall cart_row, cart_row ∈ delete_list -> cart_row < length cart_coords ->
         allatomtypes !! cart_row = Some "H") /\
      length cart_coords <= length allatomtypes
  | Functionalizer.Failed Functionalizer.Exception =>
      exists cart_row t, cart_row ∈ delete_list /\ cart_row < length cart_coords /\
        allatomtypes !! cart_row = Some t /\ t <> "H"
  | Functionalizer.Failed Functionalizer.IndexError =>
      length allatomtypes < length cart_coords
  | Functionalizer.Failed Functionalizer.AttributeError =>
      forall cart_row, cart_row < length cart_coords -> cart_row ∈ delete_list
  end.
Proof.
  intros kept_rows. unfold Functionalizer.atom_deletion.
  pose proof (atom_deletion_loop_spec allatomtypes delete_list (enumerate cart_coords)
                None []) as Hloop.
  fold kept_rows in Hloop.
  assert (Hrow : forall k, k < length cart_coords ->
            exists x, (k, x) ∈ enumerate cart_coords).
  { intros k Hk. destruct (lookup_lt_is_Some_2 cart_coords k Hk) as [x Hx].
    exists x. by apply elem_of_enumerate. }
  assert (Hidx : forall k x, (k, x) ∈ enumerate cart_coords -> k < length cart_coords).
  { intros k x Hk. apply elem_of_enumerate in Hk. by eapply lookup_lt_Some. }
  destruct (Functionalizer.atom_deletion_loop _ _ _ _ _) as [[[c'|] t']|[| |]].
  - destruct Hloop as (Hc & Hnone & (kt & -> & HF) & HH & Hb). simpl in Hc.
    split; [done|]. split.
    + intros ->. symmetry in Hc. apply fmap_nil_inv in Hc.
      destruct Hnone as [_ Hnone]. by discriminate Hnone.
    + split; [done|]. split.
      * intros k Hd Hk. destruct (Hrow k Hk) as [x Hx]. by eapply HH.
      * destruct (decide (length cart_coords <= length allatomtypes)) as [|Hn]; [done|].
        destruct (Hrow (length allatomtypes)) as [x Hx]; [lia|].
        apply Hb in Hx. lia.
  - destruct Hloop as (_ & Hnone & _). destruct Hnone as [Hnone _].
    destruct (Hnone eq_refl) as [_ Hnil].
    intros k Hk. destruct (Hrow k Hk) as [x Hx].
    destruct (decide (k ∈ delete_list)) as [|Hn]; [done|]. exfalso.
    assert (Hin : (k, x) ∈ kept_rows).
    { unfold kept_rows, Functionalizer.rows_kept. apply list_elem_of_filter. done. }
    rewrite Hnil in Hin. inversion Hin.
  - destruct Hloop as (k & x & t & Hk & Hd & Ht & Hne). exists k, t.
    split; [done|]. split; [by eapply Hidx | done].
  - done.
  - destruct Hloop as (k & x & Hk & Hle). apply Hidx in Hk. lia.
Qed.

Section GetLinkers.
Context {ML : Mol3DLib} {PL : PBCLib} {GL : GraphLib} {RT : Runtime}.

(** X16.  [get_linkers] of MOF_functionalizer seeds the SBUs as
    [prepare_initial_SBU] does, but for the hydrogens: both take the metals
    and their bonded neighbours as SBUlist; the removelist of
    [prepare_initial_SBU] is the removelist of [get_linkers] and the
    hydrogens bonded to an atom of SBUlist.  So the linkers [get_linkers]
    cuts out keep the hydrogens of the coordinating atoms. *)
Theorem get_linkers_keeps_hydrogens molcif adj_matrix allatomtypes metal_list
    logpath name fs :
  let SBUlist := (Functionalizer.get_linkers_sets molcif).1 in
  let removelist := (Functionalizer.get_linkers_sets molcif).2 in
  let seed := (prepare_initial_SBU molcif allatomtypes metal_list logpath name fs).1 in
  seed.2 = SBUlist /\
  (forall x, x ∈ seed.1.2 <->
     x ∈ removelist \/
     (is_H molcif x = true /\
      exists a, a ∈ SBUlist /\ x ∈ getBondedAtomsSmart molcif a)) /\
  Functionalizer.get_linkers molcif adj_matrix allatomtypes =
    get_closed_subgraph (set_of (seq 0 (length adj_matrix)) ∖ removelist) removelist
                        adj_matrix.
Proof.
  intros SBUlist removelist seed.
  destruct (prepare_initial_SBU_sets molcif allatomtypes metal_list logpath name fs)
    as [HS HR]. fold seed in HS, HR.
  assert (HS' : seed.2 = SBUlist) by done.
  assert (HR' : forall x, x ∈ removelist <->
            x ∈ findMetal molcif \/ (x ∈ SBUlist /\ only_metal_or_H molcif x = true)).
  { intros x. unfold removelist, Functionalizer.get_linkers_sets. simpl.
    rewrite elem_of_foldl_add_if, elem_of_foldl_add, elem_of_elements.
    fold SBUlist. set_solver. }
  split; [done|]. split; [|done].
  intros x. rewrite HR, HR', HS'. split.
  - intros [Hx | [Hx | (a & Ha & Hx & HH)]]; [left; by left | left; by right |].
    right. split; [done|]. by exists a.
  - intros [[Hx | Hx] | [HH (a & Ha & Hx)]]; [by left | right; by left |].
    right. right. by exists a.
Qed.

End GetLinkers.

(** ** What breakdown_MOF writes *)

Lemma wrote_refl fs : wrote fs fs [].
Proof. unfold wrote. by rewrite app_nil_r. Qed.

Lemma wrote_emit fs fs' evs e : wrote fs fs' evs -> wrote fs (emit e fs') (evs ++ [e]).
Proof.
  intros (Hd & Hf & Ht). unfold wrote, emit. simpl.
  by rewrite Hd, Hf, Ht, app_assoc.
Qed.

Lemma wrote_trans fs1 fs2 fs3 evs evs' :
  wrote fs1 fs2 evs -> wrote fs2 fs3 evs' -> wrote fs1 fs3 (evs ++ evs').
Proof.
  intros (Hd & Hf & Ht) (Hd' & Hf' & Ht'). unfold wrote.
  by rewrite Hd', Hf', Ht', Hd, Hf, Ht, app_assoc.
Qed.

Lemma enumerate_bound {A} (l : list A) :
  Forall (fun p => p.1 < length l) (enumerate l).
Proof.
  apply Forall_forall. intros [i x] Hin. apply elem_of_enumerate in Hin.
  simpl. by eapply lookup_lt_Some.
Qed.

Section Writes.
Context {ML : Mol3DLib} {PL : PBCLib} {GL : GraphLib} {RT : Runtime}.

(** The only exception [branch] raises is that of the recursion limit. *)
Lemma branch_raises molcif main_paths depth :
  forall atoms_in_sbu new_atoms e,
  branch depth molcif main_paths atoms_in_sbu new_atoms = Raise e -> e = RecursionError.
Proof.
  induction depth as [|d IH]; intros a n e; simpl.
  - intros H. by inversion H.
  - destruct (branch_first _ _ _ _ _) as [[[grown n'] a']|]; [|discriminate].
    destruct (_ =? _); [discriminate|].
    destruct (branch d molcif main_paths a' n') as [[[x y] z]|e'] eqn:Hb; simpl.
    + discriminate.
    + intros H. inversion H; subst. by eapply IH.
Qed.

Lemma seed_loop_raises molcif main_paths subcycle_list SBU :
  forall st e,
  seed_loop molcif main_paths subcycle_list st SBU = Raise e -> e = RecursionError.
Proof.
  induction SBU as [|val SBU IH]; intros st e; simpl; [discriminate|].
  destruct (seed_step molcif main_paths subcycle_list st val) as [st'|e'] eqn:Hs; simpl.
  - apply IH.
  - intros H. inversion H; subst. unfold seed_step in Hs.
    destruct (branch _ _ _ _ _) as [[[x y] z]|e'] eqn:Hb; simpl in Hs; [discriminate|].
    inversion Hs; subst. by eapply branch_raises.
Qed.

Lemma assemble_SBU_raises molcif main_paths subcycle_list flat_subcycle_list SBU e :
  assemble_SBU molcif main_paths subcycle_list flat_subcycle_list SBU = Raise e ->
  e = RecursionError.
Proof.
  unfold assemble_SBU.
  destruct (seed_loop _ _ _ _ _) as [[f b]|e'] eqn:Hs; simpl.
  - destruct (cap_scan _ _ _) as [[f' Xl] chk]. discriminate.
  - intros H. inversion H; subst. by eapply seed_loop_raises.
Qed.

Variable molcif : mol3D.
Variable name : string.
Variable cell_v : cell.
Variable sbupath linkerpath : pypath.
Variable n_SBUs n_linkers : nat.
Variable fs : FS.

#[local] Abbreviation named := (written_by sbupath linkerpath name n_SBUs n_linkers).
#[local] Abbreviation Inv := (SBU_loop_inv sbupath linkerpath name n_SBUs n_linkers fs).

(** Lines 281-297 after [k] rounds. *)
Lemma write_SBU_writes i c r is_periodic st k :
  i < n_SBUs -> Inv k st ->
  match write_SBU sbupath name i c r is_periodic st with
  | Continue st' => Inv (S k) st'
  | Return v fs' =>
      v = PyInt 4 /\
      exists evs, wrote fs fs' evs /\ Forall named evs /\ length evs = 2 * S k /\
        exists x m h, last evs = Some (WriteXYZ x m h) /\ contains "1Drod" x = true
  | Throw e fs' => e = NameError /\ fs' = st_fs st /\ k = 0
  end.
Proof.
  intros Hi (evs & Hw & Hn & Hlen & Hnone & Hsome). unfold write_SBU.
  set (xyzname := if sbu_guard _ _ _ _ then _ else _).
  assert (Hx : forall x, xyzname = Some x ->
            exists j b, j < n_SBUs /\ x = sbu_xyzname sbupath name j b).
  { intros x. unfold xyzname. destruct (sbu_guard _ _ _ _); [|apply Hsome].
    intros H. inversion H. by exists i, is_periodic. }
  destruct xyzname as [x|] eqn:Hxyz.
  - destruct (Hx x eq_refl) as (j & b & Hj & Hxj).
    set (e1 := WriteGraph x (r_labels r) (r_adj_mat r)).
    set (e2 := WriteXYZ x (r_mol r) ("   " +:+ X_string (c_final_X_indices c))).
    assert (Hw2 : wrote fs (emit e2 (emit e1 (st_fs st))) ((evs ++ [e1]) ++ [e2])).
    { by do 2 apply wrote_emit. }
    assert (Hn2 : Forall named ((evs ++ [e1]) ++ [e2])).
    { rewrite !Forall_app. repeat split; [done| |]; apply Forall_singleton;
        exists x; (split; [done|]); left; by exists j, b. }
    assert (Hlen2 : length ((evs ++ [e1]) ++ [e2]) = 2 * S k).
    { rewrite !length_app. simpl. lia. }
    destruct (contains "1Drod" x) eqn:Hrod.
    + split; [done|]. exists ((evs ++ [e1]) ++ [e2]).
      split; [done|]. split; [done|]. split; [done|].
      exists x, (r_mol r), ("   " +:+ X_string (c_final_X_indices c)).
      by rewrite last_snoc.
    + exists ((evs ++ [e1]) ++ [e2]). simpl.
      split; [done|]. split; [done|]. split; [done|]. split; [discriminate|].
      intros y Hy. inversion Hy; subst. by exists j, b.
  - split; [done|]. split; [done|]. apply Hnone.
    unfold xyzname in Hxyz. by destruct (sbu_guard _ _ _ _).
Qed.

Variable anchoring_atoms : gset nat.
Variable connections_list : list (list nat).
Variable connections_subgraphlist : list matrix.
Variable subcycle_list : list (list nat).
Variable flat_subcycle_list : list nat.

#[local] Abbreviation body :=
  (SBU_body molcif name cell_v anchoring_atoms sbupath connections_list
            connections_subgraphlist subcycle_list flat_subcycle_list).

(** One round of the loop over the SBUs when the scan of the linkers lets
    it run. *)
Lemma SBU_body_writes main_paths current_longest :
  scan_linkers molcif anchoring_atoms (enumerate connections_list)
               connections_subgraphlist [] 0 = Ok (main_paths, current_longest) ->
  (current_longest <=? 2) = false ->
  forall (x : nat * list nat) st k,
  x.1 < n_SBUs -> Inv k st ->
  match body st x with
  | Continue st' => Inv (S k) st'
  | Return v fs' =>
      v = PyInt 4 /\
      exists evs, wrote fs fs' evs /\ Forall named evs /\ length evs = 2 * S k /\
        exists x m h, last evs = Some (WriteXYZ x m h) /\ contains "1Drod" x = true
  | Throw e fs' => fs' = st_fs st /\ (e <> RecursionError -> k = 0)
  end.
Proof.
  intros Hscan Hcl [i SBU] st k Hi HI. simpl in Hi.
  unfold SBU_body. rewrite Hscan, Hcl.
  destruct (assemble_SBU _ _ _ _ _) as [c|e] eqn:Ha.
  - match goal with
    | |- context [write_SBU ?a ?b ?c ?d ?e ?f ?g] =>
        pose proof (write_SBU_writes i d e f st k Hi HI) as Hw;
        destruct (write_SBU a b c d e f g) as [st'|v fs'|e' fs']
    end.
    + exact Hw.
    + exact Hw.
    + destruct Hw as (He & -> & Hk). split; [done|]. by intros _.
  - split; [done|]. intros Hne. by apply assemble_SBU_raises in Ha.
Qed.

(** The loop over the SBUs when the scan of the linkers lets it run. *)
Lemma SBU_loop_writes main_paths current_longest :
  scan_linkers molcif anchoring_atoms (enumerate connections_list)
               connections_subgraphlist [] 0 = Ok (main_paths, current_longest) ->
  (current_longest <=? 2) = false ->
  forall (todo : list (nat * list nat)) st k,
  Forall (fun p => p.1 < n_SBUs) todo -> Inv k st ->
  match for_each body st todo with
  | Continue st' => Inv (k + length todo) st'
  | Return v fs' =>
      v = PyInt 4 /\
      exists evs k', wrote fs fs' evs /\ Forall named evs /\ length evs = 2 * S k' /\
        k' < k + length todo /\
        exists x m h, last evs = Some (WriteXYZ x m h) /\ contains "1Drod" x = true
  | Throw e fs' =>
      exists evs k', wrote fs fs' evs /\ Forall named evs /\ length evs = 2 * k' /\
        k' < k + length todo /\ (e <> RecursionError -> k' = 0)
  end.
Proof.
  intros Hscan Hcl. induction todo as [|x todo IH]; intros st k Hb HI.
  - simpl. by rewrite Nat.add_0_r.
  - apply Forall_cons in Hb as [Hi Hb].
    pose proof (SBU_body_writes main_paths current_longest Hscan Hcl x st k Hi HI) as Hw.
    change (for_each body st (x :: todo))
      with (match body st x with
            | Continue s' => for_each body s' todo
            | c => c
            end).
    destruct (body st x) as [st'|v fs'|e' fs'].
    + specialize (IH st' (S k) Hb Hw).
      destruct (for_each body st' todo) as [st''|v fs'|e' fs'].
      * replace (k + length (x :: todo)) with (S k + length todo) by (simpl; lia).
        exact IH.
      * destruct IH as (Hv & evs & k' & H1 & H2 & H3 & H4 & H5).
        split; [done|]. exists evs, k'.
        split; [done|]. split; [done|]. split; [done|]. split; [simpl; lia | done].
      * destruct IH as (evs & k' & H1 & H2 & H3 & H4 & H5).
        exists evs, k'.
        split; [done|]. split; [done|]. split; [done|]. split; [simpl; lia | done].
    + destruct Hw as (Hv & evs & H1 & H2 & H3 & H5).
      split; [done|]. exists evs, k.
      split; [done|]. split; [done|]. split; [done|]. split; [simpl; lia | done].
    + destruct Hw as (-> & Hk). destruct HI as (evs & H1 & H2 & H3 & _).
      exists evs, k.
      split; [done|]. split; [done|]. split; [done|]. split; [simpl; lia | done].
Qed.

(** Lines 299-377: one linker is written under its own name or not at
    all. *)
Lemma linker_loop_writes all_SBU_atoms del :
  forall (todo : list (nat * list nat)) st,
  Forall (fun p => p.1 < n_linkers) todo ->
  exists evs,
    wrote (st_fs st)
          (st_fs (foldl (linker_body molcif name cell_v linkerpath all_SBU_atoms del)
                        st todo)) evs /\
    Forall named evs /\ length evs <= 2 * length todo.
Proof.
  induction todo as [|x todo IH]; intros st Hb.
  - exists []. split; [apply wrote_refl|]. split; [constructor | simpl; lia].
  - apply Forall_cons in Hb as [Hi Hb].
    change (foldl (linker_body molcif name cell_v linkerpath all_SBU_atoms del) st
                  (x :: todo))
      with (foldl (linker_body molcif name cell_v linkerpath all_SBU_atoms del)
                  (linker_body molcif name cell_v linkerpath all_SBU_atoms del st x)
                  todo).
    set (st1 := linker_body molcif name cell_v linkerpath all_SBU_atoms del st x).
    assert (H1 : exists evs, wrote (st_fs st) (st_fs st1) evs /\ Forall named evs /\
                             length evs <= 2).
    { unfold st1. destruct x as [i linker]. simpl in Hi. unfold linker_body.
      destruct (linker_skipped _ _).
      { exists []. split; [apply wrote_refl|]. split; [constructor | simpl; lia]. }
      destruct (linker_guard _ _ _ _).
      2: { exists []. split; [apply wrote_refl|]. split; [constructor | simpl; lia]. }
      eexists ([] ++ [_] ++ [_]). simpl. split; [|split; [|lia]].
      - apply (wrote_emit _ _ [_]). apply (wrote_emit _ _ []). apply wrote_refl.
      - repeat constructor; eexists; (split; [reflexivity|]); right; by exists i. }
    destruct H1 as (evs1 & Hw1 & Hn1 & Hl1).
    destruct (IH st1 Hb) as (evs2 & Hw2 & Hn2 & Hl2).
    exists (evs1 ++ evs2). split; [by eapply wrote_trans|].
    split; [by apply Forall_app|]. rewrite length_app. simpl. lia.
Qed.

End Writes.


(** ** The periodic check and the bonds *)

(** X18.  [periodic_checker] looks at bonds only, and a bond more can only
    turn its answer to yes: when every bonded pair of [graph] is bonded in
    [graph'] too, a yes for [graph] is a yes for [graph'] in the same
    coordinates, whatever is passed as [atoms], which the function never
    reads. *)
Theorem periodic_checker_monotone (graph graph' : matrix) (coords : list point)
    (atoms atoms' : list string) :
  Forall (fun p => entry graph' p.1 p.2 <> 0) (nonzero_pairs graph) ->
  periodic_checker graph coords atoms = true ->
  periodic_checker graph' coords atoms' = true.
Proof.
  intros Hsub. rewrite !periodic_checker_spec.
  intros (r1 & r2 & Hne & Hlt). exists r1, r2. split; [|done].
  rewrite Forall_forall in Hsub.
  apply (Hsub (r1, r2)). by apply nonzero_pairs_spec.
Qed.

(** ** Examples for the loops and the flow *)

Module MoreExamples.
Import Ref Ref2.

(** In the ring with two tails and a side group, anchored at the tails 0
    and 7, the ring 1..6 lies on the path from 0 to 7 and is taken into the
    main chain whole. *)
Lemma main_chain_closed_witness :
  Forall (fun y => y ∈ [0; 1; 2; 3; 4; 7; 6; 4; 2; 5; 3; 1]) [1; 2; 3; 4; 5; 6].
Proof.
  edestruct (main_chain_closed (GL := cyclesLib paddle paddle_ring)
               (mk_mol3D [] paddle) [0; 7] [0; 1; 2; 3; 4; 7; 6; 4; 2; 5; 3; 1] 6 6)
    as (_ & Hring & _).
  - vm_compute. discriminate.
  - vm_compute. reflexivity.
  - apply Forall_forall. apply Hring.
    + vm_compute. left.
    + exists 1. split; [left | right; left].
Defined.

(** From atom 0 of the ring with tails, with the atoms 3, 4 and 5 as main
    path: five atoms are left to take in, six nested calls are enough. *)
Lemma branch_terminates_witness :
  exists grown n a, branch 6 paddle_mol [3; 4; 5] [0] [0] = Ok (grown, n, a).
Proof.
  apply branch_terminates.
  - vm_compute. split; [reflexivity | repeat constructor].
  - left. vm_compute. lia.
Defined.

(** From atom 2 of the ring, with the ring as main path, [branch] climbs
    to the side group 8. *)
Lemma branch_climbs_witness :
  climbs paddle_mol [1; 2; 3; 4; 5; 6] [2] 8.
Proof.
  edestruct (branch_climbs paddle_mol [1; 2; 3; 4; 5; 6] [2] [2] 10
               [2; 8] [8; 2; 8; 2] [2; 8; 2; 2; 8; 2]) as (_ & _ & Hc & _).
  - vm_compute. reflexivity.
  - apply Hc. left.
Defined.

(** The SBU Zn0-O1-C2 of the nine-atom chain, with the linker 1..7 as main
    path: the fragment has the three atoms and one placeholder, for C3 on
    its anchor C2. *)
Lemma SBU_fragment_in_step_witness :
  exists c,
    assemble_SBU (mol_of chain9) [1; 2; 3; 4; 5; 6; 7] [] [] [0; 1; 2] = Ok c /\
    in_step (c_frag c) /\
    c_tuple_list c = [(3, 2)] /\
    c_final_X_indices c = [3].
Proof.
  destruct (assemble_SBU (mol_of chain9) [1; 2; 3; 4; 5; 6; 7] [] [] [0; 1; 2])
    as [c | e] eqn:Hrun; [|vm_compute in Hrun; discriminate].
  exists c. split; [reflexivity|].
  destruct (SBU_fragment_in_step _ _ _ _ _ _ Hrun) as (Hstep & Hidx & _).
  split; [exact Hstep|].
  assert (Ht : c_tuple_list c = [(3, 2)]).
  { vm_compute in Hrun. by inversion Hrun. }
  split; [exact Ht|]. by rewrite Hidx, Ht.
Defined.

(** The SBU 0-1 of the ring with tails is assembled within the recursion
    limit of the stand-in runtime. *)
Lemma SBU_assembly_total_witness :
  exists c, assemble_SBU paddle_mol [3; 4; 5] paddle_ring [1; 2; 3; 4; 5; 6] [0; 1] = Ok c.
Proof.
  apply SBU_assembly_total.
  - vm_compute. split; [reflexivity | repeat constructor].
  - vm_compute. lia.
Defined.

(** The linker 1..7 of the nine-atom chain between the SBUs 0-1-2 and
    6-7-8. *)
Lemma linker_fragment_in_step_witness :
  let c := assemble_linker (mol_of chain9) [0; 1; 2; 6; 7; 8]
             (elements (set_of [0; 1; 2; 6; 7; 8])) [1; 2; 3; 4; 5; 6; 7] in
  in_step (c_frag c) /\ c_final_X_indices c = (c_tuple_list c).*1.
Proof.
  intros c.
  destruct (linker_fragment_in_step (mol_of chain9) [0; 1; 2; 6; 7; 8]
              [1; 2; 3; 4; 5; 6; 7]) as (Hstep & Hidx & _).
  - apply (bool_decide_unpack _). vm_compute. exact I.
  - split; [exact Hstep | exact Hidx].
Defined.

(** The nine-atom chain with the two metals for anchoring atoms: no atom of
    the linker 1..7 is one of them. *)
Lemma anchorless_linker_raises_witness :
  breakdown_MOF (PL := pbcLib chain9) chain_SBUs (ix_ (s_graph chain9) <$> chain_SBUs)
    (mol_of chain9) 1 "mo" (mkcell (PBCLib := pbcLib chain9) []) {[0; 8]} PFalse
    chain_linkers (ix_ (s_graph chain9) <$> chain_linkers) (PStr "out/linkers") fs0
  = (Raised ValueError, fs0).
Proof.
  apply (anchorless_linker_raises (PL := pbcLib chain9) [0; 1; 2] [[6; 7; 8]]
           (ix_ (s_graph chain9) <$> chain_SBUs) (mol_of chain9) 1 "mo"
           (mkcell (PBCLib := pbcLib chain9) []) {[0; 8]} PFalse
           [] [1; 2; 3; 4; 5; 6; 7] []).
  - constructor.
  - intros v Hv.
    assert (Hall : Forall (fun v => v ∉ ({[0; 8]} : gset nat)) [1; 2; 3; 4; 5; 6; 7]).
    { apply (bool_decide_unpack _). vm_compute. exact I. }
    rewrite Forall_forall in Hall. by apply Hall.
Defined.

(** Zn-N-C-N-Zn: the run returns 3 and has written no fragment file. *)
Lemma return_codes_witness :
  quiet fs0 (run carbodiimide).2.
Proof.
  apply (return_codes (PL := pbcLib carbodiimide) "dir/mof.cif" 1 (PStr "out")
           (PStr "out/xyz/mof.xyz") fs0 (PyInt 3) (run carbodiimide).2).
  - vm_compute. reflexivity.
  - right. right. reflexivity.
Defined.

(** Zn-O with a lone O beside it: the run returns (None, None), and the
    last thing it did was to log one of the four reasons. *)
Lemma failure_is_logged_witness :
  exists why fs1,
    why ∈ ["large primitive cell"; "atomic overlap"; "no metal found";
           "solvent molecules"] /\
    quiet fs0 fs1 /\
    (run wet).2 = emit (Append "out/FailedStructures.log"
                               ("Failed to featurize mo: " +:+ why +:+ nl)) fs1.
Proof.
  destruct (failure_is_logged (PL := pbcLib wet) "dir/mof.cif" 1 (PStr "out")
              (PStr "out/xyz/mof.xyz") fs0 (run wet).2) as (_ & H).
  - vm_compute. reflexivity.
  - exact H.
Defined.

(** The one bond Zn0-O1 of the chain with that bond 5 long is enough for
    the whole chain to count as periodic. *)
Lemma periodic_checker_monotone_witness :
  periodic_checker (s_graph rod9) (s_coords rod9) [] = true.
Proof.
  apply (periodic_checker_monotone (graph_of_bonds 9 [(0, 1)]) (s_graph rod9)
           (s_coords rod9) (s_symbols rod9) []).
  - apply (bool_decide_unpack _). vm_compute. exact I.
  - vm_compute. reflexivity.
Defined.

End MoreExamples.
